(** * gleam: the node-local instruction executor and the external file sorter

    A shallow embedding of two pieces of the repository:
    - [executor.executeInstruction], the part that runs one stage of an
      instruction set as an external process (module [Executor]);
    - package [filesort] ([sql/util/filesort/filesort.go]), the sorter that
      buffers rows, spills sorted runs to files and merges them with a heap
      (module [Filesort]).

    Go values are modelled as follows: [int] fields that are configured by the
    caller are [Z]; lengths, cursors and counters are [nat]; [error] is
    [option error] with [None] for [nil]; slices are lists; a struct is a
    record whose fields carry a short prefix where Go reuses a field name. *)

From stdpp Require Import base list gmap strings pretty sorting.
From Stdlib Require Import ZArith Lia.

Open Scope string_scope.
Open Scope list_scope.
Open Scope Z_scope.

(* ===================================================================== *)
(** * The executor: one external-process stage                            *)
(* ===================================================================== *)

Module Executor.

(** [pb.Script], [pb.Instruction], [pb.InstructionSet], [pb.InstructionStat]
    and [ExecutorOption], with the fields [executeInstruction] reads. *)
Record Script := {
  Path : string;
  Args : list string;
  IsPipe : bool
}.

Record Instruction := {
  StepId : Z;
  TaskId : Z;
  Name : string;
  GetScript : option Script
}.

Record InstructionSet := {
  FlowHashCode : Z;
  IsProfiling : bool
}.

Record InstructionStat := {
  InputCounter : Z;
  OutputCounter : Z
}.

Record Executor := {
  Option_Dir : string;
  grpcAddress : string
}.

(** What [executeInstruction] does that the outside can observe, in order.
    [Started] is one call of [util.Execute] on
    [exec.CommandContext(ctx, path, args...)] with [command.Dir = dir]; it
    records what the call returned and the input counter it left. *)
Inductive event :=
  | Started (path : string) (args : list string) (dir : string)
            (err : option string) (inputCounter : Z)
  | Logged (attempt : Z)
  | Slept (seconds : Z)
  | ExeErr (msg : string).

Definition is_Started (e : event) : bool :=
  match e with Started _ _ _ _ _ => true | _ => false end.

(** The result of every attempt, in order. *)
Definition attempts (tr : list event) : list (option string * Z) :=
  omap (λ e, match e with Started _ _ _ err c => Some (err, c) | _ => None end) tr.

(** The argument list of every attempt, in order. *)
Definition started_args (tr : list event) : list (list string) :=
  omap (λ e, match e with Started _ a _ _ _ => Some a | _ => None end) tr.

Definition sent_errors (tr : list event) : list string :=
  omap (λ e, match e with ExeErr m => Some m | _ => None end) tr.

(** [fmt.Sprint] on an integer prints it in decimal. *)
Definition fmt_Sprint (n : Z) : string := pretty n.

(** The collaborators that live outside the file: the world a subprocess or
    a built-in function runs in, [util.Execute], the function registry and
    the two [filepath] functions. *)
Class Collaborators := {
  World : Type;
  util_Execute :
    World → string → list string → string → InstructionStat →
    World * InstructionStat * option string;
  GetInstructionFunction :
    Instruction → option (World → InstructionStat → World * InstructionStat * option string);
  filepath_Base : string → string;
  filepath_Join : string → string → string
}.

Section Run.

Context `{Collaborators}.

Record run_state := {
  rs_world : World;
  rs_stat : InstructionStat;
  rs_trace : list event
}.

(** The flags appended to a script that is not a pipe (lines 218 to 229). *)
Definition prepare_script (exe : Executor) (iset : InstructionSet) (i : Instruction)
    (script : Script) : Script :=
  if negb (IsPipe script) then
    let args := Args script ++
      ["-gleam.executor"; grpcAddress exe;
       "-flow.hashcode"; fmt_Sprint (FlowHashCode iset);
       "-flow.stepId"; fmt_Sprint (StepId i);
       "-flow.taskId"; fmt_Sprint (TaskId i)] in
    let args := if IsProfiling iset then args ++ ["-gleam.profiling"] else args in
    let executablePath := filepath_Base (Path script) in
    {| Path := filepath_Join (Option_Dir exe) executablePath;
       Args := args;
       IsPipe := IsPipe script |}
  else script.

(** [for x := 0; x < 3; x++ { ... }], with [left] the iterations that
    remain ([3 - x]). It returns the state and the last [err]. *)
Fixpoint start_loop (left : nat) (x : Z) (exe : Executor) (script : Script)
    (st : run_state) (err : option string) : run_state * option string :=
  match left with
  | O => (st, err)
  | S left' =>
    let '(w, stat, err) :=
      util_Execute (rs_world st) (Path script) (Args script) (Option_Dir exe) (rs_stat st) in
    let tr := rs_trace st ++
      [Started (Path script) (Args script) (Option_Dir exe) err (InputCounter stat)] in
    let st := {| rs_world := w; rs_stat := stat; rs_trace := tr |} in
    match err with
    | None => (st, err)
    | Some _ =>
      if negb (InputCounter stat =? 0) then (st, err)
      else
        let st := {| rs_world := w; rs_stat := stat;
                     rs_trace := tr ++ [Logged (x + 1); Slept 1] |} in
        start_loop left' (x + 1) exe script st err
    end
  end.

Definition send (st : run_state) (msg : string) : run_state :=
  {| rs_world := rs_world st; rs_stat := rs_stat st;
     rs_trace := rs_trace st ++ [ExeErr msg] |}.

(** The body that [executeInstruction] hands to [util.BufWrites]. *)
Definition executeInstruction (exe : Executor) (iset : InstructionSet) (i : Instruction)
    (w : World) (stat : InstructionStat) : run_state :=
  let st := {| rs_world := w; rs_stat := stat; rs_trace := [] |} in
  match GetInstructionFunction i with
  | Some f =>
    let '(w, stat, err) := f w stat in
    let st := {| rs_world := w; rs_stat := stat; rs_trace := [] |} in
    match err with
    | Some e => send st ("Failed executing function " +:+ Name i +:+ ": " +:+ e)
    | None => st
    end
  | None =>
    match GetScript i with
    | None => send st "no script provided in instruction"
    | Some script =>
      let script := prepare_script exe iset i script in
      let '(st, err) := start_loop 3 0 exe script st None in
      match err with
      | Some e => send st ("Failed executing command " +:+ Name i +:+ ": " +:+ e)
      | None => st
      end
    end
  end.

(** An external-process stage: no built-in function of that name, and a
    script. *)
Definition external_stage (i : Instruction) (script : Script) : Prop :=
  GetInstructionFunction i = None ∧ GetScript i = Some script.

(** The flags of the argument contract. *)
Definition contract_flags (exe : Executor) (iset : InstructionSet) (i : Instruction)
    : list string :=
  ["-gleam.executor"; grpcAddress exe;
   "-flow.hashcode"; fmt_Sprint (FlowHashCode iset);
   "-flow.stepId"; fmt_Sprint (StepId i);
   "-flow.taskId"; fmt_Sprint (TaskId i)]
  ++ (if IsProfiling iset then ["-gleam.profiling"] else []).

End Run.

(** A world for running examples: the list of what the next subprocess
    attempts will return (error and input counter); no built-in functions. *)
#[export] Instance scripted : Collaborators := {|
  World := list (option string * Z);
  util_Execute := λ w _ _ _ stat,
    match w with
    | [] => ([], stat, None)
    | (e, c) :: w' => (w', {| InputCounter := c; OutputCounter := OutputCounter stat |}, e)
    end;
  GetInstructionFunction := λ _, None;
  filepath_Base := λ p, p;
  filepath_Join := λ d p, d +:+ "/" +:+ p
|}.

Definition fails_twice : list (option string * Z) :=
  [(Some "exit status 1", 0); (Some "exit status 1", 0); (None, 0)].
Definition fails_after_reading : list (option string * Z) :=
  [(Some "exit status 1", 5); (None, 5)].

Definition always_succeeds : list (option string * Z) := [].

Definition example_executor : Executor :=
  {| Option_Dir := "/work"; grpcAddress := "127.0.0.1:4000" |}.
Definition example_set : InstructionSet :=
  {| FlowHashCode := 77; IsProfiling := false |}.
Definition example_stat : InstructionStat :=
  {| InputCounter := 0; OutputCounter := 0 |}.
Definition example_script (pipe : bool) : Script :=
  {| Path := "wc"; Args := ["-l"]; IsPipe := pipe |}.
Definition example_instruction (pipe : bool) : Instruction :=
  {| StepId := 2; TaskId := 0; Name := "count"; GetScript := Some (example_script pipe) |}.

(** ** The stages of an instruction set *)

(** [pb.DatasetShardLocation], with what the dial functions are given. *)
Record DatasetShardLocation := {
  loc_Name : string;
  loc_Address : string;
  loc_OnDisk : bool
}.

(** Where a stage reads from: the reading end of a piper, or a new piper
    that [netchan.DialReadChannel] fills from a shard location. Pipers are
    named by the order in which [util.NewPiper] made them. *)
Inductive reader :=
  | PiperReader (piper : nat)
  | DialRead (name : string) (loc : DatasetShardLocation).

(** Where a stage writes to: the writing end of a piper, or a new piper
    that [netchan.DialWriteChannel] drains to a shard location. *)
Inductive writer :=
  | PiperWriter (piper : nat)
  | DialWrite (name : string) (loc : DatasetShardLocation) (readerCount : Z).

(** [setupReaders], with [locs] for [i.GetInputShardLocations()]. *)
Definition setupReaders (name : string) (locs : list DatasetShardLocation)
    (inPiper : nat) (isFirst : bool) : list reader :=
  if negb isFirst then [PiperReader inPiper]
  else map (DialRead name) locs.

(** [setupWriters], with [locs] for [i.GetOutputShardLocations()]. *)
Definition setupWriters (name : string) (locs : list DatasetShardLocation)
    (outPiper : nat) (isLast : bool) (readerCount : Z) : list writer :=
  if negb isLast then [PiperWriter outPiper]
  else map (λ l, DialWrite name l readerCount) locs.

(** [readers[0]] and [writers[0]], which [util.Execute] is given; Go panics
    when a slice is empty. *)
Definition script_streams (readers : list reader) (writers : list writer)
    : option (reader * writer) :=
  match readers, writers with
  | r :: _, w :: _ => Some (r, w)
  | _, _ => None
  end.

(** One [go func(...)] of the loop of [ExecuteInstructionSet]: the arguments
    [executeInstruction] is called with. *)
Record stage := {
  st_index : nat;
  st_instr : Instruction;
  st_prevIsPipe : bool;
  st_inChan : nat;
  st_outChan : nat;
  st_isFirst : bool;
  st_isLast : bool;
  st_stat : Z * Z
}.

(** The variables of the loop: [prevIsPipe], [prevOutputChan], the pipers
    made so far, [exe.stats] (each stat by its [StepId] and [TaskId]) and the
    goroutines started. *)
Record loop_state := {
  prevIsPipe : bool;
  prevOutputChan : nat;
  pipers : nat;
  stats : list (Z * Z);
  started : list stage
}.

(** The body of the loop (lines 74 to 98) for [index] and [instr], with [n]
    for [len(exe.instructions.GetInstructions())]. *)
Definition loop_body (n : nat) (ls : loop_state) (index : nat) (instr : Instruction)
    : loop_state :=
  let inputChan := prevOutputChan ls in
  let outputChan := pipers ls in
  let stat := (StepId instr, TaskId instr) in
  {| prevIsPipe := match GetScript instr with
                   | Some script => IsPipe script
                   | None => false
                   end;
     prevOutputChan := outputChan;
     pipers := S (pipers ls);
     stats := stats ls ++ [stat];
     started := started ls ++
       [{| st_index := index; st_instr := instr; st_prevIsPipe := prevIsPipe ls;
           st_inChan := inputChan; st_outChan := outputChan;
           st_isFirst := (index =? 0)%nat; st_isLast := (index =? n - 1)%nat;
           st_stat := stat |}] |}.

Fixpoint loop (n : nat) (index : nat) (instrs : list Instruction) (ls : loop_state)
    : loop_state :=
  match instrs with
  | [] => ls
  | instr :: instrs' => loop n (S index) instrs' (loop_body n ls index instr)
  end.

(** The channels and the loop of [ExecuteInstructionSet] (lines 67 to 99):
    the capacities of [exeErrChan] and [ioErrChan], and the state the loop
    ends in. *)
Definition exeErrChan_capacity (instrs : list Instruction) : nat := length instrs.
Definition ioErrChan_capacity (instrs : list Instruction) : nat := 2 * length instrs.

Definition ExecuteInstructionSet_loop (instrs : list Instruction) : loop_state :=
  loop (length instrs) 0 instrs
    {| prevIsPipe := false; prevOutputChan := 0; pipers := 1; stats := []; started := [] |}.

(** Whether the script of an instruction is a pipe; [false] without a
    script (lines 94 to 98). *)
Definition script_IsPipe (i : Instruction) : bool :=
  match GetScript i with
  | Some script => IsPipe script
  | None => false
  end.

(** Two stages, the second one a pipe. *)
Definition example_flow : list Instruction :=
  [example_instruction false; example_instruction true].
Definition example_location : DatasetShardLocation :=
  {| loc_Name := "shard-0"; loc_Address := "10.0.0.1:45326"; loc_OnDisk := false |}.

End Executor.

(* ===================================================================== *)
(** * Package filesort                                                     *)
(* ===================================================================== *)

Module Filesort.

Abbreviation byte := Byte.byte.

(** A Go [error] value. [Err] is an error a function returns; [Panic] marks a
    call that does not return: a run-time panic (an index out of range, a
    [make] with a length out of range) or the death of the program (out of
    memory), which the model carries along the same channel so that a
    statement can tell the two apart. [nil] is [None]. *)
Inductive error :=
  | Err (msg : string)
  | Panic (msg : string).

Definition io_EOF : error := Err "EOF".

Definition is_EOF (e : option error) : bool :=
  match e with Some (Err "EOF") => true | _ => false end.


(** ** Machine integers *)

(** [int(x)] and [-x] on the 64-bit [int]. *)
Definition to_int64 (z : Z) : Z := (z + 2 ^ 63) `mod` 2 ^ 64 - 2 ^ 63.
Definition neg_int (z : Z) : Z := to_int64 (- z).

(** [binary.BigEndian]: the [n] low bytes of [v], most significant first. *)
Definition byte_of_Z (z : Z) : byte :=
  default Byte.x00 (Byte.of_N (Z.to_N (z `mod` 256))).
Definition Z_of_byte (b : byte) : Z := Z.of_N (Byte.to_N b).

Fixpoint be_bytes (n : nat) (v : Z) : list byte :=
  match n with
  | O => []
  | S n' => be_bytes n' (v `div` 256) ++ [byte_of_Z v]
  end.

Definition be_value (b : list byte) : Z :=
  fold_left (λ acc x, acc * 256 + Z_of_byte x) b 0.

Definition PutUint64 (v : Z) : list byte := be_bytes 8 v.
Definition Uint64 (head : list byte) : Z := be_value (take 8 head).

(** ** Collaborators outside the file *)

(** Package [types] ([Datum], [CompareDatum], [NewIntDatum], [GetInt64]),
    [variable.StatementContext] and package [codec] ([EncodeKey], [Decode])
    belong to the repository but not to this file; the sorter is written
    against them. [EncodeKey b vs] appends to [b]; [Decode b size] takes the
    expected number of values. The Go runtime is the last collaborator:
    [alloc_limit] is the largest [n] for which [make([]byte, n)] gives a
    slice; beyond it [make] panics ("makeslice: len out of range") or the
    program dies ("out of memory"), and nothing is returned. *)
Class Collaborators := {
  Datum : Type;
  StatementContext : Type;
  CompareDatum : option StatementContext → Datum → Datum → Z * option error;
  NewIntDatum : Z → Datum;
  GetInt64 : Datum → Z;
  EncodeKey : list byte → list Datum → list byte * option error;
  Decode : list byte → Z → list Datum * option error;
  alloc_limit : Z
}.

(** ** [sort.Interface] and [heap.Interface] *)

Class sort_Interface (S : Type) := {
  Len : S → nat;
  Less : S → nat → nat → bool * S;
  Swap : S → nat → nat → S
}.

Class heap_Interface (H X : Type) := {
  heap_sort_Interface :: sort_Interface H;
  Push : H → X → H;
  Pop : H → option X * H
}.

(** *** [container/heap] *)

Section ContainerHeap.
Context {H X : Type} `{!heap_Interface H X}.

(** [up(h, j)]; the parent index strictly decreases, so [S j] rounds are
    enough. In Go [(j - 1) / 2] truncates towards zero and is [0] at
    [j = 0], as on [nat]. *)
Fixpoint up_loop (fuel : nat) (h : H) (j : nat) : H :=
  match fuel with
  | O => h
  | S fuel' =>
    let i := ((j - 1) / 2)%nat in
    if (i =? j)%nat then h
    else
      let '(lt, h) := Less h j i in
      if negb lt then h
      else up_loop fuel' (Swap h i j) i
  end.

Definition up (h : H) (j : nat) : H := up_loop (S j) h j.

(** [down(h, i0, n)]; the index strictly increases and stays below [n]. *)
Fixpoint down_loop (fuel : nat) (h : H) (i n : nat) : H * nat :=
  match fuel with
  | O => (h, i)
  | S fuel' =>
    let j1 := (2 * i + 1)%nat in
    if (n <=? j1)%nat then (h, i)
    else
      let j2 := (j1 + 1)%nat in
      let '(j, h) :=
        if (j2 <? n)%nat then
          let '(lt, h) := Less h j2 j1 in ((if lt then j2 else j1), h)
        else (j1, h) in
      let '(lt, h) := Less h j i in
      if negb lt then (h, i)
      else down_loop fuel' (Swap h i j) j n
  end.

Definition down (h : H) (i0 n : nat) : H * bool :=
  let '(h, i) := down_loop n h i0 n in (h, (i0 <? i)%nat).

(** [heap.Init]: [for i := n/2 - 1; i >= 0; i-- { down(h, i, n) }]. *)
Definition heap_Init (h : H) : H :=
  let n := Len h in
  foldl (λ h i, (down h i n).1) h (reverse (seq 0 (n / 2))).

Definition heap_Push (h : H) (x : X) : H :=
  let h := Push h x in
  up h (Len h - 1).

Definition heap_Pop (h : H) : option X * H :=
  let n := (Len h - 1)%nat in
  let h := Swap h 0 n in
  let h := (down h 0 n).1 in
  Pop h.
End ContainerHeap.

(** *** [sort.Sort] *)

(** [sort.Sort(data)] reads [data.Len()] once and from then on touches [data]
    only through [Less] and [Swap]; which calls it makes depends on the
    answers of [Less]. That is a decision tree over the two methods. The tree
    itself belongs to the Go library. *)
Inductive sort_prog :=
  | SortDone
  | SortLess (i j : nat) (k : bool → sort_prog)
  | SortSwap (i j : nat) (k : sort_prog).

Fixpoint run_sort {S : Type} `{!sort_Interface S} (p : sort_prog) (data : S) : S :=
  match p with
  | SortDone => data
  | SortLess i j k => let '(lt, data) := Less data i j in run_sort (k lt) data
  | SortSwap i j k => run_sort k (Swap data i j)
  end.

Class SortLibrary := sort_algorithm : nat → sort_prog.

Definition sort_Sort `{!SortLibrary} {S : Type} `{!sort_Interface S} (data : S) : S :=
  run_sort (sort_algorithm (Len data)) data.

(** The insertion sort that [sort.Sort] runs on a short slice:
    [for i := a + 1; i < b; i++ { for j := i; j > a && data.Less(j, j-1); j-- { data.Swap(j, j-1) } }]. *)
Fixpoint insertion_inner (j : nat) (k : sort_prog) : sort_prog :=
  match j with
  | O => k
  | S j' => SortLess j j' (λ lt, if lt then SortSwap j j' (insertion_inner j' k) else k)
  end.

Fixpoint insertion_outer (todo : nat) (i : nat) : sort_prog :=
  match todo with
  | O => SortDone
  | S todo' => insertion_inner i (insertion_outer todo' (S i))
  end.

Definition insertionSort : SortLibrary := λ n, insertion_outer (n - 1) 1.

(** *** What [sort.Sort] promises *)

(** Every index a program passes to [Less] and [Swap] is below [n]. *)
Fixpoint prog_in_range (n : nat) (p : sort_prog) : Prop :=
  match p with
  | SortDone => True
  | SortLess i j k => (i < n)%nat ∧ (j < n)%nat ∧ ∀ lt, prog_in_range n (k lt)
  | SortSwap i j k => (i < n)%nat ∧ (j < n)%nat ∧ prog_in_range n k
  end.

(** A slice with a [Less] that cannot fail, as a [sort.Interface]. *)
Definition list_Less {A} (lt : A → A → bool) (l : list A) (i j : nat) : bool * list A :=
  match l !! i, l !! j with
  | Some a, Some b => (lt a b, l)
  | _, _ => (false, l)
  end.

Definition list_Swap {A} (l : list A) (i j : nat) : list A :=
  match l !! i, l !! j with
  | Some a, Some b => <[i := b]> (<[j := a]> l)
  | _, _ => l
  end.

Definition list_sort {A} (lt : A → A → bool) : sort_Interface (list A) :=
  {| Len := length; Less := list_Less lt; Swap := list_Swap |}.

(** A slice as a [heap.Interface]: [Push] appends, [Pop] takes the last
    element off. *)
Definition list_Pop {A} (l : list A) : option A * list A :=
  match l !! (length l - 1)%nat with
  | Some x => (Some x, take (length l - 1) l)
  | None => (None, l)
  end.

Definition list_heap {A} (lt : A → A → bool) : heap_Interface (list A) A :=
  {| heap_sort_Interface := list_sort lt; Push := λ l x, l ++ [x]; Pop := list_Pop |}.

(** The heap condition on the first [n] elements: no element is less than its
    parent. *)
Definition heap_upto {A} (lt : A → A → bool) (n : nat) (l : list A) : Prop :=
  ∀ c x y, (0 < c < n)%nat → l !! c = Some y → l !! ((c - 1) / 2)%nat = Some x → lt y x = false.

Definition heap_ok {A} (lt : A → A → bool) (l : list A) : Prop := heap_upto lt (length l) l.

(** The heap condition with a hole at [j] on its way up: every pair is in
    order except [j] and its parent, and the children of [j] are in order
    with the parent of [j]. *)
Definition up_inv {A} (lt : A → A → bool) (l : list A) (j : nat) : Prop :=
  (∀ c x y, (0 < c)%nat → c ≠ j → l !! c = Some y → l !! ((c - 1) / 2)%nat = Some x →
     lt y x = false)
  ∧ (∀ c x y, (0 < j)%nat → (0 < c)%nat → ((c - 1) / 2)%nat = j → l !! c = Some y →
       l !! ((j - 1) / 2)%nat = Some x → lt y x = false).

(** The heap condition on the first [n] elements with a hole at [i] on its
    way down. *)
Definition down_inv {A} (lt : A → A → bool) (l : list A) (i n : nat) : Prop :=
  (∀ c x y, (0 < c < n)%nat → ((c - 1) / 2)%nat ≠ i → l !! c = Some y →
     l !! ((c - 1) / 2)%nat = Some x → lt y x = false)
  ∧ (∀ c x y, (0 < i)%nat → (0 < c < n)%nat → ((c - 1) / 2)%nat = i → l !! c = Some y →
       l !! ((i - 1) / 2)%nat = Some x → lt y x = false).

(** [lt] is a strict weak order: "not greater" is total and transitive. *)
Definition strict_weak {A} (lt : A → A → bool) : Prop :=
  (∀ a b, lt a b = true → lt b a = false)
  ∧ (∀ a b c, lt b a = false → lt c b = false → lt c a = false).

(** The contract of [sort.Sort]: it stays within the slice, and with a [Less]
    that is a strict weak order it leaves the slice in ascending order (no
    element is less than the one before it). *)
Class SortLibraryOk `{!SortLibrary} : Prop := {
  sort_in_range : ∀ n, prog_in_range n (sort_algorithm n);
  sort_sorts : ∀ (A : Type) (lt : A → A → bool) (l : list A),
    strict_weak lt →
    Sorted (λ a b, lt b a = false)
      (@run_sort (list A) (list_sort lt) (sort_algorithm (length l)) l)
}.

(** ** The file system *)

(** A path names a directory or a regular file with its bytes. Paths are the
    strings the program passes to package [os]. *)
Inductive node :=
  | Dir
  | Reg (content : list byte).

Abbreviation FileSystem := (gmap string node).

(** An open [*os.File] for reading: the bytes not read yet, and whether it
    has been closed. A run file is written once, before it is opened, so the
    unread bytes are fixed when it is opened. *)
Record File := {
  f_data : list byte;
  f_dir : bool;
  f_closed : bool
}.

Definition slash : Ascii.ascii := Ascii.Ascii true true true true false true false false.

(** The directory part of a path: everything before its last slash. *)
Fixpoint split_path (p : string) : option (string * string) :=
  match p with
  | EmptyString => None
  | String c p' =>
    match split_path p' with
    | Some (d, b) => Some (String c d, b)
    | None => if Ascii.eqb c slash then Some (EmptyString, p') else None
    end
  end.

Definition path_Dir (p : string) : string :=
  match split_path p with
  | Some (d, _) => d
  | None => "."
  end.

(** [path.Join(dir, elem)]. Go also normalises the result ([path.Clean]); for
    a directory name that is already clean and is not the root, this is all
    there is to it. *)
Definition path_Join (dir elem : string) : string :=
  if decide (dir = "") then elem else dir +:+ "/" +:+ elem.

Definition strconv_Itoa (n : nat) : string := pretty n.

Definition is_under (dir p : string) : bool := String.prefix (dir +:+ "/") p.

(** [os.Stat]: [nil] when something exists at the path. *)
Definition os_Stat (name : string) (w : FileSystem) : option error :=
  if decide (name = "") then Some (Err "stat : no such file or directory")
  else match w !! name with
       | Some _ => None
       | None => Some (Err "no such file or directory")
       end.

Definition os_IsNotExist (e : error) : bool :=
  match e with
  | Err "no such file or directory" => true
  | Err "stat : no such file or directory" => true
  | _ => false
  end.

(** [os.OpenFile(name, O_WRONLY|O_CREATE|O_TRUNC, 0600)]. *)
Definition os_OpenFile (name : string) (w : FileSystem) : FileSystem * option error :=
  match w !! name with
  | Some Dir => (w, Some (Err "is a directory"))
  | _ =>
    match w !! path_Dir name with
    | Some Dir => (<[name := Reg []]> w, None)
    | _ => (w, Some (Err "no such file or directory"))
    end
  end.

(** [outputFile.Write(b)] on the file opened by [os_OpenFile]. *)
Definition file_Write (name : string) (b : list byte) (w : FileSystem) : FileSystem * option error :=
  match w !! name with
  | Some (Reg old) => (<[name := Reg (old ++ b)]> w, None)
  | _ => (w, Some (Err "bad file descriptor"))
  end.

(** [os.Open(name)]. *)
Definition os_Open (name : string) (w : FileSystem) : option File * option error :=
  match w !! name with
  | Some (Reg c) => (Some {| f_data := c; f_dir := false; f_closed := false |}, None)
  | Some Dir => (Some {| f_data := []; f_dir := true; f_closed := false |}, None)
  | None => (None, Some (Err "no such file or directory"))
  end.

Definition all_open (l : list File) : Prop := Forall (λ fd, f_closed fd = false) l.

(** [fd.Read(b)] with [len(b) = n]: the bytes read, the error, the file
    afterwards. *)
Definition file_Read (fd : File) (n : nat) : list byte * option error * File :=
  if f_closed fd then ([], Some (Err "file already closed"), fd)
  else if f_dir fd then ([], Some (Err "is a directory"), fd)
  else if (n =? 0)%nat then ([], None, fd)
  else match f_data fd with
       | [] => ([], Some io_EOF, fd)
       | _ => (take n (f_data fd), None,
               {| f_data := drop n (f_data fd); f_dir := false; f_closed := false |})
       end.

Definition file_Close (fd : File) : File * option error :=
  if f_closed fd then (fd, Some (Err "file already closed"))
  else ({| f_data := f_data fd; f_dir := f_dir fd; f_closed := true |}, None).

(** [endsWithDot] of package [os]: the path is ["."] or ends in ["/."]. *)
Definition dot : Ascii.ascii := Ascii.Ascii false true true true false true false false.

Fixpoint ends_slash_dot (p : string) : bool :=
  match p with
  | EmptyString => false
  | String a p' =>
    match p' with
    | String b EmptyString => Ascii.eqb a slash && Ascii.eqb b dot
    | _ => ends_slash_dot p'
    end
  end.

Definition endsWithDot (path : string) : bool :=
  bool_decide (path = ".") || ends_slash_dot path.

(** [os.RemoveAll(path)]. It returns [nil] on the empty path and touches
    nothing; it refuses, with [EINVAL], a path that ends in a dot, which
    [rmdir] does not take; otherwise it removes the path and everything
    below it, and returns [nil] also when nothing is there. This file
    system has no permissions and no mount points, so the refusals that
    come from them ([EACCES], [EBUSY]) do not occur in it; what is proved
    of [Close] below is stated for whatever [os.RemoveAll] returns. *)
Definition os_RemoveAll (path : string) (w : FileSystem) : FileSystem * option error :=
  if decide (path = "") then (w, None)
  else if endsWithDot path then (w, Some (Err "invalid argument"))
  else (filter (λ kv, kv.1 ≠ path ∧ is_under path kv.1 = false) w, None).

(** ** The sorter *)

Section Sorter.
Context `{!Collaborators} `{!SortLibrary}.

Record comparableRow := {
  key : list Datum;
  val : list Datum;
  handle : Z
}.

Record item := {
  index : nat;
  value : comparableRow
}.

Record rowHeap := {
  rh_sc : option StatementContext;
  ims : list item;
  rh_byDesc : list bool;
  rh_err : option error
}.

Record FileSorter := {
  keySize : Z;
  valSize : Z;
  bufSize : Z;
  tmpDir : string;
  sc : option StatementContext;
  buf : list comparableRow;
  files : list string;
  byDesc : list bool;
  cursor : nat;
  closed : bool;
  fetched : bool;
  fs_rowHeap : rowHeap;
  fds : list File;
  fileCount : nat;
  err : option error
}.

Record Builder := {
  b_sc : option StatementContext;
  b_keySize : Z;
  b_valSize : Z;
  b_bufSize : Z;
  b_byDesc : list bool;
  b_tmpDir : string
}.

(** Assignments to one field. *)
Definition set_ims (v : list item) (rh : rowHeap) : rowHeap :=
  {| rh_sc := rh_sc rh; ims := v; rh_byDesc := rh_byDesc rh; rh_err := rh_err rh |}.
Definition set_rh_err (v : option error) (rh : rowHeap) : rowHeap :=
  {| rh_sc := rh_sc rh; ims := ims rh; rh_byDesc := rh_byDesc rh; rh_err := v |}.

Definition set_buf (v : list comparableRow) (fs : FileSorter) : FileSorter :=
  {| keySize := keySize fs; valSize := valSize fs; bufSize := bufSize fs;
     tmpDir := tmpDir fs; sc := sc fs; buf := v; files := files fs;
     byDesc := byDesc fs; cursor := cursor fs; closed := closed fs;
     fetched := fetched fs; fs_rowHeap := fs_rowHeap fs; fds := fds fs;
     fileCount := fileCount fs; err := err fs |}.
Definition set_files (v : list string) (fs : FileSorter) : FileSorter :=
  {| keySize := keySize fs; valSize := valSize fs; bufSize := bufSize fs;
     tmpDir := tmpDir fs; sc := sc fs; buf := buf fs; files := v;
     byDesc := byDesc fs; cursor := cursor fs; closed := closed fs;
     fetched := fetched fs; fs_rowHeap := fs_rowHeap fs; fds := fds fs;
     fileCount := fileCount fs; err := err fs |}.
Definition set_cursor (v : nat) (fs : FileSorter) : FileSorter :=
  {| keySize := keySize fs; valSize := valSize fs; bufSize := bufSize fs;
     tmpDir := tmpDir fs; sc := sc fs; buf := buf fs; files := files fs;
     byDesc := byDesc fs; cursor := v; closed := closed fs;
     fetched := fetched fs; fs_rowHeap := fs_rowHeap fs; fds := fds fs;
     fileCount := fileCount fs; err := err fs |}.
Definition set_closed (v : bool) (fs : FileSorter) : FileSorter :=
  {| keySize := keySize fs; valSize := valSize fs; bufSize := bufSize fs;
     tmpDir := tmpDir fs; sc := sc fs; buf := buf fs; files := files fs;
     byDesc := byDesc fs; cursor := cursor fs; closed := v;
     fetched := fetched fs; fs_rowHeap := fs_rowHeap fs; fds := fds fs;
     fileCount := fileCount fs; err := err fs |}.
Definition set_fetched (v : bool) (fs : FileSorter) : FileSorter :=
  {| keySize := keySize fs; valSize := valSize fs; bufSize := bufSize fs;
     tmpDir := tmpDir fs; sc := sc fs; buf := buf fs; files := files fs;
     byDesc := byDesc fs; cursor := cursor fs; closed := closed fs;
     fetched := v; fs_rowHeap := fs_rowHeap fs; fds := fds fs;
     fileCount := fileCount fs; err := err fs |}.
Definition set_rowHeap (v : rowHeap) (fs : FileSorter) : FileSorter :=
  {| keySize := keySize fs; valSize := valSize fs; bufSize := bufSize fs;
     tmpDir := tmpDir fs; sc := sc fs; buf := buf fs; files := files fs;
     byDesc := byDesc fs; cursor := cursor fs; closed := closed fs;
     fetched := fetched fs; fs_rowHeap := v; fds := fds fs;
     fileCount := fileCount fs; err := err fs |}.
Definition set_fds (v : list File) (fs : FileSorter) : FileSorter :=
  {| keySize := keySize fs; valSize := valSize fs; bufSize := bufSize fs;
     tmpDir := tmpDir fs; sc := sc fs; buf := buf fs; files := files fs;
     byDesc := byDesc fs; cursor := cursor fs; closed := closed fs;
     fetched := fetched fs; fs_rowHeap := fs_rowHeap fs; fds := v;
     fileCount := fileCount fs; err := err fs |}.
Definition set_fileCount (v : nat) (fs : FileSorter) : FileSorter :=
  {| keySize := keySize fs; valSize := valSize fs; bufSize := bufSize fs;
     tmpDir := tmpDir fs; sc := sc fs; buf := buf fs; files := files fs;
     byDesc := byDesc fs; cursor := cursor fs; closed := closed fs;
     fetched := fetched fs; fs_rowHeap := fs_rowHeap fs; fds := fds fs;
     fileCount := v; err := err fs |}.
Definition set_err (v : option error) (fs : FileSorter) : FileSorter :=
  {| keySize := keySize fs; valSize := valSize fs; bufSize := bufSize fs;
     tmpDir := tmpDir fs; sc := sc fs; buf := buf fs; files := files fs;
     byDesc := byDesc fs; cursor := cursor fs; closed := closed fs;
     fetched := fetched fs; fs_rowHeap := fs_rowHeap fs; fds := fds fs;
     fileCount := fileCount fs; err := v |}.

(** [lessThan]: the loop over [k := range byDesc] reads [i[k]] and [j[k]];
    walking the three slices together reads the same elements, and running
    out of [i] or [j] first is the index panic. *)
Fixpoint lessThan (sc : option StatementContext) (i j : list Datum) (byDesc : list bool)
    {struct byDesc} : bool * option error :=
  match byDesc with
  | [] => (false, None)
  | desc :: byDesc' =>
    match i, j with
    | v1 :: i', v2 :: j' =>
      let '(ret, err) := CompareDatum sc v1 v2 in
      match err with
      | Some e => (false, Some e)
      | None =>
        let ret := if desc then neg_int ret else ret in
        if ret <? 0 then (true, None)
        else if 0 <? ret then (false, None)
        else lessThan sc i' j' byDesc'
      end
    | _, _ => (false, Some (Panic "index out of range"))
    end
  end.

(** *** [rowHeap] as a [heap.Interface] *)

Definition rh_Len (rh : rowHeap) : nat := length (ims rh).

Definition rh_Swap (rh : rowHeap) (i j : nat) : rowHeap :=
  match ims rh !! i, ims rh !! j with
  | Some a, Some b => set_ims (<[i := b]> (<[j := a]> (ims rh))) rh
  | _, _ => rh
  end.

Definition rh_Less (rh : rowHeap) (i j : nat) : bool * rowHeap :=
  match ims rh !! i, ims rh !! j with
  | Some a, Some b =>
    let l := key (value a) in
    let r := key (value b) in
    let '(ret, err) := lessThan (rh_sc rh) l r (rh_byDesc rh) in
    (ret, match rh_err rh with None => set_rh_err err rh | Some _ => rh end)
  | _, _ => (false, set_rh_err (Some (Panic "index out of range")) rh)
  end.

Definition rh_Push (rh : rowHeap) (x : item) : rowHeap :=
  set_ims (ims rh ++ [x]) rh.

Definition rh_Pop (rh : rowHeap) : option item * rowHeap :=
  let old := ims rh in
  let n := length old in
  match old !! (n - 1)%nat with
  | Some x => (Some x, set_ims (take (n - 1) old) rh)
  | None => (None, rh)
  end.

#[export] Instance rowHeap_sort : sort_Interface rowHeap :=
  {| Len := rh_Len; Less := rh_Less; Swap := rh_Swap |}.
#[export] Instance rowHeap_heap : heap_Interface rowHeap item :=
  {| heap_sort_Interface := rowHeap_sort; Push := rh_Push; Pop := rh_Pop |}.

(** *** [FileSorter] as a [sort.Interface] *)

Definition fs_Len (fs : FileSorter) : nat := length (buf fs).

Definition fs_Swap (fs : FileSorter) (i j : nat) : FileSorter :=
  match buf fs !! i, buf fs !! j with
  | Some a, Some b => set_buf (<[i := b]> (<[j := a]> (buf fs))) fs
  | _, _ => fs
  end.

Definition fs_Less (fs : FileSorter) (i j : nat) : bool * FileSorter :=
  match buf fs !! i, buf fs !! j with
  | Some a, Some b =>
    let l := key a in
    let r := key b in
    let '(ret, e) := lessThan (sc fs) l r (byDesc fs) in
    (ret, match err fs with None => set_err e fs | Some _ => fs end)
  | _, _ => (false, set_err (Some (Panic "index out of range")) fs)
  end.

#[export] Instance FileSorter_sort : sort_Interface FileSorter :=
  {| Len := fs_Len; Less := fs_Less; Swap := fs_Swap |}.

(** *** The builder *)

Definition new_Builder : Builder :=
  {| b_sc := None; b_keySize := 0; b_valSize := 0; b_bufSize := 0;
     b_byDesc := []; b_tmpDir := "" |}.

Definition SetSC (sc : option StatementContext) (b : Builder) : Builder :=
  {| b_sc := sc; b_keySize := b_keySize b; b_valSize := b_valSize b;
     b_bufSize := b_bufSize b; b_byDesc := b_byDesc b; b_tmpDir := b_tmpDir b |}.
Definition SetSchema (keySize valSize : Z) (b : Builder) : Builder :=
  {| b_sc := b_sc b; b_keySize := keySize; b_valSize := valSize;
     b_bufSize := b_bufSize b; b_byDesc := b_byDesc b; b_tmpDir := b_tmpDir b |}.
Definition SetBuf (bufSize : Z) (b : Builder) : Builder :=
  {| b_sc := b_sc b; b_keySize := b_keySize b; b_valSize := b_valSize b;
     b_bufSize := bufSize; b_byDesc := b_byDesc b; b_tmpDir := b_tmpDir b |}.
Definition SetDesc (byDesc : list bool) (b : Builder) : Builder :=
  {| b_sc := b_sc b; b_keySize := b_keySize b; b_valSize := b_valSize b;
     b_bufSize := b_bufSize b; b_byDesc := byDesc; b_tmpDir := b_tmpDir b |}.
Definition SetDir (tmpDir : string) (b : Builder) : Builder :=
  {| b_sc := b_sc b; b_keySize := b_keySize b; b_valSize := b_valSize b;
     b_bufSize := b_bufSize b; b_byDesc := b_byDesc b; b_tmpDir := tmpDir |}.

Definition Build (b : Builder) (w : FileSystem) : option FileSorter * option error :=
  match b_sc b with
  | None => (None, Some (Err "StatementContext is nil"))
  | Some _ =>
    if negb (b_keySize b =? Z.of_nat (length (b_byDesc b))) then
      (None, Some (Err "mismatch in key size and byDesc slice"))
    else if b_keySize b <=? 0 then (None, Some (Err "key size is not positive"))
    else if b_valSize b <=? 0 then (None, Some (Err "value size is not positive"))
    else if b_bufSize b <=? 0 then (None, Some (Err "buffer size is not positive"))
    else
      match os_Stat (b_tmpDir b) w with
      | Some e =>
        if os_IsNotExist e then (None, Some (Err "tmpDir does not exist"))
        else (None, Some e)
      | None =>
        let rh := {| rh_sc := b_sc b; ims := []; rh_byDesc := b_byDesc b; rh_err := None |} in
        (Some {| keySize := b_keySize b; valSize := b_valSize b; bufSize := b_bufSize b;
                 tmpDir := b_tmpDir b; sc := b_sc b; buf := []; files := [];
                 byDesc := b_byDesc b; cursor := 0; closed := false; fetched := false;
                 fs_rowHeap := rh; fds := []; fileCount := 0; err := None |}, None)
      end
  end.

(** *** Spilling a run *)

Definition getUniqueFileName (fs : FileSorter) : string * FileSorter :=
  let ret := path_Join (tmpDir fs) (strconv_Itoa (fileCount fs)) in
  (ret, set_fileCount (S (fileCount fs)) fs).

(** One round of the loop of [flushToFile]: the record of one row. *)
Definition encode_row (row : comparableRow) : list byte * option error :=
  let '(body, e) := EncodeKey [] (key row) in
  match e with
  | Some e => ([], Some e)
  | None =>
    let '(body, e) := EncodeKey body (val row) in
    match e with
    | Some e => ([], Some e)
    | None =>
      let '(body, e) := EncodeKey body [NewIntDatum (handle row)] in
      match e with
      | Some e => ([], Some e)
      | None =>
        let head := PutUint64 (Z.of_nat (length body)) in
        (head ++ body, None)
      end
    end
  end.

Fixpoint encode_rows (rows : list comparableRow) (outputByte : list byte)
    : list byte * option error :=
  match rows with
  | [] => (outputByte, None)
  | row :: rows' =>
    let '(rec, e) := encode_row row in
    match e with
    | Some e => (outputByte, Some e)
    | None => encode_rows rows' (outputByte ++ rec)
    end
  end.

Definition flushToFile (fs : FileSorter) (w : FileSystem)
    : option error * FileSorter * FileSystem :=
  let fs := sort_Sort fs in
  match err fs with
  | Some e => (Some e, fs, w)
  | None =>
    let '(fileName, fs) := getUniqueFileName fs in
    let '(w, e) := os_OpenFile fileName w in
    match e with
    | Some e => (Some e, fs, w)
    | None =>
      let '(outputByte, e) := encode_rows (buf fs) [] in
      match e with
      | Some e => (Some e, fs, w)
      | None =>
        let '(w, e) := file_Write fileName outputByte w in
        match e with
        | Some e => (Some e, fs, w)
        | None => (None, set_buf [] (set_files (files fs ++ [fileName]) fs), w)
        end
      end
    end
  end.

Definition Input (k v : list Datum) (h : Z) (fs : FileSorter) (w : FileSystem)
    : option error * FileSorter * FileSystem :=
  if closed fs then (Some (Err "FileSorter has been closed"), fs, w)
  else if fetched fs then (Some (Err "call input after output"), fs, w)
  else if negb (Z.of_nat (length k) =? keySize fs) then
    (Some (Err "mismatch in key size and key slice"), fs, w)
  else if negb (Z.of_nat (length v) =? valSize fs) then
    (Some (Err "mismatch in value size and val slice"), fs, w)
  else
    let '(e, fs, w) :=
      if bufSize fs <=? Z.of_nat (length (buf fs)) then flushToFile fs w
      else (None, fs, w) in
    match e with
    | Some e => (Some e, fs, w)
    | None =>
      let row := {| key := k; val := v; handle := h |} in
      (None, set_buf (buf fs ++ [row]) fs, w)
    end.

(** *** Reading a run back *)

(** [s[lo:hi]] on a slice whose capacity is its length. *)
Definition slice {A} (s : list A) (lo hi : Z) : option (list A) :=
  if (0 <=? lo) && (lo <=? hi) && (hi <=? Z.of_nat (length s))
  then Some (take (Z.to_nat (hi - lo)) (drop (Z.to_nat lo) s))
  else None.

(** [make([]byte, rowSize)] comes before the body is read: a declared
    length that is negative as an [int], or beyond what the runtime can
    allocate, ends the call there, with the one [Panic] for the panic of
    [make] and for an allocation that kills the program. *)
Definition fetchNextRow (fs : FileSorter) (index : nat)
    : option comparableRow * option error * FileSorter :=
  match fds fs !! index with
  | None => (None, Some (Panic "index out of range"), fs)
  | Some fd =>
    let '(head, e, fd) := file_Read fd 8 in
    let fs := set_fds (<[index := fd]> (fds fs)) fs in
    if is_EOF e then (None, None, fs)
    else match e with
    | Some e => (None, Some e, fs)
    | None =>
      if negb (length head =? 8)%nat then (None, Some (Err "incorrect header"), fs)
      else
        let rowSize := to_int64 (Uint64 head) in
        if (rowSize <? 0) || (alloc_limit <? rowSize) then
          (None, Some (Panic "makeslice: len out of range"), fs)
        else
          let '(rowBytes, e, fd) := file_Read fd (Z.to_nat rowSize) in
          let fs := set_fds (<[index := fd]> (fds fs)) fs in
          match e with
          | Some e => (None, Some e, fs)
          | None =>
            if negb (Z.of_nat (length rowBytes) =? rowSize) then
              (None, Some (Err "incorrect row"), fs)
            else
              let '(dcod, e) := Decode rowBytes (keySize fs + valSize fs + 1) in
              match e with
              | Some e => (None, Some e, fs)
              | None =>
                let n := Z.of_nat (length dcod) in
                match slice dcod 0 (keySize fs),
                      slice dcod (keySize fs) (keySize fs + valSize fs),
                      slice dcod (keySize fs + valSize fs) n with
                | Some k, Some v, Some (h :: _) =>
                  (Some {| key := k; val := v; handle := GetInt64 h |}, None, fs)
                | _, _, _ => (None, Some (Panic "slice bounds out of range"), fs)
                end
              end
          end
    end
  end.

Fixpoint openAllFiles_loop (names : list string) (fs : FileSorter) (w : FileSystem)
    : option error * FileSorter :=
  match names with
  | [] => (None, fs)
  | fname :: names' =>
    match os_Open fname w with
    | (Some fd, None) => openAllFiles_loop names' (set_fds (fds fs ++ [fd]) fs) w
    | (_, Some e) => (Some e, fs)
    | (None, None) => (Some (Panic "nil file"), fs)
    end
  end.

Definition openAllFiles (fs : FileSorter) (w : FileSystem) : option error * FileSorter :=
  openAllFiles_loop (files fs) fs w.

(** The loop of [closeAllFiles] over [fs.fds], from position [i]. *)
Fixpoint close_loop (todo : list File) (done : list File) : option error * list File :=
  match todo with
  | [] => (None, done)
  | fd :: todo' =>
    let '(fd, e) := file_Close fd in
    match e with
    | Some e => (Some e, done ++ fd :: todo')
    | None => close_loop todo' (done ++ [fd])
    end
  end.

Definition closeAllFiles (fs : FileSorter) (w : FileSystem)
    : option error * FileSorter * FileSystem :=
  let '(e, l) := close_loop (fds fs) [] in
  let fs := set_fds l fs in
  match e with
  | Some e => (Some e, fs, w)
  | None =>
    let '(w, e) := os_RemoveAll (tmpDir fs) w in
    match e with
    | Some e => (Some e, fs, w)
    | None => (None, fs, w)
    end
  end.

Definition Close (fs : FileSorter) (w : FileSystem)
    : option error * FileSorter * FileSystem :=
  if closed fs then (Some (Err "FileSorter has been closed"), fs, w)
  else
    let fs := set_buf [] fs in
    let '(e, fs, w) := closeAllFiles fs w in
    match e with
    | Some e => (Some e, fs, w)
    | None => (None, set_closed true fs, w)
    end.

(** *** Output *)

Definition internalSort (fs : FileSorter) : option comparableRow * option error * FileSorter :=
  let '(e, fs) :=
    if negb (fetched fs) then
      let fs := sort_Sort fs in
      match err fs with
      | Some e => (Some e, fs)
      | None => (None, set_fetched true fs)
      end
    else (None, fs) in
  match e with
  | Some e => (None, Some e, fs)
  | None =>
    match buf fs !! cursor fs with
    | Some r => (Some r, None, set_cursor (S (cursor fs)) fs)
    | None => (None, None, fs)
    end
  end.

(** The loop [for id := range fs.fds] that primes the heap. *)
Fixpoint prime_loop (ids : list nat) (fs : FileSorter) : option error * FileSorter :=
  match ids with
  | [] => (None, fs)
  | id :: ids' =>
    let '(row, e, fs) := fetchNextRow fs id in
    match e with
    | Some e => (Some e, fs)
    | None =>
      match row with
      | None => (Some (Err "file is empty"), fs)
      | Some row =>
        let im := {| index := id; value := row |} in
        let rh := heap_Push (fs_rowHeap fs) im in
        let fs := set_rowHeap rh fs in
        match rh_err rh with
        | Some e => (Some e, fs)
        | None => prime_loop ids' fs
        end
      end
    end
  end.

Definition externalSort_prime (fs : FileSorter) (w : FileSystem)
    : option error * FileSorter * FileSystem :=
  let '(e, fs, w) :=
    if (0 <? length (buf fs))%nat then flushToFile fs w else (None, fs, w) in
  match e with
  | Some e => (Some e, fs, w)
  | None =>
    let rh := heap_Init (fs_rowHeap fs) in
    let fs := set_rowHeap rh fs in
    match rh_err rh with
    | Some e => (Some e, fs, w)
    | None =>
      let '(e, fs) := openAllFiles fs w in
      match e with
      | Some e => (Some e, fs, w)
      | None =>
        let '(e, fs) := prime_loop (seq 0 (length (fds fs))) fs in
        match e with
        | Some e => (Some e, fs, w)
        | None => (None, set_fetched true fs, w)
        end
      end
    end
  end.

Definition externalSort (fs : FileSorter) (w : FileSystem)
    : option comparableRow * option error * FileSorter * FileSystem :=
  let '(e, fs, w) :=
    if negb (fetched fs) then externalSort_prime fs w else (None, fs, w) in
  match e with
  | Some e => (None, Some e, fs, w)
  | None =>
    if (0 <? Len (fs_rowHeap fs))%nat then
      let '(im, rh) := heap_Pop (fs_rowHeap fs) in
      let fs := set_rowHeap rh fs in
      match rh_err rh with
      | Some e => (None, Some e, fs, w)
      | None =>
        match im with
        | None => (None, Some (Panic "index out of range"), fs, w)
        | Some im =>
          let '(row, e, fs) := fetchNextRow fs (index im) in
          match e with
          | Some e => (None, Some e, fs, w)
          | None =>
            match row with
            | Some row =>
              let im' := {| index := index im; value := row |} in
              let rh := heap_Push (fs_rowHeap fs) im' in
              let fs := set_rowHeap rh fs in
              match rh_err rh with
              | Some e => (None, Some e, fs, w)
              | None => (Some (value im), None, fs, w)
              end
            | None => (Some (value im), None, fs, w)
            end
          end
        end
      end
    else (None, None, fs, w)
  end.

(** [Output] returns [(key, val, handle, err)]; a [nil] slice is [[]]. *)
Definition Output (fs : FileSorter) (w : FileSystem)
    : (list Datum * list Datum * Z * option error) * FileSorter * FileSystem :=
  if closed fs then (([], [], 0, Some (Err "FileSorter has been closed")), fs, w)
  else if (length (files fs) =? 0)%nat then
    let '(r, e, fs) := internalSort fs in
    match e, r with
    | Some e, _ => (([], [], 0, Some e), fs, w)
    | None, Some r => ((key r, val r, handle r, None), fs, w)
    | None, None => (([], [], 0, None), fs, w)
    end
  else
    let '(r, e, fs, w) := externalSort fs w in
    match e, r with
    | Some e, _ => (([], [], 0, Some e), fs, w)
    | None, Some r => ((key r, val r, handle r, None), fs, w)
    | None, None => (([], [], 0, None), fs, w)
    end.

(** *** Driving the sorter *)

(** A caller's sequence of [Input] calls: the error of each call, and the
    state after the last. *)
Fixpoint Input_all (rows : list comparableRow) (fs : FileSorter) (w : FileSystem)
    : list (option error) * FileSorter * FileSystem :=
  match rows with
  | [] => ([], fs, w)
  | r :: rows' =>
    let '(e, fs, w) := Input (key r) (val r) (handle r) fs w in
    let '(es, fs, w) := Input_all rows' fs w in
    (e :: es, fs, w)
  end.

(** [n] calls of [Output] in a row: what each returned. *)
Fixpoint Output_n (n : nat) (fs : FileSorter) (w : FileSystem)
    : list (list Datum * list Datum * Z * option error) * FileSorter * FileSystem :=
  match n with
  | O => ([], fs, w)
  | S n' =>
    let '(r, fs, w) := Output fs w in
    let '(rs, fs, w) := Output_n n' fs w in
    (r :: rs, fs, w)
  end.

Definition row_result (r : comparableRow) : list Datum * list Datum * Z * option error :=
  (key r, val r, handle r, None).

(** The clean end-of-data answer of [Output]. *)
Definition end_of_data : list Datum * list Datum * Z * option error := ([], [], 0, None).

(** *** Vocabulary of the properties *)

(** One call of the public interface, and a caller's sequence of calls. *)
Inductive call :=
  | CallInput (k v : list Datum) (h : Z)
  | CallOutput
  | CallClose.

Definition run_call (c : call) (st : FileSorter * FileSystem) : FileSorter * FileSystem :=
  match c with
  | CallInput k v h => let '(_, fs, w) := Input k v h st.1 st.2 in (fs, w)
  | CallOutput => let '(_, fs, w) := Output st.1 st.2 in (fs, w)
  | CallClose => let '(_, fs, w) := Close st.1 st.2 in (fs, w)
  end.

Definition run_calls (cs : list call) (st : FileSorter * FileSystem) : FileSorter * FileSystem :=
  foldl (λ st c, run_call c st) st cs.




(** The conditions [Build] checks. *)
Definition path_exists (w : FileSystem) (p : string) : Prop := p ≠ "" ∧ is_Some (w !! p).

Definition buildable (b : Builder) (w : FileSystem) : Prop :=
  b_sc b ≠ None
  ∧ 0 < b_keySize b ∧ b_keySize b = Z.of_nat (length (b_byDesc b))
  ∧ 0 < b_valSize b
  ∧ 0 < b_bufSize b
  ∧ path_exists w (b_tmpDir b).

(** The order between rows: [a] does not come after [b]. *)
Definition row_less (fs : FileSorter) (a b : comparableRow) : bool :=
  (lessThan (sc fs) (key a) (key b) (byDesc fs)).1.

Definition row_le (fs : FileSorter) (a b : comparableRow) : Prop :=
  row_less fs b a = false.

(** The body of the record of a row, as [flushToFile] builds it. *)
Definition encode_body (row : comparableRow) : list byte :=
  (EncodeKey (EncodeKey (EncodeKey [] (key row)).1 (val row)).1 [NewIntDatum (handle row)]).1.

(** A row [Input] accepts and the run-file format can hold. *)
Definition row_fits (fs : FileSorter) (r : comparableRow) : Prop :=
  Z.of_nat (length (key r)) = keySize fs
  ∧ Z.of_nat (length (val r)) = valSize fs
  ∧ - 2 ^ 63 ≤ handle r < 2 ^ 63
  ∧ Z.of_nat (length (encode_body r)) < 2 ^ 63.

(** The working directory is a directory, and no directory sits where a run
    file will go. *)
Definition workdir_ready (w : FileSystem) (dir : string) : Prop :=
  w !! dir = Some Dir
  ∧ ∀ n, w !! path_Join dir (strconv_Itoa n) ≠ Some Dir.

(** A row that fits and that can be read back: the runtime can allocate
    the slice for its record. *)
Definition row_readable (fs : FileSorter) (r : comparableRow) : Prop :=
  row_fits fs r ∧ Z.of_nat (length (encode_body r)) ≤ alloc_limit.

(** The key of a row has one value per flag; [row_lt] is [row_less] on such
    rows, and puts any other row after them. *)
Definition key_fits (fs : FileSorter) (r : comparableRow) : bool :=
  (length (key r) =? length (byDesc fs))%nat.

Definition row_lt (fs : FileSorter) (a b : comparableRow) : bool :=
  match key_fits fs a, key_fits fs b with
  | true, true => row_less fs a b
  | true, false => true
  | false, _ => false
  end.

Definition item_lt (fs : FileSorter) (a b : item) : bool := row_lt fs (value a) (value b).

(** [a] may stand before [b]: [b] is not less than [a]. *)
Definition not_after (fs : FileSorter) (a b : comparableRow) : Prop := row_lt fs b a = false.

(** The record of a row in a run file, and the bytes of a whole run. *)
Definition record_bytes (r : comparableRow) : list byte :=
  PutUint64 (Z.of_nat (length (encode_body r))) ++ encode_body r.

Definition run_bytes (rows : list comparableRow) : list byte :=
  concat (map record_bytes rows).

(** A file just opened on the given bytes. *)
Definition open_file (data : list byte) : File :=
  {| f_data := data; f_dir := false; f_closed := false |}.

(** The path of the run file numbered [n]. *)
Definition run_path (fs : FileSorter) (n : nat) : string :=
  path_Join (tmpDir fs) (strconv_Itoa n).

(** A sorter as [Build] returns it. *)
Definition fresh (fs : FileSorter) : Prop :=
  buf fs = [] ∧ files fs = [] ∧ cursor fs = 0%nat ∧ closed fs = false ∧ fetched fs = false
  ∧ fs_rowHeap fs = {| rh_sc := sc fs; ims := []; rh_byDesc := byDesc fs; rh_err := None |}
  ∧ fds fs = [] ∧ fileCount fs = 0%nat ∧ err fs = None
  ∧ 0 < bufSize fs ∧ keySize fs = Z.of_nat (length (byDesc fs)) ∧ tmpDir fs ≠ "".

(** The sorter and the disk in the input phase of a sorter that started as
    [fs0] on the disk [w0]: [runs] have been spilled, in this order, and [b]
    is in the buffer. *)
Definition after_inputs (fs0 : FileSorter) (w0 : FileSystem)
    (runs : list (list comparableRow)) (b : list comparableRow)
    (fs : FileSorter) (w : FileSystem) : Prop :=
  fs = set_fileCount (length runs)
         (set_files (map (run_path fs0) (seq 0 (length runs))) (set_buf b fs0))
  ∧ (∀ i rs, runs !! i = Some rs → w !! run_path fs0 i = Some (Reg (run_bytes rs)))
  ∧ (∀ p, (∀ i, (i < length runs)%nat → p ≠ run_path fs0 i) → w !! p = w0 !! p).

(** A spilled run: as many rows as the buffer holds, in order. *)
Definition full_run (fs0 : FileSorter) (rs : list comparableRow) : Prop :=
  Z.of_nat (length rs) = bufSize fs0 ∧ StronglySorted (not_after fs0) rs.

(** The heap of a sorter with the given items and no captured error. *)
Definition mk_heap (fs : FileSorter) (l : list item) : rowHeap :=
  {| rh_sc := sc fs; ims := l; rh_byDesc := byDesc fs; rh_err := None |}.

Definition item_fits (fs : FileSorter) (it : item) : Prop := key_fits fs (value it) = true.

(** The part of a sorter that [Build] sets and no method assigns: the
    schema, the buffer size, the working directory, the statement context
    and the directions. *)
Definition same_config (fs fs' : FileSorter) : Prop :=
  keySize fs' = keySize fs ∧ valSize fs' = valSize fs ∧ bufSize fs' = bufSize fs
  ∧ tmpDir fs' = tmpDir fs ∧ sc fs' = sc fs ∧ byDesc fs' = byDesc fs.

(** [n] calls of [getUniqueFileName] in a row. *)
Fixpoint getUniqueFileNames (n : nat) (fs : FileSorter) : list string * FileSorter :=
  match n with
  | O => ([], fs)
  | S n' =>
    let '(name, fs) := getUniqueFileName fs in
    let '(names, fs) := getUniqueFileNames n' fs in
    (name :: names, fs)
  end.

(** The sorter while it reads its runs back: [items] in the heap, and for
    each run file the rows [rest] that are still unread. *)
Definition reading (fs : FileSorter) (items : list item)
    (rest : list (list comparableRow)) : FileSorter :=
  set_fds (map (λ rs, open_file (run_bytes rs)) rest) (set_rowHeap (mk_heap fs items) fs).

(** The sorter once all input is in [m] run files and the first [Output]
    has primed the heap; the heap and the descriptors are set by [reading]. *)
Definition merge_state (fs0 : FileSorter) (m : nat) : FileSorter :=
  set_fetched true
    (set_fileCount m (set_files (map (run_path fs0) (seq 0 m)) (set_buf [] fs0))).

(** What holds between the heap and the runs once the first [k] runs have
    been primed: the heap is in order; it holds at most one row of each
    primed run, and that row may stand before all unread rows of its run; a
    primed run without a row in the heap has been read to its end; every run
    is in order. *)
Definition merge_inv (fs : FileSorter) (k : nat) (items : list item)
    (rest : list (list comparableRow)) : Prop :=
  heap_ok (item_lt fs) items
  ∧ Forall (item_fits fs) items
  ∧ Forall (Forall (row_readable fs)) rest
  ∧ NoDup (map index items)
  ∧ (∀ it, it ∈ items →
       (index it < k)%nat
       ∧ ∃ rs, rest !! index it = Some rs ∧ Forall (not_after fs (value it)) rs)
  ∧ (∀ i rs, (i < k)%nat → rest !! i = Some rs → i ∉ map index items → rs = [])
  ∧ Forall (StronglySorted (not_after fs)) rest.

(** What the sorter relies on from packages [types] and [codec]:
    comparison succeeds, returns an [int] other than the least one, and is a
    total preorder; encoding succeeds; a record decodes to what was encoded;
    an integer datum gives back its [int64]. *)
Class CollaboratorsOk : Prop := {
  compare_total : ∀ sc a b, (CompareDatum sc a b).2 = None;
  compare_range : ∀ sc a b, - 2 ^ 63 < (CompareDatum sc a b).1 < 2 ^ 63;
  compare_antisym : ∀ sc a b,
    Z.sgn (CompareDatum sc b a).1 = - Z.sgn (CompareDatum sc a b).1;
  compare_trans : ∀ sc a b c,
    (CompareDatum sc a b).1 ≤ 0 → (CompareDatum sc b c).1 ≤ 0 → (CompareDatum sc a c).1 ≤ 0;
  encode_total : ∀ b vs, (EncodeKey b vs).2 = None;
  codec_roundtrip : ∀ k v h,
    Decode (EncodeKey (EncodeKey (EncodeKey [] k).1 v).1 [NewIntDatum h]).1
           (Z.of_nat (length k) + Z.of_nat (length v) + 1)
    = (k ++ v ++ [NewIntDatum h], None);
  int_datum : ∀ h, - 2 ^ 63 ≤ h < 2 ^ 63 → GetInt64 (NewIntDatum h) = h
}.

End Sorter.

(** ** Two implementations of the collaborators *)

(** Integer columns: a datum is an integer, comparison is the order of the
    integers and never fails, and a value is written as a sign byte, as many
    [01] bytes as its magnitude, and a [00] byte. *)
Module IntColumns.

Definition compare_int (a b : Z) : Z :=
  match a ?= b with Lt => -1 | Eq => 0 | Gt => 1 end.

Definition enc (z : Z) : list byte :=
  (if z <? 0 then Byte.x01 else Byte.x00) :: repeat Byte.x01 (Z.abs_nat z) ++ [Byte.x00].

Definition mk (neg : bool) (n : nat) : Z :=
  if neg then - Z.of_nat n else Z.of_nat n.

Fixpoint dec (b : list byte) (cur : option (bool * nat)) : option (list Z) :=
  match b with
  | [] => match cur with None => Some [] | Some _ => None end
  | x :: b' =>
    match cur with
    | None =>
      match x with
      | Byte.x00 => dec b' (Some (false, O))
      | Byte.x01 => dec b' (Some (true, O))
      | _ => None
      end
    | Some (neg, n) =>
      match x with
      | Byte.x01 => dec b' (Some (neg, S n))
      | Byte.x00 => cons (mk neg n) <$> dec b' None
      | _ => None
      end
    end
  end.

#[export] Instance collaborators : Collaborators := {|
  Datum := Z;
  StatementContext := unit;
  CompareDatum := λ _ a b, (compare_int a b, None);
  NewIntDatum := λ h, h;
  GetInt64 := λ d, d;
  EncodeKey := λ b vs, (b ++ concat (map enc vs), None);
  Decode := λ b _, match dec b None with
                   | Some vs => (vs, None)
                   | None => ([], Some (Err "invalid encoded key"))
                   end;
  alloc_limit := 2 ^ 32
|}.

Definition row (k v h : Z) : comparableRow := {| key := [k]; val := [v]; handle := h |}.

Definition builder (bufSize : Z) : Builder :=
  SetDir "/tmp/sort" (SetDesc [false] (SetBuf bufSize (SetSchema 1 1 (SetSC (Some tt) new_Builder)))).

Definition disk : FileSystem := {[ "/tmp" := Dir; "/tmp/sort" := Dir ]}.

(** The sorter [Build] makes from [builder bufSize]. *)
Definition sorter (bufSize : Z) : FileSorter :=
  {| keySize := 1; valSize := 1; bufSize := bufSize; tmpDir := "/tmp/sort";
     sc := Some tt; buf := []; files := []; byDesc := [false]; cursor := 0;
     closed := false; fetched := false;
     fs_rowHeap := {| rh_sc := Some tt; ims := []; rh_byDesc := [false]; rh_err := None |};
     fds := []; fileCount := 0; err := None |}.

(** A sorter that holds one open run file with the given unread bytes. *)
Definition reading (data : list byte) : FileSorter :=
  set_fds [{| f_data := data; f_dir := false; f_closed := false |}] (sorter 2).


(** A sorter whose only run file is on disk and empty. *)
Definition with_empty_run : FileSorter := set_files ["/tmp/sort/0"] (sorter 2).
Definition disk_with_empty_run : FileSystem := <["/tmp/sort/0" := Reg []]> disk.





(** Four rows for a buffer of two, a full buffer, a sorter that has
    captured an error, a file system that has lost the working directory,
    a sorter that reads one run of two rows, three calls of [Input] and an
    item for the heap. *)
Definition four_rows : list comparableRow :=
  [row 5 50 500; row 3 30 300; row 1 10 100; row 4 40 400].
Definition full : FileSorter := set_buf [row 2 20 200; row 1 10 100] (sorter 2).
Definition failed : FileSorter := set_err (Some (Err "cannot compare")) full.
Definition disk_without_dir : FileSystem := {[ "/tmp" := Dir ]}.
Definition one_run : FileSorter :=
  set_fds [open_file (run_bytes [row 1 10 100; row 2 20 200])] (sorter 2).
Definition three_inputs : list call :=
  [CallInput [5] [50] 500; CallInput [3] [30] 300; CallInput [1] [10] 100].

End IntColumns.

(** Columns of mixed type: comparing a number with a text fails, as a
    comparison that needs a conversion does. *)
Module MixedColumns.

Inductive mixed :=
  | MInt (z : Z)
  | MText (s : string).

Definition compare_mixed (a b : mixed) : Z * option error :=
  match a, b with
  | MInt x, MInt y => (IntColumns.compare_int x y, None)
  | MText x, MText y =>
    (match String.compare x y with Lt => -1 | Eq => 0 | Gt => 1 end, None)
  | _, _ => (0, Some (Err "cannot compare a number with a text"))
  end.

#[export] Instance collaborators : Collaborators := {|
  Datum := mixed;
  StatementContext := unit;
  CompareDatum := λ _ a b, compare_mixed a b;
  NewIntDatum := λ h, MInt h;
  GetInt64 := λ d, match d with MInt z => z | MText _ => 0 end;
  EncodeKey := λ b vs, (b, Some (Err "unsupported"));
  Decode := λ b _, ([], Some (Err "unsupported"));
  alloc_limit := 2 ^ 32
|}.

Definition builder : Builder :=
  SetDir "/tmp/sort" (SetDesc [false] (SetBuf 10 (SetSchema 1 1 (SetSC (Some tt) new_Builder)))).


End MixedColumns.

End Filesort.

(* ===================================================================== *)
(** * Properties of the executor                                          *)
(* ===================================================================== *)

Module ExecutorProofs.
Import Executor.

Section Run.
Context `{Collaborators}.

Lemma prepare_script_args exe iset i script :
  Args (prepare_script exe iset i script)
  = Args script ++ (if IsPipe script then [] else contract_flags exe iset i).
Proof.
  unfold prepare_script, contract_flags.
  destruct (IsPipe script); simpl; [by rewrite app_nil_r|].
  destruct (IsProfiling iset); simpl; [by rewrite <- app_assoc | done].
Qed.

(** Unfolding of an external-process stage into its three possible
    attempts. *)
Ltac run_stage Hf Hs :=
  unfold executeInstruction; rewrite Hf, Hs; simpl;
  repeat match goal with
  | |- context [util_Execute ?w ?p ?a ?d ?s] =>
    let e := fresh "e" in let c := fresh "c" in
    destruct (util_Execute w p a d s) as [[? [c ?]] [e|]] eqn:?; simpl;
    [destruct (Z.eqb_spec c 0); simpl|]
  end.

(** C4. An external-process stage is started at least once and at most
    three times; attempt [k + 1] takes place exactly when it is still
    within the three and attempt [k] returned an error with the input
    counter at zero; every attempt but the first comes right after a
    one-second sleep; and the execution-error channel receives one message,
    naming the instruction, exactly when the last attempt returned an
    error. *)
Theorem start_retry_policy exe iset i script w stat :
  external_stage i script →
  let tr := rs_trace (executeInstruction exe iset i w stat) in
  let att := attempts tr in
  (1 ≤ length att ≤ 3)%nat
  ∧ (∀ k e c, att !! k = Some (e, c) →
       (is_Some (att !! S k) ↔ (S k < 3)%nat ∧ e ≠ None ∧ c = 0))
  ∧ (∀ q, is_Started <$> tr !! S q = Some true → tr !! q = Some (Slept 1))
  ∧ sent_errors tr =
      match last att with
      | Some (Some e, _) => ["Failed executing command " +:+ Name i +:+ ": " +:+ e]
      | _ => []
      end.
Proof.
  intros [Hf Hs]. cbv zeta.
  run_stage Hf Hs.
  all: (split; [simpl; lia|]).
  all: (split; [intros [|[|[|k]]] e' c' Hk; simpl in Hk; simplify_eq;
                (split; [intros [? Hx]; simpl in Hx; simplify_eq; (repeat split; (lia || done))
                        | intros (? & ? & ?); simpl; first [lia | done | by eexists]])|]).
  all: (split; [intros q; do 12 (try destruct q as [|q]; simpl; try done) | done]).
Qed.

(** C8, as the code has it. The arguments of every attempt are the user's
    arguments followed, for a script that is not a pipe, by the flags of
    the contract ([-gleam.profiling] last, when profiling is on); a pipe
    script is started with the user's arguments alone. *)
Theorem argument_contract exe iset i script w stat :
  external_stage i script →
  let args := started_args (rs_trace (executeInstruction exe iset i w stat)) in
  args ≠ []
  ∧ Forall (λ a, a = Args script ++
              (if IsPipe script then [] else contract_flags exe iset i)) args.
Proof.
  intros [Hf Hs]. cbv zeta.
  pose proof (prepare_script_args exe iset i script) as Ha.
  run_stage Hf Hs.
  all: rewrite Ha; split; [done | repeat constructor].
Qed.

End Run.

(** ** The wiring of the stages and the other branches *)

Lemma loop_spec n instrs : ∀ index ls,
  loop n index instrs ls =
    {| prevIsPipe := match last instrs with
                     | Some instr => match GetScript instr with
                                     | Some script => IsPipe script
                                     | None => false
                                     end
                     | None => prevIsPipe ls
                     end;
       prevOutputChan := match instrs with
                         | [] => prevOutputChan ls
                         | _ => (pipers ls + length instrs - 1)%nat
                         end;
       pipers := (pipers ls + length instrs)%nat;
       stats := stats ls ++ map (λ i, (StepId i, TaskId i)) instrs;
       started := started ls ++
         imap (λ k instr,
           {| st_index := (index + k)%nat; st_instr := instr;
              st_prevIsPipe :=
                match k with
                | O => prevIsPipe ls
                | S k' => match instrs !! k' with
                          | Some prev => match GetScript prev with
                                         | Some script => IsPipe script
                                         | None => false
                                         end
                          | None => false
                          end
                end;
              st_inChan := match k with
                           | O => prevOutputChan ls
                           | S k' => (pipers ls + k')%nat
                           end;
              st_outChan := (pipers ls + k)%nat;
              st_isFirst := (index + k =? 0)%nat;
              st_isLast := (index + k =? n - 1)%nat;
              st_stat := (StepId instr, TaskId instr) |}) instrs |}.
Proof.
  induction instrs as [|instr instrs IH]; intros index ls.
  - cbn. rewrite !app_nil_r, Nat.add_0_r. by destruct ls.
  - cbn [loop]. rewrite IH. unfold loop_body. cbn [prevIsPipe prevOutputChan pipers stats started].
    f_equal.
    + destruct instrs as [|i2 instrs]; [done|]. rewrite last_cons_cons.
      destruct (last (i2 :: instrs)) eqn:E; [done|]. by apply last_None in E.
    + destruct instrs; cbn [length]; lia.
    + cbn [length]. lia.
    + by rewrite <- app_assoc.
    + rewrite <- app_assoc. f_equal. cbn [imap app]. f_equal.
      * f_equal; rewrite ?Nat.add_0_r; done.
      * apply imap_ext. intros k x Hk. unfold compose. cbv beta.
        replace (S index + k)%nat with (index + S k)%nat by lia.
        f_equal; [by destruct k | destruct k; lia | lia].
Qed.

Lemma started_lookup instrs k st :
  started (ExecuteInstructionSet_loop instrs) !! k = Some st →
  ∃ instr, instrs !! k = Some instr
    ∧ st = {| st_index := k; st_instr := instr;
              st_prevIsPipe := match k with
                               | O => false
                               | S k' => match instrs !! k' with
                                         | Some prev => script_IsPipe prev
                                         | None => false
                                         end
                               end;
              st_inChan := k; st_outChan := S k;
              st_isFirst := (k =? 0)%nat; st_isLast := (k =? length instrs - 1)%nat;
              st_stat := (StepId instr, TaskId instr) |}.
Proof.
  unfold ExecuteInstructionSet_loop. rewrite loop_spec. cbn [started app prevIsPipe pipers
    prevOutputChan].
  rewrite list_lookup_imap. destruct (instrs !! k) as [instr|] eqn:Hk; [|done].
  cbn. intros [= <-]. exists instr. split; [done|]. f_equal. by destruct k.
Qed.

Lemma started_length instrs :
  length (started (ExecuteInstructionSet_loop instrs)) = length instrs.
Proof.
  unfold ExecuteInstructionSet_loop. rewrite loop_spec. cbn [started app].
  by rewrite length_imap.
Qed.

(** X16. The loop of [ExecuteInstructionSet] starts one stage for each
    instruction, in order, and records one stat for each with its step and
    task ids. Only the stage of index 0 is first and only the stage of the
    last index is last; the first stage is told that no pipe precedes it.
    Each later stage reads the piper its predecessor writes and is told
    whether the predecessor's script is a pipe. Every stage writes a piper
    of its own, and no stage but the next one reads it. *)
Theorem stages_are_chained instrs :
  let ls := ExecuteInstructionSet_loop instrs in
  map st_instr (started ls) = instrs
  ∧ stats ls = map (λ i, (StepId i, TaskId i)) instrs
  ∧ (∀ k st, started ls !! k = Some st →
       st_index st = k
       ∧ st_stat st = (StepId (st_instr st), TaskId (st_instr st))
       ∧ (st_isFirst st = true ↔ k = 0%nat)
       ∧ (st_isLast st = true ↔ S k = length instrs)
       ∧ (k = 0%nat → st_prevIsPipe st = false))
  ∧ (∀ k a b, started ls !! k = Some a → started ls !! S k = Some b →
       st_inChan b = st_outChan a
       ∧ st_prevIsPipe b = script_IsPipe (st_instr a))
  ∧ NoDup (map st_outChan (started ls))
  ∧ (∀ a b, a ∈ started ls → b ∈ started ls → st_inChan a ≠ st_outChan b ∨ st_index a = S (st_index b)).
Proof.
  cbv zeta. split; [|split; [|split; [|split; [|split]]]].
  - apply list_eq. intros k. rewrite list_lookup_fmap.
    destruct (started (ExecuteInstructionSet_loop instrs) !! k) as [st|] eqn:Hst.
    + apply started_lookup in Hst as (instr & Hk & ->). by rewrite Hk.
    + cbn. symmetry. apply lookup_ge_None. apply lookup_ge_None in Hst.
      by rewrite started_length in Hst.
  - unfold ExecuteInstructionSet_loop. by rewrite loop_spec.
  - intros k st Hst. apply started_lookup in Hst as (instr & Hk & ->).
    cbn [st_index st_stat st_instr st_isFirst st_isLast st_prevIsPipe].
    apply lookup_lt_Some in Hk.
    split; [done|]. split; [done|]. split; [apply Nat.eqb_eq|]. split.
    + rewrite Nat.eqb_eq. lia.
    + by intros ->.
  - intros k a b Ha Hb.
    apply started_lookup in Ha as (ia & Hka & ->).
    apply started_lookup in Hb as (ib & Hkb & ->).
    cbn [st_inChan st_outChan st_prevIsPipe st_instr]. by rewrite Hka.
  - apply NoDup_alt. intros i j x. rewrite !list_lookup_fmap.
    destruct (started _ !! i) as [a|] eqn:Ha; [|done].
    destruct (started _ !! j) as [b|] eqn:Hb; [|done].
    apply started_lookup in Ha as (ia & Hka & ->).
    apply started_lookup in Hb as (ib & Hkb & ->).
    cbn. intros [= <-] [= ?]. lia.
  - intros a b Ha Hb.
    apply list_elem_of_lookup in Ha as [i Ha]. apply list_elem_of_lookup in Hb as [j Hb].
    apply started_lookup in Ha as (ia & Hka & ->).
    apply started_lookup in Hb as (ib & Hkb & ->).
    cbn [st_inChan st_outChan st_index].
    destruct (decide (i = S j)); [by right | by left].
Qed.

(** X17. The two streams a script stage runs on, [readers[0]] and
    [writers[0]]. A stage that is not first reads the piper of its
    predecessor; the first stage reads its first input shard location and
    no other. A stage that is not last writes its own piper; the last stage
    writes its first output shard location and no other. Without a location
    where one is needed there is no stream: the index is out of range. *)
Theorem stage_streams instrs k st name ins outs readerCount :
  started (ExecuteInstructionSet_loop instrs) !! k = Some st →
  script_streams
    (setupReaders name ins (st_inChan st) (st_isFirst st))
    (setupWriters name outs (st_outChan st) (st_isLast st) readerCount)
  = match (if decide (k = 0%nat) then DialRead name <$> head ins
           else Some (PiperReader (st_inChan st))),
          (if decide (S k = length instrs)
           then (λ l, DialWrite name l readerCount) <$> head outs
           else Some (PiperWriter (st_outChan st)))
    with
    | Some r, Some w => Some (r, w)
    | _, _ => None
    end.
Proof.
  intros Hst. apply started_lookup in Hst as (instr & Hk & ->).
  apply lookup_lt_Some in Hk.
  cbn [st_inChan st_outChan st_isFirst st_isLast].
  unfold setupReaders, setupWriters, script_streams.
  destruct (decide (k = 0%nat)) as [->|Hk0].
  - change (0 =? 0)%nat with true. destruct (decide (1 = length instrs)%nat) as [H1|H1].
    + rewrite (proj2 (Nat.eqb_eq 0 (length instrs - 1))) by lia. cbn [negb].
      by destruct ins, outs.
    + rewrite (proj2 (Nat.eqb_neq 0 (length instrs - 1))) by lia. cbn [negb].
      by destruct ins.
  - rewrite (proj2 (Nat.eqb_neq k 0)) by done. cbn [negb].
    destruct (decide (S k = length instrs)) as [H1|H1].
    + rewrite (proj2 (Nat.eqb_eq k (length instrs - 1))) by lia. cbn [negb].
      by destruct outs.
    + rewrite (proj2 (Nat.eqb_neq k (length instrs - 1))) by lia. done.
Qed.

Section Stage.
Context `{Collaborators}.

Lemma at_most_one_error exe iset i w stat :
  (length (sent_errors (rs_trace (executeInstruction exe iset i w stat))) ≤ 1)%nat.
Proof.
  unfold executeInstruction.
  destruct (GetInstructionFunction i) as [f|] eqn:Hf.
  - destruct (f w stat) as [[w' stat'] [e|]]; cbn; lia.
  - destruct (GetScript i) as [script|] eqn:Hs; [|cbn; lia].
    cbn [start_loop].
    repeat match goal with
    | |- context [util_Execute ?w ?p ?a ?d ?s] =>
      let e := fresh "e" in let c := fresh "c" in
      destruct (util_Execute w p a d s) as [[? [c ?]] [e|]] eqn:?; cbn;
      [destruct (Z.eqb_spec c 0); cbn|]
    end; lia.
Qed.

(** X18. Whatever the stages of an instruction set do, together they send
    no more messages on the execution-error channel than the channel was
    made to hold: each stage sends at most one, and the capacity is the
    number of instructions. *)
Theorem exeErrChan_has_room exe iset instrs (runs : list run_state) :
  Forall2 (λ st r, ∃ w stat, r = executeInstruction exe iset (st_instr st) w stat)
    (started (ExecuteInstructionSet_loop instrs)) runs →
  (length (concat (map (λ r, sent_errors (rs_trace r)) runs))
   ≤ exeErrChan_capacity instrs)%nat.
Proof.
  intros Hruns. unfold exeErrChan_capacity. rewrite <- (started_length instrs).
  induction Hruns as [|st r sts runs (w & stat & ->) _ IH]; [done|].
  cbn [map concat length]. rewrite length_app.
  pose proof (at_most_one_error exe iset (st_instr st) w stat). lia.
Qed.

(** X20. Every attempt of an external-process stage runs in the
    executor's directory. A script that is not a pipe is started from that
    directory under the base name of its path; a pipe script is started
    under the path it came with. *)
Theorem started_in_option_dir exe iset i script w stat :
  external_stage i script →
  Forall (λ ev, match ev with
                | Started path _ dir _ _ =>
                  dir = Option_Dir exe
                  ∧ path = if IsPipe script then Path script
                           else filepath_Join (Option_Dir exe) (filepath_Base (Path script))
                | _ => True
                end)
    (rs_trace (executeInstruction exe iset i w stat)).
Proof.
  intros [Hf Hs].
  assert (Hp : Path (prepare_script exe iset i script) =
    if IsPipe script then Path script
    else filepath_Join (Option_Dir exe) (filepath_Base (Path script))).
  { unfold prepare_script. by destruct (IsPipe script). }
  unfold executeInstruction; rewrite Hf, Hs; simpl;
  repeat match goal with
  | |- context [util_Execute ?w ?p ?a ?d ?s] =>
    let e := fresh "e" in let c := fresh "c" in
    destruct (util_Execute w p a d s) as [[? [c ?]] [e|]] eqn:?; simpl;
    [destruct (Z.eqb_spec c 0); simpl|]
  end.
  all: rewrite Hp; repeat constructor.
Qed.

End Stage.

Lemma start_retry_policy_witness :
  attempts (rs_trace (executeInstruction example_executor example_set
     (example_instruction false) fails_twice example_stat))
  = [(Some "exit status 1", 0); (Some "exit status 1", 0); (None, 0)]
  ∧ sent_errors (rs_trace (executeInstruction example_executor example_set
     (example_instruction false) fails_twice example_stat)) = []
  ∧ sent_errors (rs_trace (executeInstruction example_executor example_set
     (example_instruction false) fails_after_reading example_stat))
  = ["Failed executing command count: exit status 1"]
  ∧ (1 ≤ length (attempts (rs_trace (executeInstruction example_executor example_set
     (example_instruction false) fails_after_reading example_stat))) ≤ 3)%nat.
Proof.
  split; [reflexivity|]. split; [reflexivity|]. split; [reflexivity|].
  apply (@start_retry_policy scripted example_executor example_set (example_instruction false)
           (example_script false)).
  split; reflexivity.
Defined.

Lemma argument_contract_witness :
  Forall (λ a, a = ["-l"; "-gleam.executor"; "127.0.0.1:4000"; "-flow.hashcode"; "77";
                    "-flow.stepId"; "2"; "-flow.taskId"; "0"])
    (started_args (rs_trace (executeInstruction example_executor example_set
       (example_instruction false) always_succeeds example_stat))).
Proof.
  apply (@argument_contract scripted example_executor example_set (example_instruction false)
           (example_script false) always_succeeds example_stat).
  split; reflexivity.
Defined.

(** C8 as stated fails on a pipe script: it is started with the user's
    arguments and none of the flags. *)
Lemma argument_contract_counterexample :
  external_stage (example_instruction true) (example_script true)
  ∧ started_args (rs_trace (executeInstruction example_executor example_set
       (example_instruction true) always_succeeds example_stat))
    = [["-l"]]
  ∧ ["-l"] ≠ Args (example_script true)
             ++ contract_flags example_executor example_set (example_instruction true).
Proof. split; [split; reflexivity|]. split; [reflexivity | discriminate]. Qed.

Lemma stages_are_chained_witness :
  map st_instr (started (ExecuteInstructionSet_loop example_flow)) = example_flow
  ∧ NoDup (map st_outChan (started (ExecuteInstructionSet_loop example_flow))).
Proof.
  destruct (stages_are_chained example_flow) as (H1 & _ & _ & _ & H5 & _).
  exact (conj H1 H5).
Defined.

Lemma stage_streams_witness :
  script_streams
    (setupReaders "count" [example_location] 1 false)
    (setupWriters "count" [example_location] 2 true 4)
  = Some (PiperReader 1, DialWrite "count" example_location 4).
Proof.
  exact (stage_streams example_flow 1
           {| st_index := 1; st_instr := example_instruction true; st_prevIsPipe := false;
              st_inChan := 1; st_outChan := 2; st_isFirst := false; st_isLast := true;
              st_stat := (2, 0) |}
           "count" [example_location] [example_location] 4 eq_refl).
Defined.

Lemma exeErrChan_has_room_witness :
  (length (concat (map (λ r, sent_errors (rs_trace r))
     [executeInstruction example_executor example_set (example_instruction false)
        fails_after_reading example_stat;
      executeInstruction example_executor example_set (example_instruction true)
        fails_twice example_stat]))
   ≤ exeErrChan_capacity example_flow)%nat.
Proof.
  apply (@exeErrChan_has_room scripted example_executor example_set example_flow).
  constructor; [by eexists _, _|]. constructor; [by eexists _, _|]. constructor.
Defined.

Lemma started_in_option_dir_witness :
  Forall (λ ev, match ev with
                | Started path _ dir _ _ => dir = "/work" ∧ path = "/work/wc"
                | _ => True
                end)
    (rs_trace (executeInstruction example_executor example_set (example_instruction false)
                 fails_twice example_stat)).
Proof.
  apply (@started_in_option_dir scripted example_executor example_set
           (example_instruction false) (example_script false) fails_twice example_stat).
  split; reflexivity.
Defined.

End ExecutorProofs.

(* ===================================================================== *)
(** * Properties of the sorter                                            *)
(* ===================================================================== *)

Module FilesortProofs.
Import Filesort.

(** ** Insertion sort meets the contract of [sort.Sort] *)

Section InsertionSort.
Context {A : Type} (lt : A → A → bool).
Hypothesis lt_asym : ∀ a b, lt a b = true → lt b a = false.
Hypothesis le_trans : ∀ a b c, lt b a = false → lt c b = false → lt c a = false.

#[local] Instance slice_sort : sort_Interface (list A) := list_sort lt.

Lemma list_Less_middle (pre : list A) y x post :
  list_Less lt ((pre ++ [y]) ++ x :: post) (S (length pre)) (length pre)
  = (lt x y, (pre ++ [y]) ++ x :: post).
Proof.
  unfold list_Less. rewrite <- app_assoc. simpl.
  rewrite (lookup_app_r pre) by lia. rewrite (lookup_app_r pre) by lia.
  by replace (S (length pre) - length pre)%nat with 1%nat by lia; rewrite Nat.sub_diag.
Qed.

Lemma list_Swap_middle (pre : list A) y x post :
  list_Swap ((pre ++ [y]) ++ x :: post) (S (length pre)) (length pre)
  = pre ++ x :: y :: post.
Proof.
  unfold list_Swap. rewrite <- app_assoc. simpl.
  rewrite (lookup_app_r pre) by lia. rewrite (lookup_app_r pre) by lia.
  replace (S (length pre) - length pre)%nat with 1%nat by lia. rewrite Nat.sub_diag. simpl.
  rewrite (insert_app_r_alt pre) by lia. rewrite Nat.sub_diag. simpl.
  rewrite (insert_app_r_alt pre) by lia.
  by replace (S (length pre) - length pre)%nat with 1%nat by lia.
Qed.

Lemma insertion_inner_spec k (pre : list A) x post :
  ∃ pre1 pre2,
    pre = pre1 ++ pre2
    ∧ run_sort (insertion_inner (length pre) k) (pre ++ x :: post)
      = run_sort k (pre1 ++ x :: pre2 ++ post)
    ∧ Forall (λ y, lt x y = true) pre2
    ∧ match last pre1 with Some z => lt x z = false | None => True end.
Proof.
  revert post. induction pre as [|y pre IH] using rev_ind; intros post.
  - exists [], []. simpl. repeat split; constructor.
  - rewrite length_app. simpl. rewrite Nat.add_1_r. simpl.
    rewrite list_Less_middle. destruct (lt x y) eqn:Hxy; simpl.
    + rewrite list_Swap_middle.
      destruct (IH (y :: post)) as (pre1 & pre2 & -> & Hrun & Hall & Hlast).
      exists pre1, (pre2 ++ [y]). rewrite Hrun, <- !app_assoc. simpl.
      repeat split; [|done]. apply Forall_app. split; [done|]. by constructor.
    + exists (pre ++ [y]), []. rewrite last_snoc, app_nil_r.
      repeat split; [|done]. constructor.
Qed.

Lemma insertion_outer_sorted (rest pre : list A) :
  StronglySorted (λ a b, lt b a = false) pre →
  StronglySorted (λ a b, lt b a = false)
    (run_sort (insertion_outer (length rest) (length pre)) (pre ++ rest)).
Proof.
  revert pre. induction rest as [|x rest IH]; intros pre Hs; simpl.
  - by rewrite app_nil_r.
  - destruct (insertion_inner_spec (insertion_outer (length rest) (S (length pre)))
                pre x rest) as (pre1 & pre2 & -> & -> & Hall & Hlast).
    replace (S (length (pre1 ++ pre2))) with (length (pre1 ++ x :: pre2))
      by (rewrite !length_app; simpl; lia).
    replace (pre1 ++ x :: pre2 ++ rest) with ((pre1 ++ x :: pre2) ++ rest)
      by (by rewrite <- app_assoc).
    apply IH.
    apply StronglySorted_app in Hs as (Hcross & Hs1 & Hs2).
    apply StronglySorted_app_2; [| done |].
    + intros a b Ha Hb. apply elem_of_cons in Hb as [->|Hb]; [|by apply Hcross].
      destruct (last pre1) as [z|] eqn:Hz; [|by apply last_None in Hz; subst; inv Ha].
      apply last_Some in Hz as [pre0 ->].
      apply elem_of_app in Ha as [Ha|Ha].
      * apply (le_trans _ z); [|done].
        apply (StronglySorted_app_1_elem_of _ _ _ _ _ Hs1 Ha). by left.
      * apply list_elem_of_singleton in Ha as ->. done.
    + constructor; [done|]. eapply Forall_impl; [exact Hall|].
      intros b Hb. simpl in Hb. by apply lt_asym.
Qed.

Lemma insertion_inner_in_range n j k :
  (j < n)%nat → prog_in_range n k → prog_in_range n (insertion_inner j k).
Proof.
  induction j as [|j IH]; intros Hj Hk; simpl; [done|].
  repeat split; [lia..|]. intros [|]; [|done]. simpl. repeat split; [lia..|].
  apply IH; [lia | done].
Qed.

Lemma insertion_outer_in_range n todo i :
  (i + todo ≤ n)%nat → prog_in_range n (insertion_outer todo i).
Proof.
  revert i. induction todo as [|todo IH]; intros i Hi; simpl; [done|].
  apply insertion_inner_in_range; [lia|]. apply IH. lia.
Qed.

End InsertionSort.

Lemma insertionSort_ok : @SortLibraryOk insertionSort.
Proof.
  split.
  - intros n. unfold sort_algorithm, insertionSort.
    destruct n as [|n]; [done|]. apply insertion_outer_in_range. lia.
  - intros A lt l [Hasym Htrans]. apply StronglySorted_Sorted.
    unfold sort_algorithm, insertionSort. destruct l as [|a l]; [constructor|].
    simpl. rewrite Nat.sub_0_r.
    apply (insertion_outer_sorted lt Hasym Htrans l [a]).
    repeat constructor.
Qed.

Section Sorter.
Context `{!Collaborators} `{!SortLibrary}.

(** ** Frame lemmas *)

(** Sorting touches the buffer and the captured error, nothing else. *)
Lemma run_sort_frame p (fs : FileSorter) :
  ∃ b e, run_sort p fs = set_err e (set_buf b fs).
Proof.
  revert fs. induction p as [|i j k IH|i j k IH]; intros fs; simpl.
  - exists (buf fs), (err fs). by destruct fs.
  - unfold fs_Less.
    destruct (buf fs !! i), (buf fs !! j); try destruct (lessThan _ _ _ _) as [lt e'];
      try destruct (err fs);
      match goal with |- context [run_sort (k ?l) ?x] =>
        destruct (IH l x) as (b' & e'' & ->) end; by exists b', e''.
  - unfold fs_Swap. destruct (buf fs !! i), (buf fs !! j);
      match goal with |- context [run_sort ?q ?x] =>
        destruct (IH x) as (b' & e'' & ->) end; by exists b', e''.
Qed.

Lemma sort_Sort_frame (fs : FileSorter) :
  ∃ b e, sort_Sort fs = set_err e (set_buf b fs).
Proof. apply run_sort_frame. Qed.



(** ** The builder *)

Lemma os_Stat_exists name (w : FileSystem) : os_Stat name w = None ↔ path_exists w name.
Proof.
  unfold os_Stat, path_exists. destruct (decide (name = "")) as [->|Hn].
  - split; [done | by intros [? _]].
  - destruct (w !! name) eqn:E.
    + split; [intros _; split; [done | by eexists] | done].
    + split; [done | by intros [_ [? ?]]].
Qed.

Lemma os_Stat_error name (w : FileSystem) e :
  os_Stat name w = Some e → os_IsNotExist e = true.
Proof.
  unfold os_Stat. destruct (decide (name = "")); [by intros [= <-]|].
  destruct (w !! name); [done | by intros [= <-]].
Qed.

Lemma Build_ok b (w : FileSystem) :
  buildable b w →
  Build b w =
    (Some {| keySize := b_keySize b; valSize := b_valSize b; bufSize := b_bufSize b;
             tmpDir := b_tmpDir b; sc := b_sc b; buf := []; files := [];
             byDesc := b_byDesc b; cursor := 0; closed := false; fetched := false;
             fs_rowHeap := {| rh_sc := b_sc b; ims := []; rh_byDesc := b_byDesc b;
                              rh_err := None |};
             fds := []; fileCount := 0; err := None |}, None).
Proof.
  intros (Hsc & Hk & Hd & Hv & Hb & Hp). unfold Build.
  destruct (b_sc b); [|done].
  rewrite (proj2 (Z.eqb_eq _ _) Hd). simpl.
  rewrite (proj2 (Z.leb_gt _ _) Hk), (proj2 (Z.leb_gt _ _) Hv), (proj2 (Z.leb_gt _ _) Hb).
  by rewrite (proj2 (os_Stat_exists _ _) Hp).
Qed.

Lemma Build_fails b (w : FileSystem) :
  ¬ buildable b w → ∃ msg, Build b w = (None, Some (Err msg)).
Proof.
  intros Hn. unfold Build.
  destruct (b_sc b) eqn:Hsc; [|by eexists].
  destruct (Z.eqb_spec (b_keySize b) (Z.of_nat (length (b_byDesc b)))) as [Hd|Hd];
    simpl; [|by eexists].
  destruct (Z.leb_spec (b_keySize b) 0); [by eexists|].
  destruct (Z.leb_spec (b_valSize b) 0); [by eexists|].
  destruct (Z.leb_spec (b_bufSize b) 0); [by eexists|].
  destruct (os_Stat (b_tmpDir b) w) as [e|] eqn:Hs.
  - rewrite (os_Stat_error _ _ _ Hs). by eexists.
  - exfalso. apply Hn. apply os_Stat_exists in Hs.
    unfold buildable. rewrite Hsc. split; [done|]. repeat split; first [done | lia | apply Hs].
Qed.


(** ** [Input] *)

(** C10. On an open sorter in its input phase, an [Input] whose key slice or
    value slice has the wrong length returns an error and leaves the sorter
    and the file system as they were. *)
Theorem Input_schema_mismatch k v h (fs : FileSorter) (w : FileSystem) :
  closed fs = false → fetched fs = false →
  Z.of_nat (length k) ≠ keySize fs ∨ Z.of_nat (length v) ≠ valSize fs →
  Input k v h fs w =
    (Some (Err (if decide (Z.of_nat (length k) = keySize fs)
                then "mismatch in value size and val slice"
                else "mismatch in key size and key slice")), fs, w).
Proof.
  intros Hc Hf Hm. unfold Input. rewrite Hc, Hf.
  destruct (Z.eqb_spec (Z.of_nat (length k)) (keySize fs)) as [Hk|Hk]; simpl.
  - destruct Hm as [|Hv]; [done|].
    rewrite (proj2 (Z.eqb_neq _ _) Hv). simpl. by rewrite decide_True.
  - by rewrite decide_False.
Qed.

(** ** Files and run reading: what changes *)

Lemma file_Read_closed fd n :
  f_closed (file_Read fd n).2 = f_closed fd.
Proof.
  unfold file_Read. destruct (f_closed fd) eqn:Hc; [done|].
  destruct (f_dir fd); [done|]. destruct (n =? 0)%nat; [done|].
  by destruct (f_data fd).
Qed.

Lemma fetchNextRow_frame (fs : FileSorter) i r e fs' :
  fetchNextRow fs i = (r, e, fs') →
  ∃ l, fs' = set_fds l fs ∧ length l = length (fds fs)
       ∧ (all_open (fds fs) → all_open l).
Proof.
  unfold fetchNextRow. intros Hf.
  destruct (fds fs !! i) as [fd|] eqn:Hfd.
  2: { injection Hf as <- <- <-. exists (fds fs). by destruct fs. }
  pose proof (file_Read_closed fd 8) as Hc1.
  destruct (file_Read fd 8) as [[head e1] fd1]. simpl in Hc1.
  assert (Hstep : ∀ fd', f_closed fd' = f_closed fd →
    length (<[i := fd']> (fds fs)) = length (fds fs)
    ∧ (all_open (fds fs) → all_open (<[i := fd']> (fds fs)))).
  { intros fd' Hc. split; [by rewrite length_insert|].
    intros Ho. apply Forall_insert; [done|].
    rewrite Hc. by eapply (Forall_lookup_1 _ _ _ _ Ho Hfd). }
  destruct (is_EOF e1).
  { simplify_eq. eexists. split; [reflexivity | by apply Hstep]. }
  destruct e1.
  { simplify_eq. eexists. split; [reflexivity | by apply Hstep]. }
  destruct (negb _).
  { simplify_eq. eexists. split; [reflexivity | by apply Hstep]. }
  destruct (_ || _).
  { simplify_eq. eexists. split; [reflexivity | by apply Hstep]. }
  simpl in Hf.
  match type of Hf with context [file_Read fd1 ?n] =>
    pose proof (file_Read_closed fd1 n) as Hc2;
    destruct (file_Read fd1 n) as [[rowBytes e2] fd2] end.
  simpl in Hc2. rewrite list_insert_insert_eq in Hf.
  assert (Hfd2 : f_closed fd2 = f_closed fd) by congruence.
  repeat case_match; simplify_eq;
    (eexists; split; [reflexivity | by apply Hstep]).
Qed.


Lemma openAllFiles_loop_frame names (fs : FileSorter) (w : FileSystem) e fs' :
  openAllFiles_loop names fs w = (e, fs') →
  ∃ l, fs' = set_fds (fds fs ++ l) fs ∧ all_open l.
Proof.
  revert fs. induction names as [|n names IH]; intros fs; simpl.
  - intros [= <- <-]. exists []. rewrite app_nil_r. split; [by destruct fs | constructor].
  - unfold os_Open. destruct (w !! n) as [[|c]|].
    + intros Hl. apply IH in Hl as (l & -> & Ho). simpl.
      eexists (_ :: l). rewrite <- app_assoc. split; [reflexivity|].
      by constructor.
    + intros Hl. apply IH in Hl as (l & -> & Ho). simpl.
      eexists (_ :: l). rewrite <- app_assoc. split; [reflexivity|].
      by constructor.
    + intros [= <- <-]. exists []. rewrite app_nil_r. split; [by destruct fs | constructor].
Qed.

Lemma flushToFile_frame (fs : FileSorter) (w : FileSystem) e fs' w' :
  flushToFile fs w = (e, fs', w') →
  ∃ b e' fl fc, fs' = set_fileCount fc (set_files fl (set_err e' (set_buf b fs))).
Proof.
  unfold flushToFile. destruct (sort_Sort_frame fs) as (b & e' & ->).
  unfold getUniqueFileName.
  repeat case_match; intros; simplify_eq/=; do 4 eexists;
    unfold set_fileCount, set_files, set_err, set_buf; simpl; reflexivity.
Qed.

Lemma prime_loop_frame ids (fs : FileSorter) e fs' :
  prime_loop ids fs = (e, fs') →
  ∃ l rh, fs' = set_rowHeap rh (set_fds l fs)
          ∧ length l = length (fds fs) ∧ (all_open (fds fs) → all_open l).
Proof.
  revert fs. induction ids as [|id ids IH]; intros fs; simpl.
  - intros [= <- <-]. exists (fds fs), (fs_rowHeap fs). by destruct fs.
  - destruct (fetchNextRow fs id) as [[row e1] fs1] eqn:Hf.
    apply fetchNextRow_frame in Hf as (l & -> & Hlen & Ho).
    destruct e1; [intros [= <- <-]; exists l, (fs_rowHeap fs); by destruct fs|].
    destruct row; [|intros [= <- <-]; exists l, (fs_rowHeap fs); by destruct fs].
    destruct (rh_err _).
    + intros [= <- <-]. by eexists l, _.
    + intros Hp. apply IH in Hp as (l' & rh' & -> & Hlen' & Ho'). simpl in *.
      exists l', rh'. split; [done|]. split; [congruence | auto].
Qed.











Lemma Build_buildable b (w : FileSystem) fs :
  Build b w = (Some fs, None) → buildable b w.
Proof.
  intros Hfs.
  assert (Hdec : buildable b w ∨ ¬ buildable b w).
  { unfold buildable, path_exists.
    destruct (b_sc b); [|right; by intros [? _]].
    destruct (decide (0 < b_keySize b)); [|right; by intros (_ & ? & _)].
    destruct (decide (b_keySize b = Z.of_nat (length (b_byDesc b))));
      [|right; by intros (_ & _ & ? & _)].
    destruct (decide (0 < b_valSize b)); [|right; by intros (_ & _ & _ & ? & _)].
    destruct (decide (0 < b_bufSize b)); [|right; by intros (_ & _ & _ & _ & ? & _)].
    destruct (decide (b_tmpDir b = ""));
      [right; by intros (_ & _ & _ & _ & _ & ? & _)|].
    destruct (w !! b_tmpDir b) eqn:E;
      [left; repeat split; (done || by eexists)
      |right; by intros (_ & _ & _ & _ & _ & _ & [? ?])]. }
  destruct Hdec as [|Hn]; [done|].
  destruct (Build_fails _ _ Hn) as [msg Hm]. congruence.
Qed.

Lemma Build_success b (w : FileSystem) fs :
  Build b w = (Some fs, None) →
  buildable b w
  ∧ fs = {| keySize := b_keySize b; valSize := b_valSize b; bufSize := b_bufSize b;
            tmpDir := b_tmpDir b; sc := b_sc b; buf := []; files := [];
            byDesc := b_byDesc b; cursor := 0; closed := false; fetched := false;
            fs_rowHeap := {| rh_sc := b_sc b; ims := []; rh_byDesc := b_byDesc b;
                             rh_err := None |};
            fds := []; fileCount := 0; err := None |}.
Proof.
  intros Hb. assert (Hok : buildable b w) by (by apply (Build_buildable b w fs)).
  split; [done|]. rewrite (Build_ok _ _ Hok) in Hb. congruence.
Qed.

(** ** The phases *)


(** ** The empty sorter *)



(** ** Reading a run *)



Lemma openAllFiles_loop_ok names (fs : FileSorter) (w : FileSystem) contents :
  Forall2 (λ n c, w !! n = Some (Reg c)) names contents →
  openAllFiles_loop names fs w =
    (None, set_fds (fds fs ++ map (λ c, {| f_data := c; f_dir := false; f_closed := false |})
                                  contents) fs).
Proof.
  intros Hall. revert fs. induction Hall as [|n c names contents Hn _ IH]; intros fs; simpl.
  - rewrite app_nil_r. by destruct fs.
  - unfold os_Open. rewrite Hn. rewrite IH. simpl. by rewrite <- app_assoc.
Qed.

Lemma heap_Init_empty (rh : rowHeap) : ims rh = [] → heap_Init rh = rh.
Proof. intros Hi. unfold heap_Init. simpl. unfold rh_Len. by rewrite Hi. Qed.


End Sorter.

(** ** The comparator is a strict weak order *)

Section Comparator.
Context `{!Collaborators} `{!CollaboratorsOk}.

Lemma neg_int_range z : - 2 ^ 63 < z < 2 ^ 63 → neg_int z = - z.
Proof.
  intros Hz. unfold neg_int, to_int64.
  rewrite Z.mod_small by lia. lia.
Qed.

Lemma compare_flip sc a b :
  ((CompareDatum sc a b).1 < 0 ↔ 0 < (CompareDatum sc b a).1)
  ∧ ((CompareDatum sc a b).1 = 0 ↔ (CompareDatum sc b a).1 = 0)
  ∧ (0 < (CompareDatum sc a b).1 ↔ (CompareDatum sc b a).1 < 0).
Proof.
  pose proof (compare_antisym sc a b) as Hs.
  destruct ((CompareDatum sc a b).1), ((CompareDatum sc b a).1); simpl in Hs; lia.
Qed.

(** One round of the loop of [lessThan], on a pair of columns. *)
Lemma lessThan_cons sc desc byDesc v1 i v2 j :
  lessThan sc (v1 :: i) (v2 :: j) (desc :: byDesc) =
    let ret := (CompareDatum sc v1 v2).1 in
    let ret := if desc then - ret else ret in
    if ret <? 0 then (true, None)
    else if 0 <? ret then (false, None)
    else lessThan sc i j byDesc.
Proof.
  simpl. pose proof (compare_total sc v1 v2) as He.
  pose proof (compare_range sc v1 v2) as Hr.
  destruct (CompareDatum sc v1 v2) as [ret e]. simpl in *. subst e.
  destruct desc; [by rewrite neg_int_range|done].
Qed.

Lemma lessThan_no_error sc byDesc i j :
  length i = length byDesc → length j = length byDesc →
  (lessThan sc i j byDesc).2 = None.
Proof.
  revert i j. induction byDesc as [|d byDesc IH]; intros i j Hi Hj; [done|].
  destruct i as [|v1 i], j as [|v2 j]; try done.
  rewrite lessThan_cons. cbv zeta. simpl in Hi, Hj.
  repeat case_match; try done; apply IH; lia.
Qed.

Lemma lessThan_asym sc byDesc i j :
  length i = length byDesc → length j = length byDesc →
  (lessThan sc i j byDesc).1 = true → (lessThan sc j i byDesc).1 = false.
Proof.
  revert i j. induction byDesc as [|d byDesc IH]; intros i j Hi Hj; [done|].
  destruct i as [|v1 i], j as [|v2 j]; try done.
  rewrite !lessThan_cons. cbv zeta. simpl in Hi, Hj.
  destruct (compare_flip sc v1 v2) as (F1 & F2 & F3).
  destruct d; repeat case_match; try done; try lia; apply IH; lia.
Qed.

Lemma lessThan_trans sc byDesc a b c :
  length a = length byDesc → length b = length byDesc → length c = length byDesc →
  (lessThan sc b a byDesc).1 = false → (lessThan sc c b byDesc).1 = false →
  (lessThan sc c a byDesc).1 = false.
Proof.
  revert a b c. induction byDesc as [|d byDesc IH]; intros a b c Ha Hb Hc; [done|].
  destruct a as [|a1 a], b as [|b1 b], c as [|c1 c]; try done.
  rewrite !lessThan_cons. cbv zeta. simpl in Ha, Hb, Hc.
  destruct (compare_flip sc a1 b1) as (F1 & F2 & F3).
  destruct (compare_flip sc b1 c1) as (G1 & G2 & G3).
  destruct (compare_flip sc a1 c1) as (K1 & K2 & K3).
  pose proof (compare_trans sc a1 b1 c1) as T1.
  pose proof (compare_trans sc c1 b1 a1) as T2.
  pose proof (compare_trans sc b1 c1 a1) as T3.
  pose proof (compare_trans sc c1 a1 b1) as T4.
  pose proof (compare_trans sc a1 c1 b1) as T5.
  pose proof (compare_trans sc b1 a1 c1) as T6.
  destruct d; repeat case_match; try done; try lia; apply (IH a b c); lia || done.
Qed.

Lemma row_lt_strict_weak (fs : FileSorter) : strict_weak (row_lt fs).
Proof.
  split.
  - intros a b. unfold row_lt, row_less, key_fits.
    destruct (Nat.eqb_spec (length (key a)) (length (byDesc fs))),
             (Nat.eqb_spec (length (key b)) (length (byDesc fs))); try done.
    by apply lessThan_asym.
  - intros a b c. unfold row_lt, row_less, key_fits.
    destruct (Nat.eqb_spec (length (key a)) (length (byDesc fs))),
             (Nat.eqb_spec (length (key b)) (length (byDesc fs))),
             (Nat.eqb_spec (length (key c)) (length (byDesc fs))); try done.
    by apply lessThan_trans.
Qed.

End Comparator.

(** ** The integer columns meet what the sorter relies on *)

Lemma IntColumns_dec_ones n neg m rest :
  IntColumns.dec (repeat Byte.x01 n ++ Byte.x00 :: rest) (Some (neg, m))
  = cons (IntColumns.mk neg (m + n)) <$> IntColumns.dec rest None.
Proof.
  revert m. induction n as [|n IH]; intros m; simpl.
  - by rewrite Nat.add_0_r.
  - rewrite IH. by replace (S m + n)%nat with (m + S n)%nat by lia.
Qed.

Lemma IntColumns_dec_enc z rest :
  IntColumns.dec (IntColumns.enc z ++ rest) None = cons z <$> IntColumns.dec rest None.
Proof.
  unfold IntColumns.enc. rewrite <- app_comm_cons, <- app_assoc. simpl.
  assert (Hm : IntColumns.mk (z <? 0) (0 + Z.abs_nat z) = z).
  { unfold IntColumns.mk. destruct (Z.ltb_spec z 0); lia. }
  destruct (z <? 0); rewrite IntColumns_dec_ones, Hm; done.
Qed.

Lemma IntColumns_dec_all l :
  IntColumns.dec (concat (map IntColumns.enc l)) None = Some l.
Proof.
  induction l as [|z l IH]; [done|].
  change (concat (map IntColumns.enc (z :: l)))
    with (IntColumns.enc z ++ concat (map IntColumns.enc l)).
  by rewrite IntColumns_dec_enc, IH.
Qed.

Lemma IntColumns_roundtrip (k v : list Z) (h : Z) :
  IntColumns.dec
    ((([] ++ concat (map IntColumns.enc k)) ++ concat (map IntColumns.enc v))
     ++ concat (map IntColumns.enc [h])) None
  = Some (k ++ v ++ [h]).
Proof.
  replace ((([] ++ concat (map IntColumns.enc k)) ++ concat (map IntColumns.enc v))
           ++ concat (map IntColumns.enc [h]))
    with (concat (map IntColumns.enc (k ++ v ++ [h]))).
  - apply IntColumns_dec_all.
  - rewrite !List.map_app, !concat_app. by rewrite app_assoc.
Qed.

Lemma IntColumns_decode (k v : list Z) (h : Z) :
  match IntColumns.dec
          ((([] ++ concat (map IntColumns.enc k)) ++ concat (map IntColumns.enc v))
           ++ concat (map IntColumns.enc [h])) None
  with
  | Some vs => (vs, @None error)
  | None => ([], Some (Err "invalid encoded key"))
  end = (k ++ v ++ [h], None).
Proof. by rewrite IntColumns_roundtrip. Qed.

Lemma IntColumns_ok : @CollaboratorsOk IntColumns.collaborators.
Proof.
  split.
  - done.
  - intros sc a b. simpl. unfold IntColumns.compare_int. destruct (a ?= b); lia.
  - intros sc a b. simpl. unfold IntColumns.compare_int.
    rewrite (Z.compare_antisym a b). by destruct (a ?= b).
  - intros sc a b c. simpl. unfold IntColumns.compare_int.
    destruct (Z.compare_spec a b), (Z.compare_spec b c), (Z.compare_spec a c); lia.
  - done.
  - intros k v h.
    exact (IntColumns_decode k v h).
  - done.
Qed.

(** ** Slices under [Swap] and [Less] *)

Section Slices.
Context {A : Type} (lt : A → A → bool).

#[local] Instance slices_sort : sort_Interface (list A) := list_sort lt.

Lemma list_Swap_length (l : list A) i j : length (list_Swap l i j) = length l.
Proof.
  unfold list_Swap. destruct (l !! i), (l !! j); try done. by rewrite !length_insert.
Qed.

Lemma list_Swap_perm (l : list A) i j : list_Swap l i j ≡ₚ l.
Proof.
  unfold list_Swap. destruct (l !! i) eqn:Hi, (l !! j) eqn:Hj; try done.
  by apply Permutation_insert_swap.
Qed.

Lemma list_Swap_lookup (l : list A) i j a b c :
  l !! i = Some a → l !! j = Some b →
  list_Swap l i j !! c =
    if decide (c = i) then Some b else if decide (c = j) then Some a else l !! c.
Proof.
  intros Hi Hj. unfold list_Swap. rewrite Hi, Hj.
  assert (i < length l)%nat by (by eapply lookup_lt_Some).
  assert (j < length l)%nat by (by eapply lookup_lt_Some).
  destruct (decide (c = i)) as [->|Hci].
  { by rewrite list_lookup_insert_eq by (by rewrite length_insert). }
  rewrite list_lookup_insert_ne by done.
  destruct (decide (c = j)) as [->|Hcj].
  { by rewrite list_lookup_insert_eq. }
  by rewrite list_lookup_insert_ne.
Qed.

Lemma run_sort_perm p (l : list A) : run_sort p l ≡ₚ l.
Proof.
  revert l. induction p as [|i j k IH|i j k IH]; intros l; simpl; [done| |].
  - unfold list_Less. destruct (l !! i), (l !! j); apply IH.
  - rewrite IH. apply list_Swap_perm.
Qed.

End Slices.

(** ** [container/heap] on a slice *)

Lemma parent_spec c i :
  (0 < c)%nat → ((c - 1) / 2 = i ↔ c = 2 * i + 1 ∨ c = 2 * i + 2)%nat.
Proof.
  intros Hc. split.
  - intros <-. pose proof (Nat.div_mod_eq (c - 1) 2).
    pose proof (Nat.mod_upper_bound (c - 1) 2). lia.
  - intros [->| ->].
    + replace (2 * i + 1 - 1)%nat with (i * 2)%nat by lia. by rewrite Nat.div_mul.
    + replace (2 * i + 2 - 1)%nat with (1 + i * 2)%nat by lia.
      rewrite Nat.div_add by lia. simpl. lia.
Qed.

Lemma parent_lt c : (0 < c)%nat → ((c - 1) / 2 < c)%nat.
Proof.
  intros Hc. destruct (proj1 (parent_spec c ((c - 1) / 2) Hc) eq_refl); lia.
Qed.

Section ListHeap.
#[local] Open Scope nat_scope.
Context {A : Type} (lt : A → A → bool).
Hypothesis lt_asym : ∀ a b, lt a b = true → lt b a = false.
Hypothesis le_trans : ∀ a b c, lt b a = false → lt c b = false → lt c a = false.

#[local] Instance slice_heap : heap_Interface (list A) A := list_heap lt.

Lemma lt_irrefl a : lt a a = false.
Proof. destruct (lt a a) eqn:E; [|done]. pose proof (lt_asym _ _ E). congruence. Qed.

Lemma up_loop_ok fuel (l : list A) j :
  (j < fuel)%nat → (j < length l)%nat → up_inv lt l j →
  heap_ok lt (up_loop fuel l j) ∧ up_loop fuel l j ≡ₚ l.
Proof.
  revert l j. induction fuel as [|fuel IH]; intros l j Hfuel Hj [Hinv1 Hinv2]; [lia|].
  cbn [up_loop].
  destruct (Nat.eqb_spec ((j - 1) / 2) j) as [Heq|Hne].
  { split; [|done]. intros c x y [Hc _] Hy Hx.
    assert (j = 0)%nat as -> by (destruct j; [done|]; pose proof (parent_lt (S j)); lia).
    apply (Hinv1 c); [done|lia|done|done]. }
  assert (Hj0 : (0 < j)%nat) by (destruct j; [done|lia]).
  pose proof (parent_lt j Hj0) as Hp.
  destruct (lookup_lt_is_Some_2 l j Hj) as [y Hy].
  destruct (lookup_lt_is_Some_2 l ((j - 1) / 2)) as [x Hx]; [lia|].
  cbn [Less Swap heap_sort_Interface slice_heap list_heap list_sort].
  unfold list_Less. rewrite Hy, Hx.
  destruct (lt y x) eqn:Hyx; cbn [negb].
  2: { split; [|done]. intros c x' y' [Hc _] Hy' Hx'.
       destruct (decide (c = j)) as [->|Hcj]; [|by apply (Hinv1 c)].
       by simplify_eq. }
  destruct (IH (list_Swap l ((j - 1) / 2) j) ((j - 1) / 2)) as [Hok Hperm].
  - lia.
  - rewrite list_Swap_length. lia.
  - pose proof (λ c, list_Swap_lookup l _ _ _ _ c Hx Hy) as Hsw.
    assert (Hle : lt x y = false) by (by apply lt_asym).
    split.
    + intros c x' y' Hc Hci Hy' Hx'. rewrite Hsw in Hy', Hx'.
      pose proof (parent_lt c Hc) as Hpc.
      rewrite decide_False in Hy' by done.
      destruct (decide (c = j)) as [->|Hcj].
      * rewrite decide_True in Hx' by done. by simplify_eq.
      * destruct (decide ((c - 1) / 2 = (j - 1) / 2)) as [Hpi|Hpi].
        -- injection Hx' as <-. apply (le_trans _ x); [done|].
           apply (Hinv1 c); [done|done|done|by rewrite Hpi].
        -- destruct (decide ((c - 1) / 2 = j)) as [Hpj|Hpj].
           ++ injection Hx' as <-. by apply (Hinv2 c).
           ++ by apply (Hinv1 c).
    + intros c x' y' Hi Hc Hpc Hy' Hx'. rewrite Hsw in Hy', Hx'.
      pose proof (parent_lt _ Hi) as Hg.
      rewrite decide_False in Hx' by lia. rewrite decide_False in Hx' by lia.
      pose proof (parent_lt c Hc) as Hcc.
      rewrite decide_False in Hy' by lia.
      assert (Hgx : lt x x' = false) by (by apply (Hinv1 ((j - 1) / 2)); [done|lia|done|done]).
      destruct (decide (c = j)) as [->|Hcj]; [by simplify_eq|].
      apply (le_trans _ x); [done|].
      apply (Hinv1 c); [done|done|done|by rewrite Hpc].
  - split; [done|]. rewrite Hperm. apply list_Swap_perm.
Qed.

Lemma heap_Push_ok (l : list A) x :
  heap_ok lt l → heap_ok lt (heap_Push l x) ∧ heap_Push l x ≡ₚ x :: l.
Proof.
  intros Hok. unfold heap_Push, up.
  cbn [Push Len heap_sort_Interface slice_heap list_heap list_sort].
  rewrite length_app. simpl. rewrite Nat.add_sub.
  destruct (up_loop_ok (S (length l)) (l ++ [x]) (length l)) as [H1 H2].
  - lia.
  - rewrite length_app. simpl. lia.
  - split.
    + intros c x' y' Hc Hcj Hy' Hx'.
      assert (c < length l)%nat.
      { apply lookup_lt_Some in Hy'. rewrite length_app in Hy'. simpl in Hy'. lia. }
      pose proof (parent_lt c Hc).
      rewrite lookup_app_l in Hy', Hx' by lia. by apply (Hok c).
    + intros c x' y' Hj Hc Hpc Hy' Hx'.
      apply lookup_lt_Some in Hy'. rewrite length_app in Hy'. simpl in Hy'.
      apply parent_spec in Hpc; [|done]. lia.
  - split; [done|]. rewrite H2. by rewrite Permutation_app_comm.
Qed.

Lemma down_loop_ok fuel (l : list A) i n :
  (n ≤ length l)%nat → (n - i ≤ fuel)%nat → down_inv lt l i n →
  heap_upto lt n (down_loop fuel l i n).1
  ∧ (down_loop fuel l i n).1 ≡ₚ l
  ∧ (∀ c, (n ≤ c)%nat → (down_loop fuel l i n).1 !! c = l !! c).
Proof.
  revert l i. induction fuel as [|fuel IH]; intros l i Hn Hfuel [Hinv1 Hinv2].
  { cbn [down_loop fst]. split; [|done]. intros c x y Hc Hy Hx.
    pose proof (parent_lt c (proj1 Hc)). apply (Hinv1 c); [done|lia|done|done]. }
  cbn [down_loop].
  destruct (Nat.leb_spec n (2 * i + 1)) as [Hleaf|Hchild].
  { cbn [fst]. split; [|done]. intros c x y Hc Hy Hx.
    apply (Hinv1 c); [done| |done|done].
    intros Hp. apply parent_spec in Hp; lia. }
  destruct (lookup_lt_is_Some_2 l i) as [xi Hxi]; [lia|].
  destruct (lookup_lt_is_Some_2 l (2 * i + 1)) as [y1 Hy1]; [lia|].
  cbn [Less Swap heap_sort_Interface slice_heap list_heap list_sort].
  (* the smaller child *)
  assert (∃ j yj,
    (if (2 * i + 1 + 1 <? n)%nat
     then let '(lt0, h) := list_Less lt l (2 * i + 1 + 1) (2 * i + 1) in
          (if lt0 then (2 * i + 1 + 1)%nat else (2 * i + 1)%nat, h)
     else ((2 * i + 1)%nat, l)) = (j, l)
    ∧ l !! j = Some yj ∧ (j = 2 * i + 1 ∨ j = 2 * i + 2)%nat ∧ (j < n)%nat
    ∧ ∀ c yc, (c < n)%nat → (c = 2 * i + 1 ∨ c = 2 * i + 2)%nat → l !! c = Some yc →
        lt yc yj = false) as (j & yj & -> & Hyj & Hjc & Hjn & Hmin).
  { destruct (Nat.ltb_spec (2 * i + 1 + 1) n) as [H2|H2].
    - destruct (lookup_lt_is_Some_2 l (2 * i + 1 + 1)) as [y2 Hy2]; [lia|].
      unfold list_Less. rewrite Hy2, Hy1. destruct (lt y2 y1) eqn:H21.
      + exists (2 * i + 1 + 1)%nat, y2. repeat split; [done|lia|done|].
        intros c yc Hc [->| ->] Hyc.
        * simplify_eq. by apply lt_asym.
        * replace (2 * i + 2)%nat with (2 * i + 1 + 1)%nat in Hyc by lia.
          simplify_eq. apply lt_irrefl.
      + exists (2 * i + 1)%nat, y1. repeat split; [done|lia|done|].
        intros c yc Hc [->| ->] Hyc.
        * simplify_eq. apply lt_irrefl.
        * replace (2 * i + 2)%nat with (2 * i + 1 + 1)%nat in Hyc by lia.
          by simplify_eq.
    - exists (2 * i + 1)%nat, y1. repeat split; [done|lia|done|].
      intros c yc Hc [->| ->] Hyc; [|lia].
      simplify_eq. apply lt_irrefl. }
  unfold list_Less. rewrite Hyj, Hxi.
  destruct (lt yj xi) eqn:Hji; cbn [negb].
  2: { cbn [fst]. split; [|done]. intros c x y Hc Hy Hx.
       destruct (decide ((c - 1) / 2 = i)) as [Hp|Hp]; [|by apply (Hinv1 c)].
       rewrite Hp, Hxi in Hx. injection Hx as <-.
       apply parent_spec in Hp; [|lia].
       apply (le_trans _ yj); [done|]. apply (Hmin c); [lia|done|done]. }
  assert (Hij : i ≠ j) by lia.
  pose proof (λ c, list_Swap_lookup l _ _ _ _ c Hxi Hyj) as Hsw.
  destruct (IH (list_Swap l i j) j) as (Hok & Hperm & Hrest).
  - by rewrite list_Swap_length.
  - lia.
  - assert (Hle : lt xi yj = false) by (by apply lt_asym).
    split.
    + intros c x y Hc Hp Hy Hx. rewrite Hsw in Hy, Hx.
      pose proof (parent_lt c (proj1 Hc)) as Hpc.
      destruct (decide ((c - 1) / 2 = i)) as [Hpi|Hpi].
      * injection Hx as <-. apply parent_spec in Hpi; [|lia].
        rewrite decide_False in Hy by lia.
        destruct (decide (c = j)) as [->|Hcj]; [by simplify_eq|].
        apply (Hmin c); [lia|done|done].
      * rewrite decide_False in Hx by done.
        destruct (decide (c = i)) as [->|Hci].
        -- injection Hy as <-. apply (Hinv2 j); [lia|lia| |done|done].
           apply parent_spec; lia.
        -- destruct (decide (c = j)) as [->|Hcj].
           ++ exfalso. apply Hpi. apply parent_spec; lia.
           ++ by apply (Hinv1 c).
    + intros c x y Hj Hc Hp Hy Hx. rewrite Hsw in Hy, Hx.
      assert (Hpj : ((j - 1) / 2 = i)%nat) by (apply parent_spec; lia).
      rewrite Hpj in Hx. rewrite decide_True in Hx by done. injection Hx as <-.
      pose proof (parent_lt c (proj1 Hc)) as Hpc.
      rewrite decide_False in Hy by lia. rewrite decide_False in Hy by lia.
      apply (Hinv1 c); [done|lia|done|by rewrite Hp].
  - split; [done|]. split.
    + rewrite Hperm. apply list_Swap_perm.
    + intros c Hc. rewrite Hrest by done. rewrite Hsw.
      rewrite decide_False by lia. by rewrite decide_False by lia.
Qed.

Lemma heap_root_min (l : list A) r :
  heap_ok lt l → l !! 0%nat = Some r → ∀ c y, l !! c = Some y → lt y r = false.
Proof.
  intros Hok Hr c. induction (lt_wf c) as [c _ IH]. intros y Hy.
  destruct (decide (c = 0)) as [->|Hc].
  - simplify_eq. apply lt_irrefl.
  - pose proof (parent_lt c) as Hp.
    pose proof (lookup_lt_Some _ _ _ Hy) as Hlen.
    destruct (lookup_lt_is_Some_2 l ((c - 1) / 2)) as [x Hx]; [lia|].
    apply (le_trans _ x).
    + apply (IH ((c - 1) / 2)); [lia|done].
    + apply (Hok c); [lia|done|done].
Qed.

Lemma heap_Pop_ok (l : list A) :
  heap_ok lt l → l ≠ [] →
  ∃ r l', heap_Pop l = (Some r, l')
          ∧ heap_ok lt l' ∧ l ≡ₚ r :: l' ∧ Forall (λ y, lt y r = false) l'.
Proof.
  intros Hok Hne.
  assert (Hlen : (0 < length l)%nat) by (destruct l; [done|simpl; lia]).
  destruct (lookup_lt_is_Some_2 l 0 Hlen) as [r Hr].
  destruct (lookup_lt_is_Some_2 l (length l - 1)) as [z Hz]; [lia|].
  unfold heap_Pop, down.
  cbn [Len Swap Pop heap_sort_Interface slice_heap list_heap list_sort].
  pose proof (λ c, list_Swap_lookup l _ _ _ _ c Hr Hz) as Hsw.
  destruct (down_loop_ok (length l - 1) (list_Swap l 0 (length l - 1)) 0 (length l - 1))
    as (Hup & Hperm & Hrest).
  - rewrite list_Swap_length. lia.
  - lia.
  - split; [|intros; lia].
    intros c x y Hc Hp Hy Hx. rewrite Hsw in Hy, Hx.
    pose proof (parent_lt c (proj1 Hc)).
    rewrite decide_False in Hy by lia. rewrite decide_False in Hy by lia.
    rewrite decide_False in Hx by lia. rewrite decide_False in Hx by lia.
    apply (Hok c); [lia|done|done].
  - destruct (down_loop (length l - 1) (list_Swap l 0 (length l - 1)) 0 (length l - 1))
      as [l2 i2] eqn:Hd. cbn [fst] in *.
    assert (Hlen2 : length l2 = length l).
    { by rewrite Hperm, list_Swap_length. }
    assert (Hlast : l2 !! (length l - 1)%nat = Some r).
    { rewrite Hrest by lia. rewrite Hsw.
      destruct (decide (length l - 1 = 0)%nat) as [H0|H0].
      - rewrite H0 in Hz. by simplify_eq.
      - by rewrite decide_True by done. }
    cbv beta iota zeta delta [fst]. unfold list_Pop. rewrite Hlen2, Hlast.
    exists r, (take (length l - 1) l2). split; [done|].
    assert (Hsplit : l2 = take (length l - 1) l2 ++ [r]).
    { rewrite <- (take_drop (length l - 1) l2) at 1. f_equal.
      rewrite (drop_S _ _ _ Hlast). rewrite drop_ge by lia. done. }
    assert (Hp : l ≡ₚ r :: take (length l - 1) l2).
    { transitivity l2; [by rewrite Hperm, list_Swap_perm|].
      transitivity (take (length l - 1) l2 ++ [r]); [by rewrite <- Hsplit|].
      symmetry. apply Permutation_cons_append. }
    split; [|split; [done|]].
    + intros c x y Hc Hy Hx. rewrite length_take in Hc.
      pose proof (parent_lt c (proj1 Hc)).
      rewrite lookup_take_lt in Hy, Hx by lia.
      apply (Hup c); [lia|done|done].
    + apply Forall_forall. intros y Hy.
      assert (y ∈ l) as Hyl by (rewrite Hp; by right).
      apply list_elem_of_lookup in Hyl as [c Hc].
      by apply (heap_root_min l r Hok Hr c).
Qed.

End ListHeap.

(** ** Sorting the buffer *)

Section SortBuffer.
Context `{!Collaborators} `{!CollaboratorsOk}.

Lemma key_fits_lt (fs : FileSorter) a b :
  key_fits fs a = true → key_fits fs b = true →
  lessThan (sc fs) (key a) (key b) (byDesc fs) = (row_lt fs a b, None).
Proof.
  intros Ha Hb. unfold row_lt, row_less. rewrite Ha, Hb.
  apply Nat.eqb_eq in Ha, Hb.
  pose proof (lessThan_no_error (sc fs) (byDesc fs) (key a) (key b) Ha Hb).
  by destruct (lessThan _ _ _ _) as [? ?]; simpl in *; subst.
Qed.

Lemma not_after_row_le (fs : FileSorter) a b :
  key_fits fs a = true → key_fits fs b = true → not_after fs a b → row_le fs a b.
Proof. unfold not_after, row_le, row_lt. by intros -> ->. Qed.

(** With keys that fit, sorting the sorter is sorting its buffer with
    [row_lt]: nothing fails and nothing else changes. *)
Lemma run_sort_buffer p (fs0 : FileSorter) b :
  prog_in_range (length b) p →
  Forall (λ r, key_fits fs0 r = true) b →
  run_sort p (set_err None (set_buf b fs0))
  = set_err None (set_buf (@run_sort _ (list_sort (row_lt fs0)) p b) fs0).
Proof.
  revert b. induction p as [|i j k IH|i j k IH]; intros b Hr Hfit; simpl; [done| |].
  - destruct Hr as (Hi & Hj & Hk).
    destruct (lookup_lt_is_Some_2 b i Hi) as [x Hx].
    destruct (lookup_lt_is_Some_2 b j Hj) as [y Hy].
    unfold fs_Less, list_Less. simpl. rewrite Hx, Hy.
    assert (Hl : lessThan (sc fs0) (key x) (key y) (byDesc fs0) = (row_lt fs0 x y, None)).
    { apply (key_fits_lt fs0).
      - by apply (Forall_lookup_1 _ _ _ _ Hfit Hx).
      - by apply (Forall_lookup_1 _ _ _ _ Hfit Hy). }
    rewrite Hl. by apply IH.
  - destruct Hr as (Hi & Hj & Hk).
    destruct (lookup_lt_is_Some_2 b i Hi) as [x Hx].
    destruct (lookup_lt_is_Some_2 b j Hj) as [y Hy].
    unfold fs_Swap. simpl. rewrite Hx, Hy.
    assert (Hs : <[i:=y]> (<[j:=x]> b) = list_Swap b i j).
    { unfold list_Swap. by rewrite Hx, Hy. }
    rewrite Hs. apply (IH (list_Swap b i j)).
    + by rewrite list_Swap_length.
    + by rewrite list_Swap_perm.
Qed.

Lemma StronglySorted_on {B} (R R' : B → B → Prop) (P : B → Prop) l :
  (∀ a b, P a → P b → R a b → R' a b) → Forall P l →
  StronglySorted R l → StronglySorted R' l.
Proof.
  intros HR HP Hs. induction Hs as [|x l Hs IH Hx]; [constructor|].
  inversion HP as [|? ? Px Pl]; subst. constructor; [by apply IH|].
  rewrite Forall_forall in *. intros y Hy. apply HR; auto.
Qed.

Lemma strict_weak_Transitive {B} (lt : B → B → bool) :
  strict_weak lt → Transitive (λ a b, lt b a = false).
Proof. intros [_ Ht] a b c Hab Hbc. by eapply Ht. Qed.

(** What [sort.Sort(fs)] does to a sorter without a captured error. *)
Lemma sort_Sort_buffer `{!SortLibrary} `{!SortLibraryOk} (fs : FileSorter) :
  err fs = None →
  Forall (λ r, key_fits fs r = true) (buf fs) →
  ∃ sorted,
    sort_Sort fs = set_buf sorted fs
    ∧ sorted ≡ₚ buf fs
    ∧ StronglySorted (not_after fs) sorted.
Proof.
  intros He Hfit.
  exists (@run_sort _ (list_sort (row_lt fs)) (sort_algorithm (length (buf fs))) (buf fs)).
  split; [|split].
  - unfold sort_Sort. simpl. unfold fs_Len.
    pose proof (run_sort_buffer (sort_algorithm (length (buf fs))) fs (buf fs)
                  (sort_in_range _) Hfit) as Hrun.
    destruct fs; simpl in *; subst. exact Hrun.
  - apply run_sort_perm.
  - apply (@Sorted_StronglySorted _ _ (strict_weak_Transitive _ (row_lt_strict_weak fs))).
    apply (sort_sorts _ (row_lt fs) (buf fs)). apply row_lt_strict_weak.
Qed.

End SortBuffer.

(** ** Bytes and paths *)

Lemma Z_of_byte_of_Z z : Z_of_byte (byte_of_Z z) = z `mod` 256.
Proof.
  unfold Z_of_byte, byte_of_Z. pose proof (Z.mod_pos_bound z 256 eq_refl) as Hb.
  destruct (Byte.of_N (Z.to_N (z `mod` 256))) as [b|] eqn:E; simpl.
  - apply Byte.to_of_N in E. rewrite E. lia.
  - apply Byte.of_N_None_iff in E. lia.
Qed.

Lemma be_value_snoc l x : be_value (l ++ [x]) = be_value l * 256 + Z_of_byte x.
Proof. unfold be_value. by rewrite fold_left_app. Qed.

Lemma be_bytes_length n v : length (be_bytes n v) = n.
Proof.
  revert v. induction n as [|n IH]; intros v; simpl; [done|].
  rewrite length_app, IH. simpl. lia.
Qed.

Lemma be_value_bytes n v : be_value (be_bytes n v) = v `mod` 256 ^ Z.of_nat n.
Proof.
  revert v. induction n as [|n IH]; intros v.
  - simpl. by rewrite Z.mod_1_r.
  - cbn [be_bytes]. rewrite be_value_snoc, IH, Z_of_byte_of_Z.
    rewrite Nat2Z.inj_succ, Z.pow_succ_r by lia.
    rewrite (Z.rem_mul_r v 256 (256 ^ Z.of_nat n)) by lia. lia.
Qed.

Lemma header_roundtrip n :
  Z.of_nat n < 2 ^ 63 →
  length (PutUint64 (Z.of_nat n)) = 8%nat
  ∧ to_int64 (Uint64 (PutUint64 (Z.of_nat n))) = Z.of_nat n.
Proof.
  intros Hn. unfold PutUint64, Uint64. split; [apply be_bytes_length|].
  rewrite take_ge by (by rewrite be_bytes_length).
  rewrite be_value_bytes. change (256 ^ Z.of_nat 8) with (2 ^ 64).
  unfold to_int64. rewrite (Z.mod_small (Z.of_nat n)) by lia.
  rewrite Z.mod_small by lia. lia.
Qed.

Lemma split_path_cons c s :
  split_path (String c s) = None ↔ c ≠ slash ∧ split_path s = None.
Proof.
  simpl. destruct (split_path s) as [[d b]|]; [split; [done | by intros [_ ?]]|].
  destruct (Ascii.eqb_spec c slash); split; try done; try tauto.
Qed.

Lemma pretty_N_char_no_slash x : pretty_N_char x ≠ slash.
Proof. unfold pretty_N_char. by repeat case_match. Qed.

Lemma pretty_N_go_no_slash x s :
  split_path s = None → split_path (pretty_N_go x s) = None.
Proof.
  revert s. induction (N.lt_wf_0 x) as [x _ IH]; intros s Hs.
  assert (x = 0 ∨ 0 < x)%N as [->|?] by lia.
  - by rewrite pretty_N_go_0.
  - rewrite pretty_N_go_step by done. apply IH.
    { by apply N.div_lt. }
    apply split_path_cons. split; [apply pretty_N_char_no_slash | done].
Qed.

Lemma Itoa_no_slash n : split_path (strconv_Itoa n) = None.
Proof.
  unfold strconv_Itoa, pretty, pretty_nat, pretty, pretty_N.
  case_decide; [done|]. by apply pretty_N_go_no_slash.
Qed.

Lemma split_path_join d s :
  split_path s = None → split_path (d +:+ "/" +:+ s) = Some (d, s).
Proof.
  intros Hs. induction d as [|c d IH].
  - change (split_path (String slash s) = Some ("", s)).
    cbn [split_path]. by rewrite Hs.
  - change (split_path (String c (d +:+ "/" +:+ s)) = Some (String c d, s)).
    cbn [split_path]. by rewrite IH.
Qed.

Lemma path_Dir_Join d n : d ≠ "" → path_Dir (path_Join d (strconv_Itoa n)) = d.
Proof.
  intros Hd. unfold path_Dir, path_Join. rewrite decide_False by done.
  by rewrite split_path_join by apply Itoa_no_slash.
Qed.

Lemma string_app_inj d (x y : string) : d +:+ x = d +:+ y → x = y.
Proof. induction d as [|c d IH]; simpl; [done|]. intros [= H]. by apply IH. Qed.

Lemma string_app_ne d c (x : string) : d +:+ String c x ≠ d.
Proof. induction d as [|c' d IH]; simpl; [done|]. intros [= H]. by apply IH. Qed.

Lemma path_Join_inj d m n :
  path_Join d (strconv_Itoa m) = path_Join d (strconv_Itoa n) → m = n.
Proof.
  unfold path_Join, strconv_Itoa. case_decide.
  - apply pretty_nat_inj.
  - intros H0. apply string_app_inj in H0. apply (string_app_inj "/") in H0.
    by apply pretty_nat_inj.
Qed.

Lemma path_Join_ne d n : d ≠ "" → path_Join d (strconv_Itoa n) ≠ d.
Proof.
  intros Hd. unfold path_Join. rewrite decide_False by done. apply string_app_ne.
Qed.

(** ** One record, written and read back *)

Section Records.
Context `{!Collaborators} `{!CollaboratorsOk}.

Lemma encode_row_bytes (r : comparableRow) : encode_row r = (record_bytes r, None).
Proof.
  unfold encode_row, record_bytes, encode_body.
  pose proof (encode_total [] (key r)) as H1.
  destruct (EncodeKey [] (key r)) as [b1 e1]. simpl in *. subst e1.
  pose proof (encode_total b1 (val r)) as H2.
  destruct (EncodeKey b1 (val r)) as [b2 e2]. simpl in *. subst e2.
  pose proof (encode_total b2 [NewIntDatum (handle r)]) as H3.
  destruct (EncodeKey b2 [NewIntDatum (handle r)]) as [b3 e3]. simpl in *. by subst e3.
Qed.

Lemma encode_rows_bytes rows acc : encode_rows rows acc = (acc ++ run_bytes rows, None).
Proof.
  revert acc. induction rows as [|r rows IH]; intros acc; simpl.
  - by rewrite app_nil_r.
  - rewrite encode_row_bytes, IH. unfold run_bytes. simpl. by rewrite <- app_assoc.
Qed.

Lemma file_Read_prefix pre rest :
  file_Read (open_file (pre ++ rest)) (length pre) = (pre, None, open_file rest).
Proof.
  unfold file_Read, open_file. simpl. destruct pre as [|x pre]; [done|].
  simpl. by rewrite take_app_length, drop_app_length.
Qed.

Lemma slice_app_l {B} (l1 l2 : list B) :
  slice (l1 ++ l2) 0 (Z.of_nat (length l1)) = Some l1.
Proof.
  unfold slice. rewrite length_app.
  replace ((0 <=? 0) && (0 <=? Z.of_nat (length l1))
           && (Z.of_nat (length l1) <=? Z.of_nat (length l1 + length l2))) with true
    by (symmetry; rewrite !andb_true_iff, !Z.leb_le; lia).
  rewrite Z.sub_0_r, Nat2Z.id. change (Z.to_nat 0) with 0%nat.
  by rewrite drop_0, take_app_length.
Qed.

Lemma slice_app_r {B} (l1 l2 l3 : list B) n :
  n = Z.of_nat (length l1) →
  slice (l1 ++ l2 ++ l3) n (n + Z.of_nat (length l2)) = Some l2.
Proof.
  intros ->. unfold slice. rewrite !length_app.
  replace ((0 <=? Z.of_nat (length l1))
           && (Z.of_nat (length l1) <=? Z.of_nat (length l1) + Z.of_nat (length l2))
           && (Z.of_nat (length l1) + Z.of_nat (length l2)
               <=? Z.of_nat (length l1 + (length l2 + length l3)))) with true
    by (symmetry; rewrite !andb_true_iff, !Z.leb_le; lia).
  replace (Z.of_nat (length l1) + Z.of_nat (length l2) - Z.of_nat (length l1))
    with (Z.of_nat (length l2)) by lia.
  rewrite !Nat2Z.id, drop_app_length. by rewrite take_app_length.
Qed.

(** [fetchNextRow] on a run file that starts with the record of [r] returns
    [r] and leaves the file at the next record. *)
Lemma fetchNextRow_record (fs : FileSorter) i r rest :
  fds fs !! i = Some (open_file (record_bytes r ++ rest)) →
  row_readable fs r →
  fetchNextRow fs i = (Some r, None, set_fds (<[i := open_file rest]> (fds fs)) fs).
Proof.
  intros Hfd [(Hk & Hv & Hh & Hlen) Hroom]. unfold fetchNextRow. rewrite Hfd.
  destruct (header_roundtrip _ Hlen) as [Hl8 Hrt].
  unfold record_bytes. rewrite <- app_assoc.
  pose proof (file_Read_prefix (PutUint64 (Z.of_nat (length (encode_body r))))
                (encode_body r ++ rest)) as Hr1.
  rewrite Hl8 in Hr1. rewrite Hr1.
  cbv beta iota zeta delta [is_EOF]. rewrite Hl8.
  cbv beta iota zeta delta [negb Nat.eqb]. rewrite Hrt.
  replace (Z.of_nat (length (encode_body r)) <? 0) with false
    by (symmetry; apply Z.ltb_ge; lia).
  replace (alloc_limit <? Z.of_nat (length (encode_body r))) with false
    by (symmetry; apply Z.ltb_ge; lia).
  cbn [orb].
  rewrite Nat2Z.id, file_Read_prefix.
  cbv beta iota zeta. rewrite Z.eqb_refl.
  cbv beta iota zeta delta [negb].
  cbn [keySize valSize fds set_fds]. rewrite list_insert_insert_eq.
  rewrite <- Hk, <- Hv. unfold encode_body. rewrite codec_roundtrip.
  rewrite slice_app_l.
  rewrite (slice_app_r (key r) (val r) [NewIntDatum (handle r)]) by done.
  replace (Z.of_nat (length (key r ++ val r ++ [NewIntDatum (handle r)])))
    with (Z.of_nat (length (key r ++ val r)) + Z.of_nat (length [NewIntDatum (handle r)]))
    by (rewrite !length_app; cbn [length]; lia).
  replace (Z.of_nat (length (key r)) + Z.of_nat (length (val r)))
    with (Z.of_nat (length (key r ++ val r))) by (rewrite length_app; lia).
  pose proof (slice_app_r (key r ++ val r) [NewIntDatum (handle r)] []
                (Z.of_nat (length (key r ++ val r))) eq_refl) as Hs3.
  rewrite app_nil_r, <- app_assoc in Hs3. rewrite Hs3.
  rewrite int_datum by done. by destruct r.
Qed.

(** At the end of a run file [fetchNextRow] returns no row and no error. *)
Lemma fetchNextRow_end (fs : FileSorter) i :
  fds fs !! i = Some (open_file []) →
  fetchNextRow fs i = (None, None, set_fds (<[i := open_file []]> (fds fs)) fs).
Proof. intros Hfd. unfold fetchNextRow. by rewrite Hfd. Qed.

End Records.

(** ** The heap of rows *)

Section RowHeap.
Context `{!Collaborators} `{!CollaboratorsOk}.
#[local] Open Scope nat_scope.

Lemma item_lt_strict_weak (fs : FileSorter) : strict_weak (item_lt fs).
Proof.
  destruct (row_lt_strict_weak fs) as [Ha Ht]. split.
  - intros a b. apply Ha.
  - intros a b c. apply Ht.
Qed.

Lemma rh_Less_fit (fs : FileSorter) (l : list item) i j a b :
  l !! i = Some a → l !! j = Some b → item_fits fs a → item_fits fs b →
  rh_Less (mk_heap fs l) i j = (item_lt fs a b, mk_heap fs l).
Proof.
  intros Hi Hj Ha Hb. unfold rh_Less. cbn [ims mk_heap rh_sc rh_byDesc rh_err].
  rewrite Hi, Hj. by rewrite (key_fits_lt fs (value a) (value b) Ha Hb).
Qed.

Lemma rh_Swap_list (fs : FileSorter) (l : list item) i j :
  rh_Swap (mk_heap fs l) i j = mk_heap fs (list_Swap l i j).
Proof.
  unfold rh_Swap, list_Swap. cbn [ims mk_heap].
  by destruct (l !! i), (l !! j).
Qed.

Lemma list_Swap_fits (fs : FileSorter) (l : list item) i j :
  Forall (item_fits fs) l → Forall (item_fits fs) (list_Swap l i j).
Proof. intros Hl. by rewrite list_Swap_perm. Qed.

Lemma up_loop_rows (fs : FileSorter) fuel (l : list item) j :
  j < length l → Forall (item_fits fs) l →
  @up_loop rowHeap item rowHeap_heap fuel (mk_heap fs l) j
  = mk_heap fs (@up_loop (list item) item (list_heap (item_lt fs)) fuel l j).
Proof.
  revert l j. induction fuel as [|fuel IH]; intros l j Hj Hfit; [done|].
  cbn [up_loop]. destruct ((j - 1) / 2 =? j) eqn:Heq; [done|].
  apply Nat.eqb_neq in Heq.
  assert (0 < j) by (destruct j; [done|lia]).
  pose proof (parent_lt j ltac:(done)) as Hp.
  destruct (lookup_lt_is_Some_2 l j Hj) as [y Hy].
  destruct (lookup_lt_is_Some_2 l ((j - 1) / 2)) as [x Hx]; [lia|].
  cbn [Less Swap heap_sort_Interface rowHeap_heap rowHeap_sort list_heap list_sort].
  rewrite (rh_Less_fit fs l _ _ y x Hy Hx)
    by (by eapply (Forall_lookup_1 _ _ _ _ Hfit)).
  unfold list_Less. rewrite Hy, Hx.
  destruct (item_lt fs y x); cbn [negb]; [|done].
  rewrite rh_Swap_list. apply IH.
  - rewrite list_Swap_length. lia.
  - by apply list_Swap_fits.
Qed.

Lemma down_loop_rows (fs : FileSorter) fuel (l : list item) i n :
  n ≤ length l → Forall (item_fits fs) l →
  @down_loop rowHeap item rowHeap_heap fuel (mk_heap fs l) i n
  = (mk_heap fs (@down_loop (list item) item (list_heap (item_lt fs)) fuel l i n).1,
     (@down_loop (list item) item (list_heap (item_lt fs)) fuel l i n).2).
Proof.
  revert l i. induction fuel as [|fuel IH]; intros l i Hn Hfit; [done|].
  cbn [down_loop]. destruct (n <=? 2 * i + 1) eqn:Hleaf; [done|].
  apply Nat.leb_gt in Hleaf.
  destruct (lookup_lt_is_Some_2 l i) as [xi Hxi]; [lia|].
  destruct (lookup_lt_is_Some_2 l (2 * i + 1)) as [y1 Hy1]; [lia|].
  cbn [Less Swap heap_sort_Interface rowHeap_heap rowHeap_sort list_heap list_sort].
  assert (Hf : ∀ c y, l !! c = Some y → item_fits fs y).
  { intros c y Hc. by eapply (Forall_lookup_1 _ _ _ _ Hfit). }
  assert (∃ j yj,
    (if 2 * i + 1 + 1 <? n
     then let '(lt0, h) := rh_Less (mk_heap fs l) (2 * i + 1 + 1) (2 * i + 1) in
          (if lt0 then 2 * i + 1 + 1 else 2 * i + 1, h)
     else (2 * i + 1, mk_heap fs l)) = (j, mk_heap fs l)
    ∧ (if 2 * i + 1 + 1 <? n
       then let '(lt0, h) := list_Less (item_lt fs) l (2 * i + 1 + 1) (2 * i + 1) in
            (if lt0 then 2 * i + 1 + 1 else 2 * i + 1, h)
       else (2 * i + 1, l)) = (j, l)
    ∧ l !! j = Some yj ∧ j < n) as (j & yj & -> & -> & Hyj & Hjn).
  { destruct (Nat.ltb_spec (2 * i + 1 + 1) n) as [H2|H2].
    - destruct (lookup_lt_is_Some_2 l (2 * i + 1 + 1)) as [y2 Hy2]; [lia|].
      rewrite (rh_Less_fit fs l _ _ y2 y1 Hy2 Hy1) by eauto.
      unfold list_Less. rewrite Hy2, Hy1.
      destruct (item_lt fs y2 y1); eauto 10.
    - eauto 10. }
  rewrite (rh_Less_fit fs l _ _ yj xi Hyj Hxi) by eauto.
  unfold list_Less. rewrite Hyj, Hxi.
  destruct (item_lt fs yj xi); cbn [negb]; [|done].
  rewrite rh_Swap_list. apply IH.
  - by rewrite list_Swap_length.
  - by apply list_Swap_fits.
Qed.

(** [heap.Push] on the heap of rows keeps the heap in order and adds the
    item. *)
Lemma heap_Push_rows (fs : FileSorter) (l : list item) x :
  Forall (item_fits fs) l → item_fits fs x → heap_ok (item_lt fs) l →
  ∃ l', heap_Push (mk_heap fs l) x = mk_heap fs l'
        ∧ heap_ok (item_lt fs) l' ∧ l' ≡ₚ x :: l.
Proof.
  intros Hfit Hx Hok.
  destruct (item_lt_strict_weak fs) as [Ha Ht].
  destruct (heap_Push_ok (item_lt fs) Ha Ht l x Hok) as [Hok' Hperm].
  eexists. split; [|split; [exact Hok'|exact Hperm]].
  unfold heap_Push, up.
  cbn [Push Len heap_sort_Interface rowHeap_heap rowHeap_sort list_heap list_sort].
  unfold rh_Push, rh_Len. cbn [ims mk_heap set_ims rh_sc rh_byDesc rh_err].
  change {| rh_sc := sc fs; ims := l ++ [x]; rh_byDesc := byDesc fs; rh_err := None |}
    with (mk_heap fs (l ++ [x])).
  apply up_loop_rows.
  - change (length (l ++ [x]) - 1 < length (l ++ [x])).
    rewrite length_app. simpl. lia.
  - change (Forall (item_fits fs) (l ++ [x])).
    apply Forall_app. split; [done|]. by constructor.
Qed.

(** [heap.Pop] on a heap of rows in order returns a least item and leaves
    the others, in order. *)
Lemma heap_Pop_rows (fs : FileSorter) (l : list item) :
  Forall (item_fits fs) l → heap_ok (item_lt fs) l → l ≠ [] →
  ∃ r l', heap_Pop (mk_heap fs l) = (Some r, mk_heap fs l')
          ∧ heap_ok (item_lt fs) l' ∧ l ≡ₚ r :: l'
          ∧ Forall (λ y, item_lt fs y r = false) l'.
Proof.
  intros Hfit Hok Hne.
  destruct (item_lt_strict_weak fs) as [Ha Ht].
  destruct (heap_Pop_ok (item_lt fs) Ha Ht l Hok Hne) as (r & l' & Hpop & Hok' & Hperm & Hmin).
  exists r, l'. split; [|done].
  revert Hpop. unfold heap_Pop, down, slice_heap.
  cbn [Pop Len Swap heap_sort_Interface rowHeap_heap rowHeap_sort list_heap list_sort].
  unfold rh_Len. cbn [ims mk_heap].
  rewrite rh_Swap_list.
  rewrite down_loop_rows; [|by rewrite list_Swap_length; lia|by apply list_Swap_fits].
  destruct (@down_loop (list item) item (list_heap (item_lt fs)) (length l - 1)
              (list_Swap l 0 (length l - 1)) 0 (length l - 1)) as [l2 i2].
  cbn [fst snd]. unfold rh_Pop, list_Pop. cbn [ims mk_heap].
  destruct (l2 !! (length l2 - 1)); intros Hx; by simplify_eq.
Qed.

End RowHeap.

(** ** The input phase *)

Section InputPhase.
Context `{!Collaborators} `{!CollaboratorsOk} `{!SortLibrary} `{!SortLibraryOk}.

Lemma Build_fresh b (w : FileSystem) fs : Build b w = (Some fs, None) → fresh fs.
Proof.
  intros Hb. apply Build_success in Hb as [(Hsc & Hk & Hd & Hv & Hbuf & Hne & Hex) ->].
  unfold fresh. simpl. repeat split; done.
Qed.

Lemma row_fits_key (fs0 : FileSorter) r :
  fresh fs0 → row_fits fs0 r → key_fits fs0 r = true.
Proof.
  intros Hf (Hk & _). unfold key_fits. apply Nat.eqb_eq.
  destruct Hf as (_ & _ & _ & _ & _ & _ & _ & _ & _ & _ & Hd & _). lia.
Qed.

Lemma os_OpenFile_ok name (w : FileSystem) :
  w !! name ≠ Some Dir → w !! path_Dir name = Some Dir →
  os_OpenFile name w = (<[name := Reg []]> w, None).
Proof.
  intros Hn Hd. unfold os_OpenFile. rewrite Hd.
  by destruct (w !! name) as [[|c]|].
Qed.

Lemma file_Write_ok name b (w : FileSystem) old :
  w !! name = Some (Reg old) →
  file_Write name b w = (<[name := Reg (old ++ b)]> w, None).
Proof. intros Hn. unfold file_Write. by rewrite Hn. Qed.

(** A spill that meets no obstacle. *)
Lemma flushToFile_ok (fs : FileSorter) (w : FileSystem) :
  err fs = None →
  Forall (λ r, key_fits fs r = true) (buf fs) →
  tmpDir fs ≠ "" →
  workdir_ready w (tmpDir fs) →
  ∃ sorted,
    sorted ≡ₚ buf fs
    ∧ StronglySorted (not_after fs) sorted
    ∧ flushToFile fs w =
        (None,
         set_buf [] (set_files (files fs ++ [run_path fs (fileCount fs)])
                      (set_fileCount (S (fileCount fs)) fs)),
         <[run_path fs (fileCount fs) := Reg (run_bytes sorted)]> w).
Proof.
  intros He Hfit Hne [Hdir Hfree].
  destruct (sort_Sort_buffer fs He Hfit) as (sorted & Hsort & Hperm & Hsorted).
  exists sorted. split; [done|]. split; [done|].
  unfold flushToFile. rewrite Hsort.
  cbn [err set_buf]. rewrite He.
  unfold getUniqueFileName. cbn [tmpDir fileCount set_buf].
  fold (run_path fs (fileCount fs)).
  rewrite os_OpenFile_ok.
  2: { apply Hfree. }
  2: { unfold run_path. by rewrite path_Dir_Join. }
  cbn [buf set_buf set_fileCount]. rewrite encode_rows_bytes.
  rewrite (file_Write_ok _ _ _ []) by (by rewrite lookup_insert_eq).
  by rewrite insert_insert_eq.
Qed.

Lemma after_inputs_ready (fs0 : FileSorter) (w0 : FileSystem) runs b fs w :
  tmpDir fs0 ≠ "" → workdir_ready w0 (tmpDir fs0) →
  after_inputs fs0 w0 runs b fs w → workdir_ready w (tmpDir fs0).
Proof.
  intros Hne [Hdir Hfree] (_ & Hruns & Hframe). split.
  - rewrite Hframe; [done|]. intros i _ Heq. by apply (path_Join_ne _ i Hne).
  - intros n. destruct (decide (n < length runs)%nat) as [Hn|Hn].
    + destruct (lookup_lt_is_Some_2 runs n Hn) as [rs Hrs].
      fold (run_path fs0 n). by rewrite (Hruns _ _ Hrs).
    + fold (run_path fs0 n). rewrite Hframe; [apply Hfree|].
      intros i Hi Heq. apply path_Join_inj in Heq. lia.
Qed.

(** One accepted [Input], with room in the buffer. *)
Lemma Input_room k v h (fs : FileSorter) (w : FileSystem) :
  closed fs = false → fetched fs = false →
  Z.of_nat (length k) = keySize fs → Z.of_nat (length v) = valSize fs →
  Z.of_nat (length (buf fs)) < bufSize fs →
  Input k v h fs w = (None, set_buf (buf fs ++ [{| key := k; val := v; handle := h |}]) fs, w).
Proof.
  intros Hc Hf Hk Hv Hb. unfold Input. rewrite Hc, Hf, Hk, Hv, !Z.eqb_refl.
  cbn [negb]. by rewrite (proj2 (Z.leb_gt _ _) Hb).
Qed.

(** One accepted [Input] that has to spill first. *)
Lemma Input_full k v h (fs : FileSorter) (w : FileSystem) e fs1 w1 :
  closed fs = false → fetched fs = false →
  Z.of_nat (length k) = keySize fs → Z.of_nat (length v) = valSize fs →
  bufSize fs ≤ Z.of_nat (length (buf fs)) →
  flushToFile fs w = (e, fs1, w1) →
  Input k v h fs w =
    match e with
    | Some e => (Some e, fs1, w1)
    | None => (None, set_buf (buf fs1 ++ [{| key := k; val := v; handle := h |}]) fs1, w1)
    end.
Proof.
  intros Hc Hf Hk Hv Hb Hfl. unfold Input. rewrite Hc, Hf, Hk, Hv, !Z.eqb_refl.
  cbn [negb]. rewrite (proj2 (Z.leb_le _ _) Hb), Hfl. by destruct e.
Qed.

Lemma after_inputs_fresh (fs0 : FileSorter) (w0 : FileSystem) :
  fresh fs0 → after_inputs fs0 w0 [] [] fs0 w0.
Proof.
  intros (Hb & Hfi & _ & _ & _ & _ & _ & Hfc & _). split; [|split]; [|done|done].
  destruct fs0; simpl in *; by subst.
Qed.

Lemma after_inputs_extend (fs0 : FileSorter) (w0 : FileSystem) runs b fs w sorted r :
  after_inputs fs0 w0 runs b fs w →
  after_inputs fs0 w0 (runs ++ [sorted]) [r]
    (set_buf ([] ++ [r])
       (set_buf [] (set_files (files fs ++ [run_path fs (fileCount fs)])
                      (set_fileCount (S (fileCount fs)) fs))))
    (<[run_path fs (fileCount fs) := Reg (run_bytes sorted)]> w).
Proof.
  intros (-> & Hruns & Hframe). cbn [files fileCount set_fileCount set_files set_buf].
  change (run_path _ (length runs)) with (run_path fs0 (length runs)).
  split; [|split].
  - rewrite length_app. change (length [sorted]) with 1%nat.
    rewrite Nat.add_1_r, seq_S, List.map_app. reflexivity.
  - intros i rs Hi. destruct (decide (i = length runs)) as [->|Hne].
    + rewrite lookup_insert_eq. rewrite lookup_app_r, Nat.sub_diag in Hi by lia.
      by injection Hi as ->.
    + rewrite lookup_insert_ne by (intros Heq; by apply path_Join_inj in Heq).
      apply Hruns. rewrite lookup_app_l in Hi; [done|].
      apply lookup_lt_Some in Hi. rewrite length_app in Hi. simpl in Hi. lia.
  - intros p Hp. rewrite length_app in Hp. simpl in Hp.
    rewrite lookup_insert_ne by (intros Heq; apply (Hp (length runs)); [lia | done]).
    apply Hframe. intros i Hi. apply Hp. lia.
Qed.

(** A caller's [Input] calls, all with rows that fit: every call is
    accepted; the buffer is spilled, sorted, each time it is full. *)
Lemma Input_all_spec (fs0 : FileSorter) (w0 : FileSystem) :
  fresh fs0 → workdir_ready w0 (tmpDir fs0) →
  ∀ rows runs b fs w,
    after_inputs fs0 w0 runs b fs w →
    Forall (row_fits fs0) rows → Forall (row_fits fs0) b →
    Z.of_nat (length b) ≤ bufSize fs0 →
    ∃ runs' b' fs' w',
      Input_all rows fs w = (replicate (length rows) None, fs', w')
      ∧ after_inputs fs0 w0 (runs ++ runs') b' fs' w'
      ∧ Forall (row_fits fs0) b' ∧ Z.of_nat (length b') ≤ bufSize fs0
      ∧ Forall (full_run fs0) runs'
      ∧ concat runs' ++ b' ≡ₚ b ++ rows
      ∧ (b ≠ [] ∨ rows ≠ [] → b' ≠ []).
Proof.
  intros Hfresh Hready rows.
  pose proof Hfresh as (_ & _ & _ & Hc0 & Hf0 & _ & _ & _ & He0 & Hpos & _ & Hne).
  induction rows as [|r rows IH]; intros runs b fs w Hinv Hrows Hb Hlen.
  - exists [], b, fs, w. rewrite !app_nil_r.
    do 4 (split; [done|]). split; [constructor|]. split; [done|].
    intros [?|?]; done.
  - inversion Hrows as [|? ? Hr Hrows']; subst.
    pose proof Hinv as (Hfs & _ & _).
    assert (Hcl : closed fs = false) by (by rewrite Hfs).
    assert (Hfe : fetched fs = false) by (by rewrite Hfs).
    assert (Hbuf : buf fs = b) by (by rewrite Hfs).
    assert (Hks : keySize fs = keySize fs0) by (by rewrite Hfs).
    assert (Hvs : valSize fs = valSize fs0) by (by rewrite Hfs).
    assert (Hbs : bufSize fs = bufSize fs0) by (by rewrite Hfs).
    pose proof Hr as (Hk & Hv & Hh & Hbody).
    cbn [Input_all].
    destruct (decide (Z.of_nat (length b) < bufSize fs0)) as [Hroom|Hfull].
    + rewrite Input_room by (rewrite ?Hbuf; congruence).
      destruct (IH runs (b ++ [r])
                  (set_buf (buf fs ++ [{| key := key r; val := val r; handle := handle r |}]) fs) w)
        as (runs' & b' & fs' & w' & Hrun & Hinv' & Hb' & Hlen' & Hfull' & Hperm & Hnil).
      * destruct Hinv as (-> & Hi2 & Hi3). split; [|done]. by destruct r.
      * done.
      * apply Forall_app. split; [done|]. constructor; [done|constructor].
      * rewrite length_app. simpl. lia.
      * exists runs', b', fs', w'. rewrite Hrun.
        do 5 (split; [done|]). split; [by rewrite Hperm, <- app_assoc|].
        intros _. apply Hnil. left. by destruct b.
    + assert (Hfit : Forall (λ r, key_fits fs r = true) (buf fs)).
      { rewrite Hbuf. eapply Forall_impl; [exact Hb|].
        intros x Hx. rewrite Hfs. by apply (row_fits_key fs0). }
      destruct (flushToFile_ok fs w) as (sorted & Hperm & Hsorted & Hflush).
      { by rewrite Hfs. }
      { done. }
      { by rewrite Hfs. }
      { rewrite Hfs. by apply (after_inputs_ready fs0 w0 runs b fs w). }
      assert (Hk' : Z.of_nat (length (key r)) = keySize fs) by congruence.
      assert (Hv' : Z.of_nat (length (val r)) = valSize fs) by congruence.
      assert (Hb' : bufSize fs ≤ Z.of_nat (length (buf fs))) by (rewrite Hbuf; lia).
      rewrite (Input_full _ _ (handle r) _ _ _ _ _ Hcl Hfe Hk' Hv' Hb' Hflush).
      cbn [buf set_buf].
      destruct (IH (runs ++ [sorted]) [r]
                  (set_buf ([] ++ [{| key := key r; val := val r; handle := handle r |}])
                     (set_buf [] (set_files (files fs ++ [run_path fs (fileCount fs)])
                                    (set_fileCount (S (fileCount fs)) fs))))
                  (<[run_path fs (fileCount fs) := Reg (run_bytes sorted)]> w))
        as (runs' & b' & fs' & w' & Hrun & Hinv' & Hb'' & Hlen' & Hfull' & Hperm' & Hnil).
      * replace {| key := key r; val := val r; handle := handle r |} with r by (by destruct r).
        by apply (after_inputs_extend fs0 w0 runs b).
      * done.
      * constructor; [done|constructor].
      * simpl. lia.
      * exists (sorted :: runs'), b', fs', w'. rewrite Hrun.
        rewrite <- app_assoc in Hinv'.
        split; [done|]. split; [exact Hinv'|]. do 2 (split; [done|]).
        split.
        { constructor; [|done]. split.
          - rewrite Hperm, Hbuf. lia.
          - rewrite Hfs in Hsorted. exact Hsorted. }
        split.
        { simpl. rewrite <- app_assoc, Hperm', Hperm, Hbuf. done. }
        intros _. apply Hnil. by left.
Qed.

End InputPhase.

(** ** The output phase over run files *)

Section Merge.
Context `{!Collaborators} `{!CollaboratorsOk} `{!SortLibrary} `{!SortLibraryOk}.

Lemma not_after_trans (fs : FileSorter) a b c :
  not_after fs a b → not_after fs b c → not_after fs a c.
Proof.
  unfold not_after. destruct (row_lt_strict_weak fs) as [_ Ht]. apply Ht.
Qed.

Lemma concat_insert_cons {B} (rest : list (list B)) i r rs :
  rest !! i = Some (r :: rs) → concat rest ≡ₚ r :: concat (<[i := rs]> rest).
Proof.
  intros Hi. pose proof (lookup_lt_Some _ _ _ Hi) as Hlt.
  rewrite <- (take_drop_middle rest i (r :: rs) Hi) at 1.
  rewrite insert_take_drop by done.
  rewrite !concat_app. simpl.
  symmetry. apply Permutation_middle.
Qed.

(** Reading the next row of run [i]. *)
Lemma fetch_reading (fs : FileSorter) items (rest : list (list comparableRow)) i rs :
  rest !! i = Some rs → Forall (row_readable fs) rs →
  fetchNextRow (reading fs items rest) i =
    match rs with
    | [] => (None, None, reading fs items rest)
    | r :: rs' => (Some r, None, reading fs items (<[i := rs']> rest))
    end.
Proof.
  intros Hi Hfit.
  assert (Hfd : fds (reading fs items rest) !! i = Some (open_file (run_bytes rs))).
  { cbn [fds reading set_fds]. by rewrite list_lookup_fmap, Hi. }
  destruct rs as [|r rs'].
  - rewrite fetchNextRow_end by exact Hfd.
    unfold reading. cbn [fds set_fds set_rowHeap]. f_equal.
    rewrite list_insert_id; [done|]. by rewrite list_lookup_fmap, Hi.
  - inversion Hfit as [|? ? Hr Hrs]; subst.
    rewrite (fetchNextRow_record _ i r (run_bytes rs')).
    + unfold reading. cbn [fds set_fds set_rowHeap]. f_equal.
      by rewrite list_fmap_insert.
    + exact Hfd.
    + exact Hr.
Qed.

Lemma reading_set_rowHeap (fs : FileSorter) l l' rest :
  set_rowHeap (mk_heap fs l') (reading fs l rest) = reading fs l' rest.
Proof. reflexivity. Qed.

Lemma merge_inv_push (fs : FileSorter) k k' l rest i r rs' :
  keySize fs = Z.of_nat (length (byDesc fs)) →
  heap_ok (item_lt fs) l →
  Forall (item_fits fs) l →
  Forall (Forall (row_readable fs)) rest →
  NoDup (map index l) →
  (∀ it, it ∈ l →
     (index it < k)%nat
     ∧ ∃ rs, rest !! index it = Some rs ∧ Forall (not_after fs (value it)) rs) →
  Forall (StronglySorted (not_after fs)) rest →
  i ∉ map index l → (i < k')%nat → (k ≤ k')%nat →
  rest !! i = Some (r :: rs') →
  (∀ j rs, (j < k')%nat → j ≠ i → rest !! j = Some rs → j ∉ map index l → rs = []) →
  ∃ l', heap_Push (mk_heap fs l) {| index := i; value := r |} = mk_heap fs l'
    ∧ l' ≡ₚ {| index := i; value := r |} :: l
    ∧ merge_inv fs k' l' (<[i := rs']> rest).
Proof.
  intros Hks Hheap Hfit Hrows Hnd Hit Hsorted Hi Hik Hkk Hrest Hempty.
  assert (Hr : Forall (row_readable fs) (r :: rs')).
  { eapply Forall_lookup_1 in Hrows; eauto. }
  assert (Hs : StronglySorted (not_after fs) (r :: rs')).
  { eapply Forall_lookup_1 in Hsorted; eauto. }
  inversion Hr as [|? ? Hr1 Hr2]; subst.
  inversion Hs as [|? ? Hs1 Hs2]; subst.
  assert (Hx : item_fits fs {| index := i; value := r |}).
  { unfold item_fits, key_fits. cbn [value]. apply Nat.eqb_eq.
    destruct Hr1 as [[Hk _] _]. lia. }
  destruct (heap_Push_rows fs l _ Hfit Hx Hheap) as (l' & Hpush & Hheap' & Hperm).
  exists l'. split; [done|]. split; [done|].
  assert (Hlt := lookup_lt_Some _ _ _ Hrest).
  assert (Hidx : map index l' ≡ₚ i :: map index l).
  { change (i :: map index l) with (map index ({| index := i; value := r |} :: l)).
    by apply Permutation_map. }
  split; [done|]. split; [by rewrite Hperm; constructor|].
  split; [by apply Forall_insert|].
  split; [by rewrite Hidx; constructor|].
  split; [|split; [|by apply Forall_insert]].
  - intros it Hin. rewrite Hperm in Hin. apply elem_of_cons in Hin as [->|Hin].
    + cbn [index value]. split; [done|]. exists rs'. split; [|done].
      by rewrite list_lookup_insert_eq.
    + destruct (Hit _ Hin) as [Hlt' (rs & Hrs & Hle)].
      split; [lia|]. exists rs. split; [|done].
      rewrite list_lookup_insert_ne; [done|].
      intros Heq. apply Hi. rewrite Heq. apply list_elem_of_fmap. by exists it.
  - intros j rs Hj Hrs Hnot.
    assert (j ≠ i).
    { intros ->. apply Hnot. rewrite Hidx. left. }
    rewrite list_lookup_insert_ne in Hrs by done.
    apply (Hempty j rs); try done.
    intros Hin. apply Hnot. rewrite Hidx. by right.
Qed.

Lemma prime_loop_reading (fs : FileSorter) d :
  keySize fs = Z.of_nat (length (byDesc fs)) →
  ∀ k items rest,
  merge_inv fs k items rest →
  (k + d = length rest)%nat →
  (∀ j rs, (k ≤ j)%nat → rest !! j = Some rs → rs ≠ []) →
  ∃ items' rest',
    prime_loop (seq k d) (reading fs items rest) = (None, reading fs items' rest')
    ∧ merge_inv fs (length rest) items' rest'
    ∧ length rest' = length rest
    ∧ map value items' ++ concat rest' ≡ₚ map value items ++ concat rest.
Proof.
  intros Hks. induction d as [|d IH]; intros k items rest Hinv Hlen Hne.
  - exists items, rest. replace (length rest) with k by lia. done.
  - destruct (lookup_lt_is_Some_2 rest k) as [rs Hk]; [lia|].
    destruct rs as [|r rs']; [by destruct (Hne k [])|].
    destruct Hinv as (Hheap & Hfit & Hrows & Hnd & Hit & Hempty & Hsorted).
    assert (Hnot : k ∉ map index items).
    { intros Hin. apply list_elem_of_fmap in Hin as (it & -> & Hin).
      destruct (Hit _ Hin). lia. }
    destruct (merge_inv_push fs k (S k) items rest k r rs') as (l' & Hpush & Hperm & Hinv');
      try done; try lia.
    { intros j rs Hj Hjk. apply Hempty. lia. }
    destruct (IH (S k) l' (<[k := rs']> rest)) as (items' & rest' & Hloop & Hinv2 & Hlen2 & Hperm2).
    { done. }
    { rewrite length_insert. lia. }
    { intros j rs Hj. rewrite list_lookup_insert_ne by lia. apply Hne. lia. }
    exists items', rest'. rewrite length_insert in Hinv2, Hlen2.
    split; [|split; [done|split; [done|]]].
    + cbn [seq prime_loop].
      rewrite (fetch_reading fs items rest k (r :: rs')); [|done|].
      2: { eapply Forall_lookup_1 in Hrows; eauto. }
      change (fs_rowHeap (reading fs items (<[k := rs']> rest))) with (mk_heap fs items).
      cbv zeta. rewrite Hpush. cbn [rh_err mk_heap].
      rewrite reading_set_rowHeap. exact Hloop.
    + rewrite Hperm2. rewrite (Permutation_map value Hperm). cbn [map value].
      rewrite (concat_insert_cons rest k r rs' Hk).
      rewrite <- app_comm_cons. apply Permutation_middle.
Qed.

Lemma merge_step (fs : FileSorter) (w : FileSystem) x items rest :
  keySize fs = Z.of_nat (length (byDesc fs)) →
  closed fs = false → fetched fs = true → files fs ≠ [] →
  merge_inv fs (length rest) (x :: items) rest →
  ∃ y items' rest',
    Output (reading fs (x :: items) rest) w = (row_result (value y), reading fs items' rest', w)
    ∧ merge_inv fs (length rest') items' rest'
    ∧ length rest' = length rest
    ∧ map value (x :: items) ++ concat rest ≡ₚ value y :: map value items' ++ concat rest'
    ∧ Forall (not_after fs (value y)) (map value items' ++ concat rest').
Proof.
  intros Hks Hcl Hfe Hfiles (Hheap & Hfit & Hrows & Hnd & Hit & Hempty & Hsorted).
  destruct (heap_Pop_rows fs (x :: items) Hfit Hheap) as (y & l' & Hpop & Hheap' & Hperm & Hmin);
    [done|].
  assert (Hidx : map index (x :: items) ≡ₚ index y :: map index l').
  { by rewrite (Permutation_map index Hperm). }
  assert (Hy : y ∈ x :: items) by (rewrite Hperm; left).
  destruct (Hit y Hy) as [Hylt (rs & Hrs & Hyle)].
  assert (Hnd' : NoDup (index y :: map index l')) by (by rewrite <- Hidx).
  apply NoDup_cons in Hnd' as [Hynot Hnd'].
  assert (Hfit' : Forall (item_fits fs) (y :: l')) by (by rewrite <- Hperm).
  apply Forall_cons in Hfit' as [Hyfit Hfit'].
  assert (Hit' : ∀ it, it ∈ l' →
     (index it < length rest)%nat
     ∧ ∃ rs, rest !! index it = Some rs ∧ Forall (not_after fs (value it)) rs).
  { intros it Hin. apply Hit. rewrite Hperm. by right. }
  assert (Hrsfit : Forall (row_readable fs) rs).
  { eapply Forall_lookup_1 in Hrows; eauto. }
  (* every row still to come is not before [y] *)
  assert (Hcover : ∀ l'' rest', 
     Forall (λ it, not_after fs (value y) (value it)) l'' →
     (∀ j rs', rest' !! j = Some rs' → rs' = [] ∨ Forall (not_after fs (value y)) rs'
         ∨ ∃ it, it ∈ l'' ∧ Forall (not_after fs (value it)) rs') →
     Forall (not_after fs (value y)) (map value l'' ++ concat rest')).
  { intros l'' rest' Hl Hr. apply Forall_app. split.
    - apply Forall_fmap. exact Hl.
    - apply Forall_concat. apply Forall_lookup. intros j rs' Hj.
      destruct (Hr j rs' Hj) as [->|[?|(it & Hin & Hle)]]; [done|done|].
      eapply Forall_impl; [exact Hle|]. intros z Hz.
      eapply not_after_trans; [|exact Hz].
      eapply Forall_forall in Hl; eauto. }
  assert (Hminl : Forall (λ it, not_after fs (value y) (value it)) l').
  { eapply Forall_impl; [exact Hmin|]. intros it Hlt. exact Hlt. }
  assert (Hout : Output (reading fs (x :: items) rest) w =
    match rs with
    | [] => (row_result (value y), reading fs l' rest, w)
    | r :: rs' =>
        (row_result (value y),
         set_rowHeap (heap_Push (mk_heap fs l') {| index := index y; value := r |})
           (reading fs l' (<[index y := rs']> rest)), w)
    end).
  { unfold Output. change (closed (reading fs (x :: items) rest)) with (closed fs).
    rewrite Hcl.
    change (files (reading fs (x :: items) rest)) with (files fs).
    destruct (files fs) as [|f fl] eqn:Hf; [done|]. cbn [length Nat.eqb].
    unfold externalSort.
    change (fetched (reading fs (x :: items) rest)) with (fetched fs).
    rewrite Hfe. cbn [negb].
    change (fs_rowHeap (reading fs (x :: items) rest)) with (mk_heap fs (x :: items)).
    change (Len (mk_heap fs (x :: items))) with (length (x :: items)).
    cbn [length Nat.ltb Nat.leb].
    rewrite Hpop. cbv zeta. cbn [rh_err mk_heap].
    rewrite reading_set_rowHeap.
    rewrite (fetch_reading fs l' rest (index y) rs Hrs Hrsfit).
    destruct rs as [|r rs'].
    - reflexivity.
    - change (fs_rowHeap (reading fs l' (<[index y := rs']> rest))) with (mk_heap fs l').
      destruct (merge_inv_push fs (length rest) (length rest) l' rest (index y) r rs')
        as (l2 & Hpush & _); try done.
      { intros j rs0 Hj Hne Hj0 Hnot. apply (Hempty j rs0); try done.
        rewrite Hidx. intros Hin. apply elem_of_cons in Hin as [?|?]; done. }
      rewrite Hpush. cbn [rh_err mk_heap]. reflexivity. }
  destruct rs as [|r rs'].
  - exists y, l', rest. split; [done|]. split; [|split; [done|split]].
    + split; [done|]. split; [done|]. split; [done|]. split; [done|].
      split; [done|]. split; [|done].
      intros j rs0 Hj Hj0 Hnot.
      destruct (decide (j = index y)) as [->|Hne]; [congruence|].
      apply (Hempty j rs0); try done.
      rewrite Hidx. intros Hin. apply elem_of_cons in Hin as [?|?]; done.
    + by rewrite (Permutation_map value Hperm).
    + apply Hcover; [done|]. intros j rs0 Hj.
      destruct (decide (j ∈ map index l')) as [Hin|Hnin].
      * apply list_elem_of_fmap in Hin as (it & -> & Hin).
        destruct (Hit' it Hin) as [_ (rs1 & Hrs1 & Hle)].
        right; right. exists it. split; [done|]. congruence.
      * left. destruct (decide (j = index y)) as [->|Hne]; [congruence|].
        apply (Hempty j rs0); try done.
        { by apply lookup_lt_Some in Hj. }
        rewrite Hidx. intros Hin. apply elem_of_cons in Hin as [?|?]; done.
  - destruct (merge_inv_push fs (length rest) (length rest) l' rest (index y) r rs')
      as (l2 & Hpush & Hperm2 & Hinv2); try done.
    { intros j rs0 Hj Hne Hj0 Hnot. apply (Hempty j rs0); try done.
      rewrite Hidx. intros Hin. apply elem_of_cons in Hin as [?|?]; done. }
    exists y, l2, (<[index y := rs']> rest).
    rewrite Hpush in Hout. rewrite reading_set_rowHeap in Hout.
    rewrite length_insert.
    split; [done|]. split; [done|]. split; [done|]. split.
    + rewrite (Permutation_map value Hperm), (Permutation_map value Hperm2).
      cbn [map value]. rewrite (concat_insert_cons rest (index y) r rs' Hrs).
      apply perm_skip. rewrite <- app_comm_cons. symmetry. apply Permutation_middle.
    + inversion Hyle as [|? ? Hyr Hyrs]; subst.
      apply Hcover.
      * rewrite Hperm2. by constructor.
      * intros j rs0 Hj.
        destruct (decide (j = index y)) as [->|Hne].
        { rewrite list_lookup_insert_eq in Hj by done. right; left. congruence. }
        rewrite list_lookup_insert_ne in Hj by done.
        destruct (decide (j ∈ map index l')) as [Hin|Hnin].
        -- apply list_elem_of_fmap in Hin as (it & -> & Hin).
           destruct (Hit' it Hin) as [_ (rs1 & Hrs1 & Hle)].
           right; right. exists it. split; [rewrite Hperm2; by right|]. congruence.
        -- left. apply (Hempty j rs0); try done.
           { by apply lookup_lt_Some in Hj. }
           rewrite Hidx. intros Hin. apply elem_of_cons in Hin as [?|?]; done.
Qed.

Lemma merge_done (fs : FileSorter) (w : FileSystem) rest :
  closed fs = false → fetched fs = true → files fs ≠ [] →
  Output (reading fs [] rest) w = (end_of_data, reading fs [] rest, w).
Proof.
  intros Hcl Hfe Hfiles.
  unfold Output. change (closed (reading fs [] rest)) with (closed fs).
  rewrite Hcl.
  change (files (reading fs [] rest)) with (files fs).
  destruct (files fs) as [|f fl] eqn:Hf; [done|]. cbn [length Nat.eqb].
  unfold externalSort.
  change (fetched (reading fs [] rest)) with (fetched fs).
  rewrite Hfe. reflexivity.
Qed.

Lemma Output_n_app (n m : nat) (fs : FileSorter) (w : FileSystem) :
  Output_n (n + m) fs w =
    let '(rs, fs1, w1) := Output_n n fs w in
    let '(rs', fs2, w2) := Output_n m fs1 w1 in (rs ++ rs', fs2, w2).
Proof.
  revert fs w. induction n as [|n IH]; intros fs w.
  - cbn [Nat.add Output_n]. by destruct (Output_n m fs w) as [[rs fs1] w1].
  - cbn [Nat.add Output_n]. destruct (Output fs w) as [[r fs1] w1].
    rewrite IH. destruct (Output_n n fs1 w1) as [[rs fs2] w2].
    by destruct (Output_n m fs2 w2) as [[rs' fs3] w3].
Qed.

Lemma Output_n_first (n : nat) (fs fs' : FileSorter) (w w' : FileSystem) :
  Output fs w = Output fs' w' → Output_n (S n) fs w = Output_n (S n) fs' w'.
Proof. intros Heq. cbn [Output_n]. by rewrite Heq. Qed.

Lemma merge_done_n (fs : FileSorter) (w : FileSystem) rest m :
  closed fs = false → fetched fs = true → files fs ≠ [] →
  Output_n m (reading fs [] rest) w = (replicate m end_of_data, reading fs [] rest, w).
Proof.
  intros Hcl Hfe Hfiles. induction m as [|m IH]; [done|].
  cbn [Output_n]. rewrite merge_done by done. by rewrite IH.
Qed.

Lemma merge_drain (fs : FileSorter) (w : FileSystem) :
  keySize fs = Z.of_nat (length (byDesc fs)) →
  closed fs = false → fetched fs = true → files fs ≠ [] →
  ∀ n items rest,
  merge_inv fs (length rest) items rest →
  length (map value items ++ concat rest) = n →
  ∃ out rest',
    Output_n n (reading fs items rest) w = (map row_result out, reading fs [] rest', w)
    ∧ length rest' = length rest
    ∧ out ≡ₚ map value items ++ concat rest
    ∧ StronglySorted (not_after fs) out.
Proof.
  intros Hks Hcl Hfe Hfiles. induction n as [|n IH]; intros items rest Hinv Hn.
  - destruct items as [|x items]; [|done].
    exists [], rest. cbn [Output_n].
    split; [done|]. split; [done|]. split; [|constructor].
    cbn [map app] in Hn |- *. by destruct (concat rest).
  - destruct items as [|x items].
    { exfalso. destruct Hinv as (_ & _ & _ & _ & _ & Hempty & _).
      cbn [map app] in Hn.
      assert (Hall : Forall (λ rs, rs = []) rest).
      { apply Forall_lookup. intros j rs Hj. apply (Hempty j rs); [|done|].
        - by apply lookup_lt_Some in Hj.
        - apply not_elem_of_nil. }
      assert (concat rest = []); [|by destruct (concat rest)].
      clear -Hall. induction Hall as [|? ? -> ? IHa]; [done|]. done. }
    destruct (merge_step fs w x items rest) as (y & items' & rest' & Hout & Hinv' & Hlen & Hperm & Hmin);
      try done.
    destruct (IH items' rest') as (out & rest2 & Hrun & Hlen2 & Hperm2 & Hsort).
    { done. }
    { apply Permutation_length in Hperm. cbn [length] in Hperm. lia. }
    exists (value y :: out), rest2.
    split; [|split; [lia|split]].
    + cbn [Output_n]. rewrite Hout. rewrite Hrun. reflexivity.
    + rewrite Hperm. by apply perm_skip.
    + constructor; [done|]. by rewrite Hperm2.
Qed.

Lemma after_inputs_flush (fs0 : FileSorter) (w0 : FileSystem) runs b fs w sorted :
  after_inputs fs0 w0 runs b fs w →
  after_inputs fs0 w0 (runs ++ [sorted]) []
    (set_buf [] (set_files (files fs ++ [run_path fs (fileCount fs)])
                   (set_fileCount (S (fileCount fs)) fs)))
    (<[run_path fs (fileCount fs) := Reg (run_bytes sorted)]> w).
Proof.
  intros (-> & Hruns & Hframe). cbn [files fileCount set_fileCount set_files set_buf].
  change (run_path _ (length runs)) with (run_path fs0 (length runs)).
  split; [|split].
  - rewrite length_app. change (length [sorted]) with 1%nat.
    rewrite Nat.add_1_r, seq_S, List.map_app. reflexivity.
  - intros i rs Hi. destruct (decide (i = length runs)) as [->|Hne].
    + rewrite lookup_insert_eq. rewrite lookup_app_r, Nat.sub_diag in Hi by lia.
      by injection Hi as ->.
    + rewrite lookup_insert_ne by (intros Heq; by apply path_Join_inj in Heq).
      apply Hruns. rewrite lookup_app_l in Hi; [done|].
      apply lookup_lt_Some in Hi. rewrite length_app in Hi. simpl in Hi. lia.
  - intros p Hp. rewrite length_app in Hp. simpl in Hp.
    rewrite lookup_insert_ne by (intros Heq; apply (Hp (length runs)); [lia | done]).
    apply Hframe. intros i Hi. apply Hp. lia.
Qed.

Lemma externalSort_prime_spec (fs0 : FileSorter) (w0 : FileSystem) runs b fs w :
  fresh fs0 → workdir_ready w0 (tmpDir fs0) →
  after_inputs fs0 w0 runs b fs w →
  b ≠ [] → Forall (row_readable fs0) b →
  Forall (Forall (row_readable fs0)) runs →
  Forall (StronglySorted (not_after fs0)) runs →
  Forall (λ rs, rs ≠ []) runs →
  ∃ items rest sorted,
    externalSort_prime fs w =
      (None, reading (merge_state fs0 (S (length runs))) items rest,
       <[run_path fs0 (length runs) := Reg (run_bytes sorted)]> w)
    ∧ sorted ≡ₚ b
    ∧ length rest = S (length runs)
    ∧ merge_inv fs0 (length rest) items rest
    ∧ map value items ++ concat rest ≡ₚ concat runs ++ b.
Proof.
  intros Hfresh Hready Hinv Hb Hbfit Hfit Hsorted Hne.
  pose proof Hfresh as (_ & _ & _ & Hc0 & Hf0 & Hheap0 & Hfds0 & _ & He0 & Hpos & Hks & Hdir).
  pose proof Hinv as (Hfs & _ & _).
  assert (Hbuf : buf fs = b) by (by rewrite Hfs).
  assert (Hkfit : Forall (λ r, key_fits fs r = true) (buf fs)).
  { rewrite Hbuf. eapply Forall_impl; [exact Hbfit|].
    intros x [Hx _]. rewrite Hfs. by apply (row_fits_key fs0). }
  destruct (flushToFile_ok fs w) as (sorted & Hperm & Hsort & Hflush).
  { by rewrite Hfs. }
  { done. }
  { by rewrite Hfs. }
  { rewrite Hfs. by apply (after_inputs_ready fs0 w0 runs b fs w). }
  pose proof (after_inputs_flush fs0 w0 runs b fs w sorted Hinv) as (Hfs1 & Hdisk1 & _).
  rewrite Hbuf in Hperm.
  set (runs1 := runs ++ [sorted]) in *.
  assert (Hlen1 : length runs1 = S (length runs)).
  { unfold runs1. rewrite length_app. simpl. lia. }
  assert (Hinv0 : merge_inv fs0 0 [] runs1).
  { split; [|split; [constructor|split; [|split; [constructor|split; [|split]]]]].
    - intros c x y Hc. simpl in Hc. lia.
    - apply Forall_app. split; [done|]. constructor; [|constructor]. by rewrite Hperm.
    - intros it Hin. by apply not_elem_of_nil in Hin.
    - intros i rs Hi. lia.
    - apply Forall_app. split; [done|]. constructor; [|constructor].
      rewrite Hfs in Hsort. exact Hsort. }
  set (fsX := set_fileCount (length runs1)
                (set_files (map (run_path fs0) (seq 0 (length runs1))) (set_buf [] fs0))) in *.
  destruct (prime_loop_reading fsX (length runs1) Hks 0%nat [] runs1 Hinv0)
    as (items & rest & Hprime & Hinv1 & Hlen2 & Hperm1).
  { done. }
  { intros j rs _ Hj. unfold runs1 in Hj.
    apply lookup_app_Some in Hj as [Hj|[_ Hj]].
    - eapply Forall_lookup_1 in Hne; eauto.
    - apply list_lookup_singleton_Some in Hj as [_ <-].
      intros ->. apply Permutation_nil in Hperm. done. }
  exists items, rest, sorted.
  split; [|split; [done|split; [lia|split; [by rewrite Hlen2|]]]].
  2: { rewrite Hperm1. cbn [map app]. unfold runs1. rewrite concat_app. simpl.
       by rewrite app_nil_r, Hperm. }
  unfold externalSort_prime. rewrite Hbuf.
  destruct b as [|b1 b]; [done|]. cbn [length Nat.ltb Nat.leb].
  rewrite Hflush. cbv zeta. rewrite Hfs1.
  change (fs_rowHeap fsX) with (fs_rowHeap fs0).
  rewrite Hheap0. rewrite heap_Init_empty by done. cbn [rh_err].
  unfold openAllFiles.
  rewrite (openAllFiles_loop_ok _ _ _ (map run_bytes runs1)).
  2: { cbn [files set_rowHeap set_fileCount set_files set_buf].
       apply Forall2_fmap. apply Forall2_lookup. intros i.
       destruct (runs1 !! i) as [rs|] eqn:Hi.
       - rewrite lookup_seq_lt by (by apply lookup_lt_Some in Hi).
         constructor. by apply Hdisk1.
       - rewrite lookup_seq_ge by (by apply lookup_ge_None in Hi). constructor. }
  change (fds (set_rowHeap _ fsX)) with (fds fs0). rewrite Hfds0.
  cbn [app]. rewrite map_map.
  assert (Heq : set_fds (map (λ x, {| f_data := run_bytes x; f_dir := false; f_closed := false |}) runs1)
            (set_rowHeap {| rh_sc := sc fs0; ims := []; rh_byDesc := byDesc fs0; rh_err := None |} fsX)
          = reading fsX [] runs1) by reflexivity.
  rewrite Heq.
  unfold reading at 1. cbn [fds set_fds]. 
  rewrite length_map. rewrite Hprime.
  replace (run_path fs (fileCount fs)) with (run_path fs0 (length runs)) by (by rewrite Hfs).
  unfold fsX. rewrite Hlen1. reflexivity.
Qed.

Lemma Output_after_prime (fs fs' : FileSorter) (w w' : FileSystem) :
  closed fs = false → files fs ≠ [] → fetched fs = false →
  externalSort_prime fs w = (None, fs', w') →
  closed fs' = false → files fs' ≠ [] → fetched fs' = true →
  Output fs w = Output fs' w'.
Proof.
  intros Hcl Hfi Hfe Hprime Hcl' Hfi' Hfe'. unfold Output.
  rewrite Hcl, Hcl'.
  destruct (files fs) as [|f l]; [done|]. destruct (files fs') as [|f' l']; [done|].
  cbn [length Nat.eqb]. unfold externalSort. rewrite Hfe, Hfe'. cbn [negb].
  by rewrite Hprime.
Qed.

Lemma internal_output (fs : FileSorter) (w : FileSystem) :
  closed fs = false → files fs = [] → fetched fs = true →
  Output fs w =
    match buf fs !! cursor fs with
    | Some r => (row_result r, set_cursor (S (cursor fs)) fs, w)
    | None => (end_of_data, fs, w)
    end.
Proof.
  intros Hcl Hfi Hfe. unfold Output. rewrite Hcl, Hfi. cbn [length Nat.eqb].
  unfold internalSort. rewrite Hfe. cbn [negb].
  by destruct (buf fs !! cursor fs).
Qed.

Lemma internal_first (fs : FileSorter) (w : FileSystem) sorted :
  closed fs = false → files fs = [] → fetched fs = false → err fs = None →
  sort_Sort fs = set_buf sorted fs →
  Output fs w = Output (set_fetched true (set_buf sorted fs)) w.
Proof.
  intros Hcl Hfi Hfe He Hsort.
  rewrite (internal_output (set_fetched true (set_buf sorted fs))) by done.
  unfold Output. rewrite Hcl, Hfi. cbn [length Nat.eqb].
  unfold internalSort. rewrite Hfe. cbn [negb]. cbv zeta. rewrite Hsort.
  change (err (set_buf sorted fs)) with (err fs). rewrite He.
  by destruct (buf (set_fetched true (set_buf sorted fs))
                 !! cursor (set_fetched true (set_buf sorted fs))).
Qed.

Lemma internal_drain (w : FileSystem) n :
  ∀ fs, closed fs = false → files fs = [] → fetched fs = true →
  (cursor fs + n = length (buf fs))%nat →
  Output_n n fs w =
    (map row_result (drop (cursor fs) (buf fs)), set_cursor (length (buf fs)) fs, w).
Proof.
  induction n as [|n IH]; intros fs Hcl Hfi Hfe Hn.
  - cbn [Output_n]. rewrite drop_ge by lia. cbn [map].
    rewrite Nat.add_0_r in Hn. rewrite <- Hn. by destruct fs.
  - cbn [Output_n]. rewrite internal_output by done.
    destruct (lookup_lt_is_Some_2 (buf fs) (cursor fs)) as [r Hr]; [lia|].
    rewrite Hr. rewrite (IH (set_cursor (S (cursor fs)) fs)); try done.
    2: { cbn [cursor buf set_cursor]. lia. }
    cbn [cursor buf set_cursor].
    rewrite (drop_S _ _ _ Hr). reflexivity.
Qed.

Lemma internal_done (w : FileSystem) m :
  ∀ fs, closed fs = false → files fs = [] → fetched fs = true →
  (length (buf fs) ≤ cursor fs)%nat →
  Output_n m fs w = (replicate m end_of_data, fs, w).
Proof.
  induction m as [|m IH]; intros fs Hcl Hfi Hfe Hn; [done|].
  cbn [Output_n]. rewrite internal_output by done.
  rewrite lookup_ge_None_2 by lia. by rewrite IH.
Qed.

Lemma full_runs_length (fs0 : FileSorter) (runs : list (list comparableRow)) :
  Forall (full_run fs0) runs →
  Z.of_nat (length (concat runs)) = bufSize fs0 * Z.of_nat (length runs).
Proof.
  induction 1 as [|rs runs [Hlen _] _ IH]; [simpl; lia|].
  cbn [concat]. rewrite length_app. cbn [length]. lia.
Qed.

(** A whole session on a sorter fresh from [Build]: the rows are accepted,
    the first [length rows] calls of [Output] give them back in order and
    every later call reports the end of the data. *)
Lemma sort_session (fs0 : FileSorter) (w0 : FileSystem) rows m :
  fresh fs0 → workdir_ready w0 (tmpDir fs0) → Forall (row_readable fs0) rows →
  ∃ out fs1 w1 fs2 w2,
    Input_all rows fs0 w0 = (replicate (length rows) None, fs1, w1)
    ∧ Output_n (length rows + m) fs1 w1 =
        (map row_result out ++ replicate m end_of_data, fs2, w2)
    ∧ out ≡ₚ rows
    ∧ StronglySorted (row_le fs0) out
    ∧ ∃ sorted, sorted ≡ₚ buf fs1
        ∧ w2 = match files fs1 with
               | [] => w1
               | _ => <[run_path fs0 (length (files fs1)) := Reg (run_bytes sorted)]> w1
               end.
Proof.
  intros Hfresh Hready Hread.
  assert (Hrows : Forall (row_fits fs0) rows).
  { eapply Forall_impl; [exact Hread|]. by intros r [? _]. }
  pose proof Hfresh as (_ & _ & Hcur0 & Hc0 & Hf0 & Hheap0 & Hfds0 & _ & He0 & Hpos & Hks & Hdir).
  destruct (Input_all_spec fs0 w0 Hfresh Hready rows [] [] fs0 w0)
    as (runs & b & fs1 & w1 & Hin & Hinv & Hb & Hblen & Hfull & Hperm & Hnil);
    [by apply after_inputs_fresh|done|constructor|simpl; lia|].
  cbn [app] in Hinv, Hperm.
  pose proof Hinv as (Hfs1 & _ & _).
  assert (Hkeys : ∀ out, out ≡ₚ rows → Forall (λ r, key_fits fs0 r = true) out).
  { intros out ->. eapply Forall_impl; [exact Hrows|]. intros r. by apply row_fits_key. }
  assert (Hle : ∀ out, out ≡ₚ rows → StronglySorted (not_after fs0) out →
                        StronglySorted (row_le fs0) out).
  { intros out Hp. apply (StronglySorted_on _ _ (λ r, key_fits fs0 r = true)); [|by apply Hkeys].
    intros x y. apply not_after_row_le. }
  destruct runs as [|run1 runs].
  - (* everything is in the buffer *)
    cbn [concat app] in Hperm.
    assert (Hfit : Forall (λ r, key_fits fs1 r = true) (buf fs1)).
    { rewrite Hfs1. cbn [buf set_fileCount set_files set_buf]. by apply Hkeys. }
    destruct (sort_Sort_buffer fs1) as (sorted & Hsort & Hsperm & Hsorted);
      [by rewrite Hfs1|done|].
    assert (Hbuf1 : buf fs1 = b) by (by rewrite Hfs1).
    rewrite Hbuf1 in Hsperm.
    set (st := set_fetched true (set_buf sorted fs1)).
    assert (Hcl : closed st = false) by (unfold st; by rewrite Hfs1).
    assert (Hfi : files st = []) by (unfold st; by rewrite Hfs1).
    assert (Hfe : fetched st = true) by done.
    assert (Hcu : cursor st = 0%nat) by (unfold st; by rewrite Hfs1).
    assert (Hlen : length sorted = length rows) by (by rewrite Hsperm, Hperm).
    exists sorted, fs1, w1.
    assert (Hst : ∃ fs2, Output_n (length rows + m) st w1 =
              (map row_result sorted ++ replicate m end_of_data, fs2, w1)).
    { rewrite Output_n_app.
      rewrite (internal_drain w1 (length rows) st Hcl Hfi Hfe).
      2: { rewrite Hcu. cbn [st buf set_fetched set_buf]. lia. }
      rewrite Hcu. cbn [drop]. change (buf st) with sorted.
      rewrite internal_done; [by eexists|done|done|done|].
      cbn [cursor buf set_cursor]. change (buf st) with sorted. lia. }
    destruct Hst as [fs2 Hst].
    destruct (length rows + m)%nat as [|k] eqn:Hk.
    + exists fs1, w1. split; [done|].
      destruct rows; [|done]. destruct m; [|done].
      symmetry in Hperm. apply Permutation_nil in Hperm as ->.
      symmetry in Hsperm. apply Permutation_nil in Hsperm as ->.
      split; [done|]. split; [done|]. split; [constructor|].
      exists []. by rewrite Hfs1.
    + exists fs2, w1. split; [done|]. split.
      * rewrite <- Hst. apply Output_n_first.
        apply internal_first;
          [by rewrite Hfs1|by rewrite Hfs1|by rewrite Hfs1|by rewrite Hfs1|exact Hsort].
      * split; [by rewrite Hsperm|]. split.
        { apply Hle; [by rewrite Hsperm|]. rewrite Hfs1 in Hsorted. exact Hsorted. }
        exists b. by rewrite Hfs1.
  - (* the rows went to run files *)
    set (runs1 := run1 :: runs) in *.
    assert (Hpos1 : runs1 ≠ []) by done.
    assert (Hne : Forall (λ rs : list comparableRow, rs ≠ []) runs1).
    { eapply Forall_impl; [exact Hfull|]. intros rs [Hl _] ->. simpl in Hl. lia. }
    assert (Hrne : rows ≠ []).
    { intros ->. symmetry in Hperm. apply Permutation_nil in Hperm.
      apply app_eq_nil in Hperm as [Hcat _]. 
      inversion Hne as [|? ? Hx _]; subst. cbn [concat] in Hcat.
      apply app_eq_nil in Hcat as [? _]. done. }
    assert (Hall : Forall (row_readable fs0) (concat runs1 ++ b)) by (by rewrite Hperm).
    apply Forall_app in Hall as [Hall Hbread].
    destruct (externalSort_prime_spec fs0 w0 runs1 b fs1 w1)
      as (items & rest & sorted & Hprime & Hsperm & Hlen & Hminv & Hperm1); try done.
    { apply Hnil. by right. }
    { by apply Forall_concat. }
    { eapply Forall_impl; [exact Hfull|]. by intros rs [_ ?]. }
    set (fsm := merge_state fs0 (S (length runs1))) in *.
    assert (Hmks : keySize fsm = Z.of_nat (length (byDesc fsm))) by exact Hks.
    assert (Hmcl : closed fsm = false) by exact Hc0.
    assert (Hmfe : fetched fsm = true) by done.
    assert (Hmfi : files fsm ≠ []) by done.
    destruct (merge_drain fsm (<[run_path fs0 (length runs1) := Reg (run_bytes sorted)]> w1)
                Hmks Hmcl Hmfe Hmfi (length rows) items rest)
      as (out & rest' & Hdrain & _ & Hoperm & Hosort).
    { exact Hminv. }
    { by rewrite Hperm1, Hperm. }
    exists out, fs1, w1. eexists _, _. split; [done|].
    rewrite Hperm1, Hperm in Hoperm.
    split; [|split; [done|split; [by apply Hle|]]].
    2: { exists sorted. rewrite Hfs1. cbn [buf files set_fileCount set_files set_buf].
         split; [done|]. rewrite length_map, length_seq. reflexivity. }
    destruct rows as [|r rows]; [done|].
    change (length (r :: rows) + m)%nat with (S (length rows + m)).
    rewrite (Output_n_first _ fs1 (reading fsm items rest) w1
               (<[run_path fs0 (length runs1) := Reg (run_bytes sorted)]> w1)).
    2: { apply Output_after_prime; try done; by rewrite Hfs1. }
    change (S (length rows + m)) with (length (r :: rows) + m)%nat.
    rewrite Output_n_app, Hdrain.
    rewrite merge_done_n by done. reflexivity.
Qed.

End Merge.

(** ** The comparator, spills, whole sessions and [Close] *)

(** As before, the comparison of datums, the codec and [sort.Sort] are
    taken with what they promise ([CollaboratorsOk], [SortLibraryOk]). *)

Section Sessions.
Context `{!Collaborators} `{!CollaboratorsOk} `{!SortLibrary} `{!SortLibraryOk}.

(** X1. On keys that have one datum per direction flag, with a comparison
    of datums that cannot fail and is a total preorder, [lessThan] returns no
    error and is a strict weak order: nothing is less than itself, it is
    asymmetric, and "not less than" is transitive. *)
Theorem lessThan_strict_weak_order sc byDesc a b c :
  length a = length byDesc → length b = length byDesc → length c = length byDesc →
  (lessThan sc a b byDesc).2 = None
  ∧ (lessThan sc a a byDesc).1 = false
  ∧ ((lessThan sc a b byDesc).1 = true → (lessThan sc b a byDesc).1 = false)
  ∧ ((lessThan sc b a byDesc).1 = false → (lessThan sc c b byDesc).1 = false →
     (lessThan sc c a byDesc).1 = false).
Proof.
  intros Ha Hb Hc. split; [by apply lessThan_no_error|]. split; [|split].
  - destruct (lessThan sc a a byDesc).1 eqn:E; [|done].
    pose proof (lessThan_asym sc byDesc a a Ha Ha E). congruence.
  - by apply lessThan_asym.
  - by apply lessThan_trans.
Qed.

(** X2. Reversing every direction flag reverses the order: on keys of the
    schema's length, [lessThan] with the flags negated gives for [a], [b]
    what it gives with the flags as they are for [b], [a]. *)
Theorem lessThan_descending sc byDesc :
  ∀ a b, length a = length byDesc → length b = length byDesc →
  lessThan sc a b (map negb byDesc) = lessThan sc b a byDesc.
Proof.
  induction byDesc as [|desc byDesc IH]; intros a b Ha Hb; [done|].
  destruct a as [|x a]; [done|]. destruct b as [|y b]; [done|].
  cbn [map]. rewrite !lessThan_cons. cbv zeta.
  injection Ha as Ha. injection Hb as Hb. rewrite (IH a b Ha Hb).
  pose proof (compare_flip sc x y) as (Hlt & Heq & Hgt).
  destruct desc; cbn [negb];
    repeat (match goal with |- context [?u <? ?v] => destruct (Z.ltb_spec u v) end);
    try reflexivity; lia.
Qed.

Lemma run_sort_sticky p (fs : FileSorter) e :
  err fs = Some e → prog_in_range (length (buf fs)) p →
  ∃ b, run_sort p fs = set_buf b fs ∧ b ≡ₚ buf fs.
Proof.
  revert fs. induction p as [|i j k IH|i j k IH]; intros fs He Hr.
  - exists (buf fs). split; [by destruct fs|done].
  - destruct Hr as (Hi & Hj & Hk).
    destruct (lookup_lt_is_Some_2 (buf fs) i Hi) as [a Ha].
    destruct (lookup_lt_is_Some_2 (buf fs) j Hj) as [b Hb].
    cbn [run_sort Less FileSorter_sort]. unfold fs_Less. rewrite Ha, Hb. cbv zeta.
    destruct (lessThan (sc fs) (key a) (key b) (byDesc fs)) as [lt e']. rewrite He.
    by apply IH.
  - destruct Hr as (Hi & Hj & Hk).
    destruct (lookup_lt_is_Some_2 (buf fs) i Hi) as [a Ha].
    destruct (lookup_lt_is_Some_2 (buf fs) j Hj) as [b Hb].
    cbn [run_sort Swap FileSorter_sort]. unfold fs_Swap. rewrite Ha, Hb.
    destruct (IH (set_buf (<[i:=b]> (<[j:=a]> (buf fs))) fs)) as (b' & -> & Hp).
    + done.
    + cbn [buf set_buf]. by rewrite !length_insert.
    + exists b'. split; [done|]. rewrite Hp. cbn [buf set_buf].
      by apply Permutation_insert_swap.
Qed.

(** X3. The error the sorter captured in [Less] is never reset. With an
    error captured, [flushToFile] returns that error, writes nothing, names
    no file and keeps the rows of the buffer (possibly in another order);
    an [Output] of a sorter that never spilled returns it as well, and the
    sorter stays in its input phase. *)
Theorem captured_error_is_kept (fs : FileSorter) (w : FileSystem) e :
  err fs = Some e →
  (∃ b, flushToFile fs w = (Some e, set_buf b fs, w) ∧ b ≡ₚ buf fs)
  ∧ (closed fs = false → files fs = [] → fetched fs = false →
     ∃ b, Output fs w = ([], [], 0, Some e, set_buf b fs, w) ∧ b ≡ₚ buf fs).
Proof.
  intros He.
  destruct (run_sort_sticky (sort_algorithm (length (buf fs))) fs e He) as (b & Hb & Hp);
    [apply sort_in_range|].
  assert (Hs : sort_Sort fs = set_buf b fs) by exact Hb.
  split.
  - exists b. split; [|done]. unfold flushToFile. cbv zeta. rewrite Hs.
    change (err (set_buf b fs)) with (err fs). by rewrite He.
  - intros Hc Hf Hfe. exists b. split; [|done].
    unfold Output. rewrite Hc, Hf. cbn [length Nat.eqb].
    unfold internalSort. rewrite Hfe. cbn [negb]. cbv zeta. rewrite Hs.
    change (err (set_buf b fs)) with (err fs). by rewrite He.
Qed.

(** X4. A spill that succeeds: [flushToFile] creates the file named by
    the working directory and the file counter, writes the rows of the
    buffer in ascending order, each as an 8-byte big-endian length followed
    by the encoded row, empties the buffer, appends the name to the list of
    files and adds one to the counter; every other path is as before. *)
Theorem spill_writes_sorted_run (fs : FileSorter) (w : FileSystem) :
  err fs = None → keySize fs = Z.of_nat (length (byDesc fs)) →
  Forall (row_fits fs) (buf fs) →
  tmpDir fs ≠ "" → workdir_ready w (tmpDir fs) →
  ∃ sorted,
    sorted ≡ₚ buf fs
    ∧ StronglySorted (row_le fs) sorted
    ∧ flushToFile fs w =
        (None,
         set_buf [] (set_files (files fs ++ [run_path fs (fileCount fs)])
                       (set_fileCount (S (fileCount fs)) fs)),
         <[run_path fs (fileCount fs) := Reg (run_bytes sorted)]> w).
Proof.
  intros He Hks Hfit Hdir Hready.
  assert (Hkeys : Forall (λ r, key_fits fs r = true) (buf fs)).
  { eapply Forall_impl; [exact Hfit|]. intros r (Hk & _).
    unfold key_fits. apply Nat.eqb_eq. lia. }
  destruct (flushToFile_ok fs w He Hkeys Hdir Hready) as (sorted & Hp & Hs & Hf).
  exists sorted. split; [done|]. split; [|done].
  apply (StronglySorted_on (not_after fs) (row_le fs) (λ r, key_fits fs r = true));
    [|by rewrite Hp|done].
  intros a b. apply not_after_row_le.
Qed.

(** X5. What a spill wrote is what [fetchNextRow] reads: on an open run
    file that holds the records of the rows [rs], each a row that fits the
    schema and whose record the runtime can allocate, it returns the first
    row of [rs] with no error and leaves the records of the other rows
    unread; at the end of the file it returns neither a row nor an error. *)
Theorem run_file_round_trip (fs : FileSorter) i rs :
  fds fs !! i = Some (open_file (run_bytes rs)) → Forall (row_readable fs) rs →
  fetchNextRow fs i =
    (head rs, None, set_fds (<[i := open_file (run_bytes (tail rs))]> (fds fs)) fs).
Proof.
  intros Hi Hfit. destruct rs as [|r rs].
  - by apply fetchNextRow_end.
  - inversion Hfit as [|? ? Hr _]; subst. by apply fetchNextRow_record.
Qed.

Lemma Input_all_runs (fs0 : FileSorter) (w0 : FileSystem) rows :
  fresh fs0 → workdir_ready w0 (tmpDir fs0) → Forall (row_fits fs0) rows →
  ∃ fs1 w1 runs,
    Input_all rows fs0 w0 = (replicate (length rows) None, fs1, w1)
    ∧ files fs1 = map (run_path fs0) (seq 0 (length runs))
    ∧ Forall (λ run, Z.of_nat (length run) = bufSize fs0
                     ∧ StronglySorted (row_le fs0) run) runs
    ∧ (∀ i run, runs !! i = Some run → w1 !! run_path fs0 i = Some (Reg (run_bytes run)))
    ∧ (∀ p, (∀ i, (i < length runs)%nat → p ≠ run_path fs0 i) → w1 !! p = w0 !! p)
    ∧ concat runs ++ buf fs1 ≡ₚ rows
    ∧ Z.of_nat (length (buf fs1)) ≤ bufSize fs0
    ∧ (rows ≠ [] → buf fs1 ≠ []).
Proof.
  intros Hfresh Hready Hrows.
  destruct (Input_all_spec fs0 w0 Hfresh Hready rows [] [] fs0 w0)
    as (runs & b & fs1 & w1 & Hin & Hinv & Hb & Hblen & Hfull & Hperm & Hnil).
  { by apply after_inputs_fresh. }
  { done. }
  { apply Forall_nil_2. }
  { simpl. pose proof Hfresh as (_ & _ & _ & _ & _ & _ & _ & _ & _ & Hpos & _). lia. }
  cbn [app] in Hinv, Hperm.
  destruct Hinv as (Hfs1 & Hdisk & Hframe).
  exists fs1, w1, runs. split; [done|]. split; [by rewrite Hfs1|].
  assert (Hall : Forall (row_fits fs0) (concat runs ++ b)) by (by rewrite Hperm).
  apply Forall_app in Hall as [Hall _].
  split; [|split; [done|split; [done|rewrite Hfs1; split; [done|split; [done|]]]]].
  - apply Forall_forall. intros run Hrun.
    eapply Forall_forall in Hfull as [Hlen Hs]; [|exact Hrun]. split; [done|].
    apply (StronglySorted_on (not_after fs0) (row_le fs0) (λ r, key_fits fs0 r = true));
      [| |done].
    + intros x y. apply not_after_row_le.
    + apply Forall_forall. intros r Hr. apply (row_fits_key fs0); [done|].
      apply Forall_concat in Hall.
      eapply Forall_forall in Hall; [|exact Hrun].
      eapply Forall_forall in Hall; [exact Hall|exact Hr].
  - intros Hne. apply Hnil. by right.
Qed.

(** X6. Take a sorter from [Build] whose working directory is a directory
    in which no directory has a number for its name. [Input] accepts every
    row that fits the schema. After [n > 0] such rows the sorter has written
    [(n - 1) / bufSize] run files, named [0], [1], ... in the working
    directory, each with exactly [bufSize] rows in ascending order; the rows
    of the run files and of the buffer are the rows given; no other path of
    the file system has changed. *)
Theorem Input_spills_full_buffers b (w0 : FileSystem) fs0 rows :
  Build b w0 = (Some fs0, None) → workdir_ready w0 (tmpDir fs0) →
  Forall (row_fits fs0) rows → rows ≠ [] →
  ∃ fs1 w1 runs,
    Input_all rows fs0 w0 = (replicate (length rows) None, fs1, w1)
    ∧ Z.of_nat (length runs) = (Z.of_nat (length rows) - 1) `div` bufSize fs0
    ∧ files fs1 = map (run_path fs0) (seq 0 (length runs))
    ∧ Forall (λ run, Z.of_nat (length run) = bufSize fs0
                     ∧ StronglySorted (row_le fs0) run) runs
    ∧ (∀ i run, runs !! i = Some run → w1 !! run_path fs0 i = Some (Reg (run_bytes run)))
    ∧ (∀ p, (∀ i, (i < length runs)%nat → p ≠ run_path fs0 i) → w1 !! p = w0 !! p)
    ∧ concat runs ++ buf fs1 ≡ₚ rows.
Proof.
  intros Hb Hready Hrows Hne. pose proof (Build_fresh _ _ _ Hb) as Hfresh.
  destruct (Input_all_runs fs0 w0 rows Hfresh Hready Hrows)
    as (fs1 & w1 & runs & Hin & Hfiles & Hfull & Hdisk & Hframe & Hperm & Hlen & Hnil).
  exists fs1, w1, runs. split; [done|]. split; [|done].
  pose proof Hfresh as (_ & _ & _ & _ & _ & _ & _ & _ & _ & Hpos & _).
  assert (Hcat : Z.of_nat (length (concat runs)) = bufSize fs0 * Z.of_nat (length runs)).
  { clear -Hfull. induction Hfull as [|run runs [Hl _] _ IH]; [simpl; lia|].
    cbn [concat]. rewrite length_app. cbn [length]. lia. }
  apply Permutation_length in Hperm. rewrite length_app in Hperm.
  specialize (Hnil Hne). assert (0 < length (buf fs1))%nat by (destruct (buf fs1); [done|simpl; lia]).
  apply (Z.div_unique _ _ _ (Z.of_nat (length (buf fs1)) - 1)); lia.
Qed.

Lemma Output_n_length `{!SortLibrary} k (fs : FileSorter) (w : FileSystem) :
  length (Output_n k fs w).1.1 = k.
Proof.
  revert fs w. induction k as [|k IH]; intros fs w; [done|].
  cbn [Output_n]. destruct (Output fs w) as [[r fs1] w1].
  specialize (IH fs1 w1). destruct (Output_n k fs1 w1) as [[rs fs2] w2].
  cbn [fst length] in *. by rewrite IH.
Qed.

Lemma Output_n_prefix `{!SortLibrary} k j (fs : FileSorter) (w : FileSystem) :
  (Output_n k fs w).1.1 = take k (Output_n (k + j) fs w).1.1.
Proof.
  rewrite Output_n_app. pose proof (Output_n_length k fs w) as Hlen.
  destruct (Output_n k fs w) as [[rs fs1] w1].
  destruct (Output_n j fs1 w1) as [[rs' fs2] w2]. cbn [fst] in *.
  by rewrite take_app_length'.
Qed.

(** X7. Take a sorter from [Build] whose working directory is a directory
    in which no directory has a number for its name, and [Input] [n] rows
    that fit the schema and whose records the runtime can allocate. The
    calls of [Output] then return the rows given, without error, in
    ascending order of their keys under the direction flags: the first [k]
    calls return the first [k] rows of one ascending arrangement of the rows
    given, for every [k] up to [n]; whether the rows stayed in the buffer or
    went through run files and the heap. *)
Theorem Output_in_order b (w0 : FileSystem) fs0 rows :
  Build b w0 = (Some fs0, None) → workdir_ready w0 (tmpDir fs0) →
  Forall (row_readable fs0) rows →
  ∃ out fs1 w1,
    Input_all rows fs0 w0 = (replicate (length rows) None, fs1, w1)
    ∧ out ≡ₚ rows
    ∧ StronglySorted (row_le fs0) out
    ∧ ∀ k, (k ≤ length rows)%nat →
        (Output_n k fs1 w1).1.1 = map row_result (take k out).
Proof.
  intros Hb Hready Hrows. pose proof (Build_fresh _ _ _ Hb) as Hfresh.
  destruct (sort_session fs0 w0 rows 0 Hfresh Hready Hrows)
    as (out & fs1 & w1 & fs2 & w2 & Hin & Hout & Hperm & Hs & _).
  exists out, fs1, w1. rewrite Nat.add_0_r in Hout. cbn [replicate] in Hout.
  rewrite app_nil_r in Hout.
  split; [done|]. split; [done|]. split; [done|].
  intros k Hk. rewrite (Output_n_prefix k (length rows - k)).
  replace (k + (length rows - k))%nat with (length rows) by lia.
  rewrite Hout. cbn [fst]. by rewrite <- fmap_take.
Qed.

(** X8. Take a sorter from [Build] whose working directory is a directory
    in which no directory has a number for its name, and [Input] [n] rows
    that fit the schema and whose records the runtime can allocate. The
    first [n] calls of [Output] return exactly the rows given, each as often
    as it was given, and every later call returns the empty result
    [(nil, nil, 0, nil)]. *)
Theorem Output_returns_every_row b (w0 : FileSystem) fs0 rows m :
  Build b w0 = (Some fs0, None) → workdir_ready w0 (tmpDir fs0) →
  Forall (row_readable fs0) rows →
  ∃ out fs1 w1 fs2 w2,
    Input_all rows fs0 w0 = (replicate (length rows) None, fs1, w1)
    ∧ Output_n (length rows + m) fs1 w1 =
        (map row_result out ++ replicate m end_of_data, fs2, w2)
    ∧ out ≡ₚ rows.
Proof.
  intros Hb Hready Hrows. pose proof (Build_fresh _ _ _ Hb) as Hfresh.
  destruct (sort_session fs0 w0 rows m Hfresh Hready Hrows)
    as (out & fs1 & w1 & fs2 & w2 & Hin & Hout & Hp & _).
  by exists out, fs1, w1, fs2, w2.
Qed.

(** X9. The run files of a whole session, on a sorter from [Build] whose
    working directory is a directory in which no directory has a number for
    its name, with rows that fit the schema and whose records the runtime
    can allocate. With at most [bufSize] rows no file is named and neither
    [Input] nor [Output] changes the file system. With more, [Input] leaves
    [(n - 1) / bufSize] run files and the [Output] calls add exactly one,
    which holds the rows left in the buffer; they change no other path. *)
Theorem run_files_of_a_session b (w0 : FileSystem) fs0 rows m :
  Build b w0 = (Some fs0, None) → workdir_ready w0 (tmpDir fs0) →
  Forall (row_readable fs0) rows →
  ∃ fs1 w1 r fs2 w2,
    Input_all rows fs0 w0 = (replicate (length rows) None, fs1, w1)
    ∧ Output_n (length rows + m) fs1 w1 = (r, fs2, w2)
    ∧ (Z.of_nat (length rows) ≤ bufSize fs0 → files fs1 = [] ∧ w1 = w0 ∧ w2 = w0)
    ∧ (bufSize fs0 < Z.of_nat (length rows) →
       ∃ k last,
         Z.of_nat k = (Z.of_nat (length rows) - 1) `div` bufSize fs0
         ∧ files fs1 = map (run_path fs0) (seq 0 k)
         ∧ last ≡ₚ buf fs1
         ∧ w2 = <[run_path fs0 k := Reg (run_bytes last)]> w1).
Proof.
  intros Hb Hready Hrows. pose proof (Build_fresh _ _ _ Hb) as Hfresh.
  pose proof Hfresh as (_ & _ & _ & _ & _ & _ & _ & _ & _ & Hpos & _).
  destruct (sort_session fs0 w0 rows m Hfresh Hready Hrows)
    as (out & fs1 & w1 & fs2 & w2 & Hin & Hout & _ & _ & sorted & Hsp & Hw2).
  assert (Hfit : Forall (row_fits fs0) rows).
  { eapply Forall_impl; [exact Hrows|]. by intros r [? _]. }
  destruct (Input_all_runs fs0 w0 rows Hfresh Hready Hfit)
    as (fs1' & w1' & runs & Hin' & Hfiles & Hfull & Hdisk & Hframe & Hperm & Hlen & Hnil).
  rewrite Hin in Hin'. injection Hin' as <- <-.
  exists fs1, w1. eexists _, fs2, w2. split; [done|]. split; [exact Hout|].
  assert (Hcat : Z.of_nat (length (concat runs)) = bufSize fs0 * Z.of_nat (length runs)).
  { clear -Hfull. induction Hfull as [|run runs [Hl _] _ IH]; [simpl; lia|].
    cbn [concat]. rewrite length_app. cbn [length]. lia. }
  pose proof (Permutation_length Hperm) as Hn. rewrite length_app in Hn.
  split.
  - intros Hsmall.
    assert (runs = []) as ->.
    { destruct runs as [|run runs]; [done|]. exfalso.
      destruct rows as [|r0 rows].
      - cbn [length] in *. lia.
      - assert (buf fs1 ≠ []) by (by apply Hnil).
        assert (0 < length (buf fs1))%nat by (destruct (buf fs1); [done|simpl; lia]).
        cbn [length] in *. nia. }
    cbn [length seq map] in Hfiles. rewrite Hfiles in Hw2.
    assert (w1 = w0) as ->.
    { apply map_eq. intros p. apply Hframe. intros i Hi. simpl in Hi. lia. }
    done.
  - intros Hbig.
    assert (rows ≠ []) by (intros ->; simpl in Hbig; lia).
    assert (buf fs1 ≠ []) by (by apply Hnil).
    assert (0 < length (buf fs1))%nat by (destruct (buf fs1); [done|simpl; lia]).
    assert (runs ≠ []).
    { intros ->. cbn [concat length] in *. lia. }
    exists (length runs), sorted.
    split; [|split; [done|split; [done|]]].
    + apply (Z.div_unique _ _ _ (Z.of_nat (length (buf fs1)) - 1)); lia.
    + rewrite Hfiles in Hw2. destruct runs as [|run runs]; [done|].
      cbn [length seq map] in Hw2. rewrite length_map, length_seq in Hw2. exact Hw2.
Qed.

Lemma openAllFiles_loop_missing pre n post (fs : FileSorter) (w : FileSystem) contents :
  Forall2 (λ n c, w !! n = Some (Reg c)) pre contents →
  w !! n = None →
  openAllFiles_loop (pre ++ n :: post) fs w =
    (Some (Err "no such file or directory"),
     set_fds (fds fs ++ map open_file contents) fs).
Proof.
  intros Hpre Hn. revert fs. induction Hpre as [|p c pre contents Hp _ IH]; intros fs.
  - cbn [app openAllFiles_loop map]. unfold os_Open. rewrite Hn.
    rewrite app_nil_r. by destruct fs.
  - cbn [app openAllFiles_loop map]. unfold os_Open. rewrite Hp.
    rewrite IH. cbn [fds set_fds]. rewrite <- app_assoc. reflexivity.
Qed.

(** X10. [openAllFiles] opens the files of the sorter in order and appends
    one descriptor for each to those it holds. When a file is missing it
    returns the error of [os.Open] and the descriptors opened before it stay
    in the sorter, open. *)
Theorem openAllFiles_opens_in_order (fs : FileSorter) (w : FileSystem) :
  (∀ contents,
     Forall2 (λ n c, w !! n = Some (Reg c)) (files fs) contents →
     openAllFiles fs w = (None, set_fds (fds fs ++ map open_file contents) fs))
  ∧ (∀ pre n post contents,
       files fs = pre ++ n :: post →
       Forall2 (λ n c, w !! n = Some (Reg c)) pre contents →
       w !! n = None →
       openAllFiles fs w =
         (Some (Err "no such file or directory"),
          set_fds (fds fs ++ map open_file contents) fs)).
Proof.
  split.
  - intros contents Hall. by apply openAllFiles_loop_ok.
  - intros pre n post contents Hf Hpre Hn. unfold openAllFiles. rewrite Hf.
    by apply openAllFiles_loop_missing.
Qed.

Lemma prefix_app_l (s x : string) : String.prefix s (s +:+ x) = true.
Proof.
  induction s as [|c s IH]; [by destruct x|].
  change (String c s +:+ x) with (String c (s +:+ x)). cbn [String.prefix].
  destruct (Ascii.ascii_dec c c); [exact IH|done].
Qed.

Lemma prefix_app (d s x : string) : String.prefix (d +:+ s) (d +:+ s +:+ x) = true.
Proof.
  induction d as [|c d IH]; [exact (prefix_app_l s x)|].
  change (String c d +:+ s +:+ x) with (String c (d +:+ s +:+ x)).
  change (String c d +:+ s) with (String c (d +:+ s)). cbn [String.prefix].
  destruct (Ascii.ascii_dec c c); [exact IH|done].
Qed.

Lemma is_under_run_path (fs : FileSorter) n :
  tmpDir fs ≠ "" → is_under (tmpDir fs) (run_path fs n) = true.
Proof.
  intros Hd. unfold is_under, run_path, path_Join. rewrite decide_False by done.
  apply prefix_app.
Qed.

Lemma same_config_refl (fs : FileSorter) : same_config fs fs.
Proof. by repeat split. Qed.

Lemma same_config_trans (a b c : FileSorter) :
  same_config a b → same_config b c → same_config a c.
Proof. unfold same_config. intros (?&?&?&?&?&?) (?&?&?&?&?&?). repeat split; congruence. Qed.

Lemma flushToFile_config (fs : FileSorter) (w : FileSystem) e fs' w' :
  flushToFile fs w = (e, fs', w') → same_config fs fs'.
Proof. intros Hf. apply flushToFile_frame in Hf as (? & ? & ? & ? & ->). by repeat split. Qed.

Lemma Input_config k v h (fs : FileSorter) (w : FileSystem) e fs' w' :
  Input k v h fs w = (e, fs', w') → same_config fs fs'.
Proof.
  unfold Input. repeat case_match; intros; simplify_eq/=; try by repeat split.
  all: match goal with Hf : flushToFile _ _ = _ |- _ =>
         apply flushToFile_frame in Hf as (? & ? & ? & ? & ->) end; by repeat split.
Qed.

Lemma externalSort_prime_config (fs : FileSorter) (w : FileSystem) e fs' w' :
  externalSort_prime fs w = (e, fs', w') → same_config fs fs'.
Proof.
  unfold externalSort_prime, openAllFiles.
  assert (∃ e1 fs1 w1,
    (if (0 <? length (buf fs))%nat then flushToFile fs w else (None, fs, w)) = (e1, fs1, w1)
    ∧ same_config fs fs1) as (e1 & fs1 & w1 & -> & Hc1).
  { destruct (0 <? length (buf fs))%nat.
    - destruct (flushToFile fs w) as [[e1 fs1] w1] eqn:Hfl.
      exists e1, fs1, w1. split; [done|]. by apply flushToFile_config in Hfl.
    - exists None, fs, w. split; [done|apply same_config_refl]. }
  destruct e1; [by intros [= <- <- <-]|].
  cbv zeta.
  destruct (rh_err _); [intros [= <- <- <-]; exact Hc1|].
  match goal with |- context [openAllFiles_loop ?n ?x ?y] =>
    destruct (openAllFiles_loop n x y) as [e2 fs2] eqn:Ho end.
  apply openAllFiles_loop_frame in Ho as (l & -> & Hl).
  destruct e2; [intros [= <- <- <-]; exact Hc1|].
  match goal with |- context [prime_loop ?n ?x] =>
    destruct (prime_loop n x) as [e3 fs3] eqn:Hp end.
  apply prime_loop_frame in Hp as (l' & rh' & -> & _ & _).
  destruct e3; intros [= <- <- <-]; exact Hc1.
Qed.

Lemma externalSort_config (fs : FileSorter) (w : FileSystem) r e fs' w' :
  externalSort fs w = (r, e, fs', w') → same_config fs fs'.
Proof.
  unfold externalSort.
  assert (∃ e1 fs1 w1,
    (if negb (fetched fs) then externalSort_prime fs w else (None, fs, w)) = (e1, fs1, w1)
    ∧ same_config fs fs1) as (e1 & fs1 & w1 & -> & Hc).
  { destruct (fetched fs); simpl.
    - exists None, fs, w. split; [done|apply same_config_refl].
    - destruct (externalSort_prime fs w) as [[e1 fs1] w1] eqn:Hp.
      exists e1, fs1, w1. split; [done|]. by apply externalSort_prime_config in Hp. }
  destruct e1 as [e1|]; [by intros [= <- <- <- <-]|].
  destruct (0 <? _)%nat; [|by intros [= <- <- <- <-]].
  destruct (heap_Pop _) as [im rh]. cbv zeta.
  destruct (rh_err rh); [intros [= <- <- <- <-]; exact Hc|].
  destruct im as [im|]; [|intros [= <- <- <- <-]; exact Hc].
  match goal with |- context [fetchNextRow ?x ?i] =>
    destruct (fetchNextRow x i) as [[row e2] fs2] eqn:Hfn end.
  apply fetchNextRow_frame in Hfn as (l & -> & _ & _).
  repeat case_match; intros; simplify_eq/=; exact Hc.
Qed.

Lemma internalSort_config (fs : FileSorter) r e fs' :
  internalSort fs = (r, e, fs') → same_config fs fs'.
Proof.
  unfold internalSort. destruct (sort_Sort_frame fs) as (b & e' & ->).
  destruct (fetched fs); simpl;
    repeat case_match; intros; simplify_eq/=; by repeat split.
Qed.

Lemma Output_config (fs : FileSorter) (w : FileSystem) r fs' w' :
  Output fs w = (r, fs', w') → same_config fs fs'.
Proof.
  unfold Output. destruct (closed fs).
  { intros [= <- <- <-]. apply same_config_refl. }
  destruct (length (files fs) =? 0)%nat.
  - destruct (internalSort fs) as [[r1 e1] fs1] eqn:Hi.
    apply internalSort_config in Hi.
    destruct e1 as [e1|]; [|destruct r1]; by intros [= <- <- <-].
  - destruct (externalSort fs w) as [[[r1 e1] fs1] w1] eqn:He.
    apply externalSort_config in He.
    destruct e1 as [e1|]; [|destruct r1]; by intros [= <- <- <-].
Qed.

Lemma Close_config (fs : FileSorter) (w : FileSystem) e fs' w' :
  Close fs w = (e, fs', w') → same_config fs fs'.
Proof.
  unfold Close, closeAllFiles. destruct (closed fs).
  { intros [= <- <- <-]. apply same_config_refl. }
  cbv zeta. cbn [fds set_buf].
  destruct (close_loop (fds fs) []) as [e1 l].
  destruct e1; [by intros [= <- <- <-]|].
  cbn [tmpDir set_fds].
  destruct (os_RemoveAll _ w) as [w1 e2].
  destruct e2; by intros [= <- <- <-].
Qed.

Lemma run_calls_config cs (st : FileSorter * FileSystem) :
  same_config st.1 (run_calls cs st).1.
Proof.
  revert st. induction cs as [|c cs IH]; intros st; [apply same_config_refl|].
  cbn [run_calls]. eapply same_config_trans; [|apply IH].
  destruct st as [fs w]. destruct c as [k v h| |]; cbn [run_call fst snd].
  - destruct (Input k v h fs w) as [[e fs'] w'] eqn:Hi. by apply Input_config in Hi.
  - destruct (Output fs w) as [[r fs'] w'] eqn:Ho. by apply Output_config in Ho.
  - destruct (Close fs w) as [[e fs'] w'] eqn:Hc. by apply Close_config in Hc.
Qed.




(** X12. No call of [Input], [Output] or [Close] changes what [Build] took
    from the builder: the key and value sizes, the buffer size, the working
    directory, the statement context and the direction flags. *)
Theorem configuration_is_fixed b (w0 : FileSystem) fs0 cs :
  Build b w0 = (Some fs0, None) →
  let fs := (run_calls cs (fs0, w0)).1 in
  keySize fs = b_keySize b ∧ valSize fs = b_valSize b ∧ bufSize fs = b_bufSize b
  ∧ tmpDir fs = b_tmpDir b ∧ sc fs = b_sc b ∧ byDesc fs = b_byDesc b.
Proof.
  intros Hb. cbv zeta.
  pose proof (run_calls_config cs (fs0, w0)) as (-> & -> & -> & -> & -> & ->).
  apply Build_success in Hb as [_ ->]. done.
Qed.

Lemma getUniqueFileNames_spec n (fs : FileSorter) :
  getUniqueFileNames n fs =
    (map (run_path fs) (seq (fileCount fs) n), set_fileCount (fileCount fs + n) fs).
Proof.
  revert fs. induction n as [|n IH]; intros fs.
  - cbn [getUniqueFileNames seq map]. rewrite Nat.add_0_r. by destruct fs.
  - cbn [getUniqueFileNames seq map]. unfold getUniqueFileName. cbv zeta.
    rewrite IH. cbn [fileCount set_fileCount]. f_equal.
    unfold set_fileCount. cbn. f_equal. lia.
Qed.

(** X13. The names [getUniqueFileName] hands out in [n] calls are pairwise
    different, each names an entry directly in the working directory, and
    the file counter has advanced by [n]. *)
Theorem unique_file_names n (fs : FileSorter) :
  tmpDir fs ≠ "" →
  let '(names, fs') := getUniqueFileNames n fs in
  NoDup names
  ∧ Forall (λ p, path_Dir p = tmpDir fs ∧ is_under (tmpDir fs) p = true) names
  ∧ length names = n
  ∧ fileCount fs' = (fileCount fs + n)%nat.
Proof.
  intros Hd. rewrite getUniqueFileNames_spec.
  split; [|split; [|split]].
  - apply NoDup_fmap_2; [|apply NoDup_seq].
    intros x y Hxy. by apply path_Join_inj in Hxy.
  - apply Forall_fmap, Forall_forall. intros k _. cbn. split.
    + by apply path_Dir_Join.
    + by apply is_under_run_path.
  - by rewrite length_map, length_seq.
  - done.
Qed.


(** X15. A spill that cannot create its file loses no row. When the
    buffer is full and the working directory is gone, [Input] returns the
    error of [os.OpenFile], does not take the new row, keeps the rows of
    the buffer, now in ascending order, and the list of files, and leaves
    the file system alone; the file counter has advanced by one. *)
Theorem failed_spill_keeps_rows k v h (fs : FileSorter) (w : FileSystem) :
  closed fs = false → fetched fs = false → err fs = None →
  keySize fs = Z.of_nat (length (byDesc fs)) →
  Forall (row_fits fs) (buf fs) →
  Z.of_nat (length k) = keySize fs → Z.of_nat (length v) = valSize fs →
  bufSize fs ≤ Z.of_nat (length (buf fs)) →
  tmpDir fs ≠ "" → w !! tmpDir fs = None → w !! run_path fs (fileCount fs) = None →
  ∃ e sorted,
    Input k v h fs w =
      (Some e, set_fileCount (S (fileCount fs)) (set_buf sorted fs), w)
    ∧ sorted ≡ₚ buf fs
    ∧ StronglySorted (row_le fs) sorted.
Proof.
  intros Hc Hfe He Hks Hfit Hk Hv Hfull Hd Hdir Hname.
  assert (Hkeys : Forall (λ r, key_fits fs r = true) (buf fs)).
  { eapply Forall_impl; [exact Hfit|]. intros r (Hkr & _).
    unfold key_fits. apply Nat.eqb_eq. lia. }
  destruct (sort_Sort_buffer fs He Hkeys) as (sorted & Hs & Hp & Hsorted).
  exists (Err "no such file or directory"), sorted.
  split; [|split; [done|]].
  2: { apply (StronglySorted_on (not_after fs) (row_le fs) (λ r, key_fits fs r = true));
         [|by rewrite Hp|done].
       intros x y. apply not_after_row_le. }
  assert (Hflush : flushToFile fs w =
    (Some (Err "no such file or directory"),
     set_fileCount (S (fileCount fs)) (set_buf sorted fs), w)).
  { unfold flushToFile. cbv zeta. rewrite Hs.
    change (err (set_buf sorted fs)) with (err fs). rewrite He.
    unfold getUniqueFileName. cbv zeta.
    change (path_Join (tmpDir (set_buf sorted fs)) (strconv_Itoa (fileCount (set_buf sorted fs))))
      with (run_path fs (fileCount fs)).
    unfold os_OpenFile. rewrite Hname.
    unfold run_path. rewrite path_Dir_Join by done. rewrite Hdir. reflexivity. }
  by rewrite (Input_full k v h fs w _ _ _ Hc Hfe Hk Hv Hfull Hflush).
Qed.

End Sessions.




Lemma Input_schema_mismatch_witness :
  @Input IntColumns.collaborators insertionSort [] [7] 1 (IntColumns.sorter 2) IntColumns.disk
  = (Some (Err "mismatch in key size and key slice"), IntColumns.sorter 2, IntColumns.disk).
Proof.
  apply (@Input_schema_mismatch IntColumns.collaborators insertionSort
           [] [7] 1 (IntColumns.sorter 2) IntColumns.disk);
    [reflexivity | reflexivity | left; simpl; lia].
Defined.





(** ** The example sorter, for the instances *)

Lemma IntColumns_disk_ready : workdir_ready IntColumns.disk "/tmp/sort".
Proof.
  split; [reflexivity|]. intros n. unfold IntColumns.disk.
  rewrite lookup_insert_ne.
  - rewrite lookup_singleton_ne; [done|]. intros Heq. symmetry in Heq. revert Heq.
    by apply path_Join_ne.
  - unfold path_Join. simpl. discriminate.
Qed.

Lemma IntColumns_row_fits n k v h :
  - 2 ^ 63 ≤ h < 2 ^ 63 → Z.abs k < 2 ^ 20 → Z.abs v < 2 ^ 20 → Z.abs h < 2 ^ 20 →
  row_fits (IntColumns.sorter n) (IntColumns.row k v h).
Proof.
  intros Hh Hk Hv Hh'. split; [reflexivity|]. split; [reflexivity|]. split; [done|].
  unfold encode_body. cbn [EncodeKey IntColumns.collaborators key val handle IntColumns.row fst
                           NewIntDatum].
  cbn [map concat app]. rewrite !length_app. unfold IntColumns.enc.
  cbn [length]. rewrite !length_app, !repeat_length. cbn [length]. lia.
Qed.

Lemma IntColumns_row_readable n k v h :
  - 2 ^ 63 ≤ h < 2 ^ 63 → Z.abs k < 2 ^ 20 → Z.abs v < 2 ^ 20 → Z.abs h < 2 ^ 20 →
  row_readable (IntColumns.sorter n) (IntColumns.row k v h).
Proof.
  intros Hh Hk Hv Hh'. split; [by apply IntColumns_row_fits|].
  unfold encode_body. cbn [EncodeKey IntColumns.collaborators key val handle IntColumns.row fst
                           NewIntDatum alloc_limit].
  cbn [map concat app]. rewrite !length_app. unfold IntColumns.enc.
  cbn [length]. rewrite !length_app, !repeat_length. cbn [length]. lia.
Qed.

Lemma four_rows_readable : Forall (row_readable (IntColumns.sorter 2)) IntColumns.four_rows.
Proof.
  unfold IntColumns.four_rows.
  repeat (apply Forall_cons_2; [apply IntColumns_row_readable; lia|]).
  apply Forall_nil_2.
Qed.

Lemma four_rows_fit : Forall (row_fits (IntColumns.sorter 2)) IntColumns.four_rows.
Proof.
  unfold IntColumns.four_rows. repeat (apply Forall_cons_2; [apply IntColumns_row_fits; lia|]).
  apply Forall_nil_2.
Qed.

Lemma lessThan_strict_weak_order_witness :
  (@lessThan IntColumns.collaborators (Some tt) [1] [2] [false]).2 = None
  ∧ (@lessThan IntColumns.collaborators (Some tt) [1] [1] [false]).1 = false.
Proof.
  destruct (@lessThan_strict_weak_order IntColumns.collaborators IntColumns_ok
              (Some tt) [false] [1] [2] [3] eq_refl eq_refl eq_refl) as (H1 & H2 & _).
  exact (conj H1 H2).
Defined.

Lemma lessThan_descending_witness :
  @lessThan IntColumns.collaborators (Some tt) [1] [2] (map negb [false])
  = @lessThan IntColumns.collaborators (Some tt) [2] [1] [false].
Proof.
  exact (@lessThan_descending IntColumns.collaborators IntColumns_ok
           (Some tt) [false] [1] [2] eq_refl eq_refl).
Defined.

Lemma captured_error_is_kept_witness :
  ∃ b, @flushToFile IntColumns.collaborators insertionSort IntColumns.failed IntColumns.disk
       = (Some (Err "cannot compare"), set_buf b IntColumns.failed, IntColumns.disk)
       ∧ b ≡ₚ buf IntColumns.failed.
Proof.
  exact (proj1 (@captured_error_is_kept IntColumns.collaborators insertionSort insertionSort_ok
                  IntColumns.failed IntColumns.disk (Err "cannot compare") eq_refl)).
Defined.

Lemma full_fits : Forall (row_fits IntColumns.full) (buf IntColumns.full).
Proof.
  repeat (apply Forall_cons_2; [apply (IntColumns_row_fits 2); lia|]). apply Forall_nil_2.
Qed.

Lemma spill_writes_sorted_run_witness :
  ∃ sorted,
    sorted ≡ₚ buf IntColumns.full
    ∧ StronglySorted (row_le IntColumns.full) sorted
    ∧ @flushToFile IntColumns.collaborators insertionSort IntColumns.full IntColumns.disk =
        (None,
         set_buf [] (set_files (files IntColumns.full ++ [run_path IntColumns.full (fileCount IntColumns.full)])
                       (set_fileCount (S (fileCount IntColumns.full)) IntColumns.full)),
         <[run_path IntColumns.full (fileCount IntColumns.full) := Reg (run_bytes sorted)]> IntColumns.disk).
Proof.
  apply (@spill_writes_sorted_run IntColumns.collaborators IntColumns_ok
           insertionSort insertionSort_ok IntColumns.full IntColumns.disk);
    [reflexivity | reflexivity | exact full_fits | discriminate | exact IntColumns_disk_ready].
Defined.

Lemma one_run_readable :
  Forall (row_readable IntColumns.one_run) [IntColumns.row 1 10 100; IntColumns.row 2 20 200].
Proof.
  repeat (apply Forall_cons_2; [apply (IntColumns_row_readable 2); lia|]). apply Forall_nil_2.
Qed.

Lemma run_file_round_trip_witness :
  fetchNextRow IntColumns.one_run 0 =
    (Some (IntColumns.row 1 10 100), None,
     set_fds (<[0%nat := open_file (run_bytes [IntColumns.row 2 20 200])]> (fds IntColumns.one_run)) IntColumns.one_run).
Proof.
  exact (@run_file_round_trip IntColumns.collaborators IntColumns_ok IntColumns.one_run 0%nat
           [IntColumns.row 1 10 100; IntColumns.row 2 20 200] eq_refl one_run_readable).
Defined.

Lemma four_rows_ne : IntColumns.four_rows ≠ [].
Proof. discriminate. Qed.

Lemma Input_spills_full_buffers_witness :
  ∃ fs1 w1 (runs : list (list (@comparableRow IntColumns.collaborators))),
    @Input_all IntColumns.collaborators insertionSort IntColumns.four_rows (IntColumns.sorter 2) IntColumns.disk
      = (replicate (length IntColumns.four_rows) None, fs1, w1)
    ∧ Z.of_nat (length runs) = (Z.of_nat (length IntColumns.four_rows) - 1) `div` 2
    ∧ files fs1 = map (run_path (IntColumns.sorter 2)) (seq 0 (length runs)).
Proof.
  destruct (@Input_spills_full_buffers IntColumns.collaborators IntColumns_ok
              insertionSort insertionSort_ok (IntColumns.builder 2) IntColumns.disk
              (IntColumns.sorter 2) IntColumns.four_rows eq_refl IntColumns_disk_ready four_rows_fit
              four_rows_ne)
    as (fs1 & w1 & runs & H1 & H2 & H3 & _).
  exact (ex_intro _ fs1 (ex_intro _ w1 (ex_intro _ runs (conj H1 (conj H2 H3))))).
Defined.

Lemma Output_in_order_witness :
  ∃ out fs1 w1,
    @Input_all IntColumns.collaborators insertionSort IntColumns.four_rows
       (IntColumns.sorter 2) IntColumns.disk
      = (replicate (length IntColumns.four_rows) None, fs1, w1)
    ∧ out ≡ₚ IntColumns.four_rows
    ∧ StronglySorted (row_le (IntColumns.sorter 2)) out
    ∧ ∀ k, (k ≤ length IntColumns.four_rows)%nat →
        (@Output_n IntColumns.collaborators insertionSort k fs1 w1).1.1
        = map row_result (take k out).
Proof.
  exact (@Output_in_order IntColumns.collaborators IntColumns_ok
           insertionSort insertionSort_ok (IntColumns.builder 2) IntColumns.disk
           (IntColumns.sorter 2) IntColumns.four_rows eq_refl IntColumns_disk_ready
           four_rows_readable).
Defined.

Lemma Output_returns_every_row_witness :
  ∃ out fs1 w1 fs2 w2,
    @Input_all IntColumns.collaborators insertionSort IntColumns.four_rows (IntColumns.sorter 2) IntColumns.disk
      = (replicate (length IntColumns.four_rows) None, fs1, w1)
    ∧ @Output_n IntColumns.collaborators insertionSort (length IntColumns.four_rows + 2) fs1 w1
      = (map row_result out ++ replicate 2 end_of_data, fs2, w2)
    ∧ out ≡ₚ IntColumns.four_rows.
Proof.
  exact (@Output_returns_every_row IntColumns.collaborators IntColumns_ok
           insertionSort insertionSort_ok (IntColumns.builder 2) IntColumns.disk
           (IntColumns.sorter 2) IntColumns.four_rows 2 eq_refl IntColumns_disk_ready
           four_rows_readable).
Defined.

Lemma run_files_of_a_session_witness :
  ∃ fs1 w1 r fs2 w2,
    @Input_all IntColumns.collaborators insertionSort IntColumns.four_rows (IntColumns.sorter 2) IntColumns.disk
      = (replicate (length IntColumns.four_rows) None, fs1, w1)
    ∧ @Output_n IntColumns.collaborators insertionSort (length IntColumns.four_rows + 0) fs1 w1 = (r, fs2, w2)
    ∧ ∃ k last,
        Z.of_nat k = (Z.of_nat (length IntColumns.four_rows) - 1) `div` 2
        ∧ files fs1 = map (run_path (IntColumns.sorter 2)) (seq 0 k)
        ∧ last ≡ₚ buf fs1
        ∧ w2 = <[run_path (IntColumns.sorter 2) k := Reg (run_bytes last)]> w1.
Proof.
  destruct (@run_files_of_a_session IntColumns.collaborators IntColumns_ok
              insertionSort insertionSort_ok (IntColumns.builder 2) IntColumns.disk
              (IntColumns.sorter 2) IntColumns.four_rows 0 eq_refl IntColumns_disk_ready
              four_rows_readable)
    as (fs1 & w1 & r & fs2 & w2 & H1 & H2 & _ & H4).
  exists fs1, w1, r, fs2, w2. split; [exact H1|]. split; [exact H2|].
  apply H4. simpl. lia.
Defined.

Lemma openAllFiles_opens_in_order_witness :
  openAllFiles IntColumns.with_empty_run IntColumns.disk_with_empty_run
  = (None, set_fds (fds IntColumns.with_empty_run ++ map open_file [[]])
             IntColumns.with_empty_run)
  ∧ openAllFiles IntColumns.with_empty_run IntColumns.disk
    = (Some (Err "no such file or directory"),
       set_fds (fds IntColumns.with_empty_run ++ map open_file [])
         IntColumns.with_empty_run).
Proof.
  split.
  - apply (proj1 (@openAllFiles_opens_in_order IntColumns.collaborators
                    IntColumns.with_empty_run IntColumns.disk_with_empty_run) [[]]).
    constructor; [reflexivity | constructor].
  - apply (proj2 (@openAllFiles_opens_in_order IntColumns.collaborators
                    IntColumns.with_empty_run IntColumns.disk) [] "/tmp/sort/0" [] []);
      [reflexivity | constructor | reflexivity].
Defined.



Lemma configuration_is_fixed_witness :
  tmpDir (@run_calls IntColumns.collaborators insertionSort IntColumns.three_inputs
            (IntColumns.sorter 2, IntColumns.disk)).1 = "/tmp/sort"
  ∧ bufSize (@run_calls IntColumns.collaborators insertionSort IntColumns.three_inputs
               (IntColumns.sorter 2, IntColumns.disk)).1 = 2.
Proof.
  destruct (@configuration_is_fixed IntColumns.collaborators insertionSort
              (IntColumns.builder 2) IntColumns.disk (IntColumns.sorter 2) IntColumns.three_inputs
              eq_refl)
    as (_ & _ & H3 & H4 & _).
  exact (conj H4 H3).
Defined.

Lemma sorter_dir : tmpDir (IntColumns.sorter 2) ≠ "".
Proof. discriminate. Qed.

Lemma unique_file_names_witness :
  NoDup (getUniqueFileNames 3 (IntColumns.sorter 2)).1
  ∧ fileCount (getUniqueFileNames 3 (IntColumns.sorter 2)).2 = 3%nat.
Proof.
  pose proof (@unique_file_names IntColumns.collaborators 3 (IntColumns.sorter 2) sorter_dir)
    as Hu.
  destruct (getUniqueFileNames 3 (IntColumns.sorter 2)) as [names fs'].
  destruct Hu as (H1 & _ & _ & H4). exact (conj H1 H4).
Defined.



Lemma failed_spill_keeps_rows_witness :
  ∃ e sorted,
    @Input IntColumns.collaborators insertionSort [3] [30] 300
       IntColumns.full IntColumns.disk_without_dir
      = (Some e, set_fileCount (S (fileCount IntColumns.full)) (set_buf sorted IntColumns.full),
         IntColumns.disk_without_dir)
    ∧ sorted ≡ₚ buf IntColumns.full
    ∧ StronglySorted (row_le IntColumns.full) sorted.
Proof.
  apply (@failed_spill_keeps_rows IntColumns.collaborators IntColumns_ok
           insertionSort insertionSort_ok [3] [30] 300
           IntColumns.full IntColumns.disk_without_dir);
    [reflexivity | reflexivity | reflexivity | reflexivity | exact full_fits
    | reflexivity | reflexivity | simpl; lia | discriminate | reflexivity
    | vm_compute; reflexivity].
Defined.

End FilesortProofs.
